(** * Wudinna development-application scraper: the PDF layout engine

    A shallow embedding of the second (TypeScript) generation of
    [scraper.js]: the geometry kernel, the grid reconstruction of
    [parseCells], the fuzzy anchor search of [findStartElements] and
    [findTextBounds], the field extraction of [parseApplicationElements]
    and the page loop of [parsePdf].

    Modelling conventions.
    - A JavaScript number is an exact rational ([Q]); [===] on numbers is
      [Qeq].  Rounding of IEEE doubles is not modelled: sums, products and
      quotients are exact here, so a computed value can differ from the
      source's in the last place, and altogether where the source's
      addition absorbs a small term (as in 2^53 + 1).  The statements about
      numbers are statements about the exact values.  [Number.MAX_VALUE]
      is the rational [MAX_VALUE].
    - A string is a [string] of code units below 256 (the Latin-1 part of
      UTF-16).  White space is the part of the JavaScript [\s] class, and
      of what [trim] removes, that lies below 256: the code units 9 to 13,
      32 and 160.  The case mappings are those of JavaScript on these code
      units; the capitals of the micro sign (181) and of y with diaeresis
      (255) lie above 255, and [toUpperCase] leaves the two unchanged,
      which a comparison with text in capitals of A-Z cannot tell.
    - [undefined] results are [None]; a [TypeError] raised by reading a
      property of [undefined] is the [Threw] outcome.
    - Objects that the source mutates in place (cells and elements of a
      page) are rebuilt functionally; cells are identified by their
      position in the page's cell list. *)

From Stdlib Require Import QArith ZArith List String Ascii Bool Lia Lqa.
From Stdlib Require Import Permutation Sorted SetoidList SetoidPermutation.
From Stdlib Require Import Morphisms RelationClasses Qround.
Import ListNotations.

Open Scope Q_scope.

(** ** Numbers *)

Definition Tolerance : Q := 3.

(** [Number.MAX_VALUE], (2^53 - 1) * 2^971. *)
Definition MAX_VALUE : Q := inject_Z ((2 ^ 53 - 1) * 2 ^ 971).

Definition Qltb (a b : Q) : bool := negb (Qle_bool b a).
Definition Qgtb (a b : Q) : bool := Qltb b a.
Definition Qleb (a b : Q) : bool := Qle_bool a b.
Definition Qgeb (a b : Q) : bool := Qle_bool b a.

Definition Math_min (a b : Q) : Q := if Qle_bool a b then a else b.
Definition Math_max (a b : Q) : Q := if Qle_bool a b then b else a.
Definition Math_abs (a : Q) : Q := if Qle_bool 0 a then a else - a.

(** [v ** 2] *)
Definition sq (v : Q) : Q := v * v.

(** ** Data model *)

Record Point : Type := mkPoint { px : Q; py : Q }.

Record Line : Type := mkLine { x1 : Q; y1 : Q; x2 : Q; y2 : Q }.

Record Rectangle : Type :=
  mkRectangle { x : Q; y : Q; width : Q; height : Q }.

Record Element : Type := mkElement { text : string; bounds : Rectangle }.

Record Cell : Type := mkCell { cellBounds : Rectangle; elements : list Element }.

Coercion bounds : Element >-> Rectangle.
Coercion cellBounds : Cell >-> Rectangle.

(** ** Geometry kernel *)

Definition union (rectangle1 rectangle2 : Rectangle) : Rectangle :=
  let ux := Math_min (x rectangle1) (x rectangle2) in
  let uy := Math_min (y rectangle1) (y rectangle1) in
  let uwidth :=
    Math_max (Math_max (x rectangle1 + width rectangle1)
                       (x rectangle2 + width rectangle2) - ux) 0 in
  let uheight :=
    Math_max (Math_max (y rectangle1 + height rectangle1)
                       (y rectangle2 + height rectangle2) - uy) 0 in
  mkRectangle ux uy uwidth uheight.

Definition intersectRectangles (rectangle1 rectangle2 : Rectangle) : Rectangle :=
  let ix1 := Math_max (x rectangle1) (x rectangle2) in
  let iy1 := Math_max (y rectangle1) (y rectangle2) in
  let ix2 := Math_min (x rectangle1 + width rectangle1)
                      (x rectangle2 + width rectangle2) in
  let iy2 := Math_min (y rectangle1 + height rectangle1)
                      (y rectangle2 + height rectangle2) in
  if Qgeb ix2 ix1 && Qgeb iy2 iy1
  then mkRectangle ix1 iy1 (ix2 - ix1) (iy2 - iy1)
  else mkRectangle 0 0 0 0.

Definition intersectLines (line1 line2 : Line) (onlyWithinLineSegments : bool)
  : option Point :=
  if (Qeq_bool (x1 line1) (x2 line1) && Qeq_bool (y1 line1) (y2 line1))
     || (Qeq_bool (x1 line2) (x2 line2) && Qeq_bool (y1 line2) (y2 line2))
  then None
  else
    let denominator :=
      (y2 line2 - y1 line2) * (x2 line1 - x1 line1)
      - (x2 line1 - x1 line1) * (y2 line1 - y1 line1) in
    if Qeq_bool denominator 0 then None
    else
      let distance1 :=
        ((x2 line2 - x1 line2) * (y1 line1 - y1 line2)
         - (y2 line2 - y1 line2) * (x1 line1 - x1 line2)) / denominator in
      let distance2 :=
        ((x2 line1 - x1 line1) * (y1 line1 - y1 line2)
         - (y2 line1 - y1 line1) * (x1 line1 - x1 line2)) / denominator in
      if onlyWithinLineSegments
         && (Qltb distance1 0 || Qgtb distance1 1
             || Qltb distance2 0 || Qgtb distance2 1)
      then None
      else Some (mkPoint (x1 line1 + distance1 * (x2 line1 - x1 line1))
                         (y1 line1 + distance1 * (y2 line1 - y1 line1))).

Definition rotate90Clockwise (rectangle : Rectangle) : Rectangle :=
  mkRectangle (- (y rectangle + height rectangle)) (x rectangle)
              (height rectangle) (width rectangle).

Definition getArea (rectangle : Rectangle) : Q :=
  width rectangle * height rectangle.

Definition getPercentageOfElementInCell (element cell : Rectangle) : Q :=
  let elementArea := getArea element in
  let intersectionArea := getArea (intersectRectangles cell element) in
  if Qeq_bool elementArea 0 then 0 else (intersectionArea * 100) / elementArea.

Definition getPercentageOfElementInRectangle (element rectangle : Rectangle) : Q :=
  let elementArea := getArea element in
  let intersectionArea := getArea (intersectRectangles rectangle element) in
  if Qeq_bool elementArea 0 then 0 else (intersectionArea * 100) / elementArea.

(** The square of the distance from the middle of the right edge of
    [element1] to the middle of the left edge of [element2]. *)
Definition calculateDistance (element1 element2 : Rectangle) : Q :=
  let p1x := x element1 + width element1 in
  let p1y := y element1 + height element1 / 2 in
  let p2x := x element2 in
  let p2y := y element2 + height element2 / 2 in
  if Qltb p2x (p1x - width element1 / 5) then MAX_VALUE
  else (p2x - p1x) * (p2x - p1x) + (p2y - p1y) * (p2y - p1y).

Definition isVerticalOverlap (element1 element2 : Rectangle) : bool :=
  Qltb (y element2) (y element1 + height element1)
  && Qgtb (y element2 + height element2) (y element1).

(** The quotient by a zero [height] is [0/0] whenever it is reached with
    non-negative heights; every use compares the result with [> 50], which
    is false for the source's NaN and for the [0] that [Qdiv] gives. *)
Definition getVerticalOverlapPercentage (element1 element2 : Rectangle) : Q :=
  let oy1 := Math_max (y element1) (y element2) in
  let oy2 := Math_min (y element1 + height element1)
                      (y element2 + height element2) in
  if Qltb oy2 oy1 then 0 else ((oy2 - oy1) * 100) / height element2.

Definition getRowTop (elements : list Element) (startElement : Rectangle) : Q :=
  fold_left
    (fun top (element : Element) =>
       if Qltb (y element) (y startElement + height startElement)
          && Qgtb (y element + height element) (y startElement)
       then
         if Qgtb (getVerticalOverlapPercentage startElement element) 50
         then if Qltb (y element) top then y element else top
         else top
       else top)
    elements (y startElement).


(** ** Strings *)

Open Scope string_scope.

(** The members below 256 of the regular-expression class [\s], which are
    also the code units below 256 that [trim] removes: tab, line feed,
    vertical tab, form feed, carriage return, space and no-break space. *)
Definition isSpace (c : ascii) : bool :=
  let n := nat_of_ascii c in
  ((9 <=? n) && (n <=? 13))%nat || (n =? 32)%nat || (n =? 160)%nat.

(** The capitals below 256: A-Z, and the letters 192-222 but for the
    multiplication sign (215). *)
Definition isUpperLetter (n : nat) : bool :=
  ((65 <=? n) && (n <=? 90))%nat
  || ((192 <=? n) && (n <=? 222) && negb (n =? 215))%nat.

(** The small letters below 256 whose capital is 32 below them: a-z, and
    the letters 224-254 but for the division sign (247). *)
Definition isLowerLetter (n : nat) : bool :=
  ((97 <=? n) && (n <=? 122))%nat
  || ((224 <=? n) && (n <=? 254) && negb (n =? 247))%nat.

Definition toLowerChar (c : ascii) : ascii :=
  let n := nat_of_ascii c in
  if isUpperLetter n then ascii_of_nat (n + 32) else c.

Definition toUpperChar (c : ascii) : ascii :=
  let n := nat_of_ascii c in
  if isLowerLetter n then ascii_of_nat (n - 32) else c.

Fixpoint mapString (f : ascii -> ascii) (s : string) : string :=
  match s with
  | EmptyString => EmptyString
  | String c r => String (f c) (mapString f r)
  end.

Definition toLowerCase (s : string) : string := mapString toLowerChar s.

(** The capital of the sharp s (223) is the two letters SS. *)
Fixpoint toUpperCase (s : string) : string :=
  match s with
  | EmptyString => EmptyString
  | String c r =>
      if (nat_of_ascii c =? 223)%nat
      then String "S" (String "S" (toUpperCase r))
      else String (toUpperChar c) (toUpperCase r)
  end.

(** [s.replace(/[...]/g, '')] for a character class given as a predicate. *)
Fixpoint removeChars (p : ascii -> bool) (s : string) : string :=
  match s with
  | EmptyString => EmptyString
  | String c r => if p c then removeChars p r else String c (removeChars p r)
  end.

(** The class [[\s,\-_]]. *)
Definition isMiscellaneous (c : ascii) : bool :=
  isSpace c || Ascii.eqb c "," || Ascii.eqb c "-" || Ascii.eqb c "_".

Fixpoint trimStart (s : string) : string :=
  match s with
  | EmptyString => EmptyString
  | String c r => if isSpace c then trimStart r else s
  end.

(** Removal of the trailing white space: a character stays when something
    stays behind it or when it is not white space. *)
Fixpoint trimEnd (s : string) : string :=
  match s with
  | EmptyString => EmptyString
  | String c r =>
      match trimEnd r with
      | EmptyString => if isSpace c then EmptyString else String c EmptyString
      | kept => String c kept
      end
  end.

Definition trim (s : string) : string := trimEnd (trimStart s).

(** [s.replace(/\s\s+/g, " ")]: every maximal run of two or more white
    space characters becomes one blank; [inRun] is set while the rest of a
    replaced run is being skipped. *)
Fixpoint collapseFrom (inRun : bool) (s : string) : string :=
  match s with
  | EmptyString => EmptyString
  | String c r =>
      if isSpace c then
        if inRun then collapseFrom true r
        else
          match r with
          | String d _ =>
              if isSpace d then String " " (collapseFrom true r)
              else String c (collapseFrom false r)
          | EmptyString => String c EmptyString
          end
      else String c (collapseFrom false r)
  end.

Definition collapseSpaces (s : string) : string := collapseFrom false s.

(** [s.replace(/\s+/g, " ")]: every maximal run of white space becomes
    one blank. *)
Fixpoint squeezeFrom (inRun : bool) (s : string) : string :=
  match s with
  | EmptyString => EmptyString
  | String c r =>
      if isSpace c then
        if inRun then squeezeFrom true r else String " " (squeezeFrom true r)
      else String c (squeezeFrom false r)
  end.

Definition squeezeSpaces (s : string) : string := squeezeFrom false s.

(** [s.replace(/^:/, '')] *)
Definition dropLeadingColon (s : string) : string :=
  match s with
  | String c r => if Ascii.eqb c ":" then r else s
  | EmptyString => EmptyString
  end.

Definition charAt0 (s : string) : string :=
  match s with
  | String c _ => String c EmptyString
  | EmptyString => EmptyString
  end.

Definition startsWith (s prefix : string) : bool := String.prefix prefix s.

(** [texts.join('')] *)
Definition join (texts : list string) : string := String.concat EmptyString texts.

Definition strlen (s : string) : Z := Z.of_nat (String.length s).

(** ** Approximate matching (package didyoumean2)

    [didYouMean] is called with one candidate and the options
    [caseSensitive: false], [returnType: FIRST_CLOSEST_MATCH],
    [thresholdType: EDIT_DISTANCE], [trimSpaces: true].  The package
    normalises both strings, computes their Levenshtein distance and
    returns the first closest candidate whose distance is at most the
    threshold, or [null].  The package can fold letters with diacritics to
    plain letters before it measures (its option [deburr], which the
    caller leaves at its default); that step is not modelled.  It acts on
    code units from 192 on only, and the statements about ranks are made
    for text without them ([plain]). *)

(** The Levenshtein distance by its defining recurrence. *)
Fixpoint editDistance (a b : string) : nat :=
  match a with
  | EmptyString => String.length b
  | String ca a' =>
      (fix against (b : string) : nat :=
         match b with
         | EmptyString => String.length a
         | String cb b' =>
             Nat.min (Nat.min (S (editDistance a' b)) (S (against b')))
                     (editDistance a' b' + if Ascii.eqb ca cb then 0 else 1)
         end) b
  end.

(** One row of the dynamic programme: [previous] holds the distances from
    the rest of the first string to every suffix of [b]; the result holds
    those from the whole first string, whose length is [la]. *)
Fixpoint levenRow (ca : ascii) (la : nat) (b : string) (previous : list nat)
  : list nat :=
  match b, previous with
  | String cb b', up :: previous' =>
      let rest := levenRow ca la b' previous' in
      let left := hd O rest in
      let diagonal := hd O previous' in
      Nat.min (Nat.min (S up) (S left))
              (diagonal + if Ascii.eqb ca cb then 0 else 1) :: rest
  | _, _ => [la]
  end.

Fixpoint suffixLengths (b : string) : list nat :=
  match b with
  | EmptyString => [O]
  | String _ b' => String.length b :: suffixLengths b'
  end.

Fixpoint levenRows (a b : string) : list nat :=
  match a with
  | EmptyString => suffixLengths b
  | String ca a' => levenRow ca (String.length a) b (levenRows a' b)
  end.

Definition leven (a b : string) : nat := hd O (levenRows a b).

Definition normalizeString (s : string) : string :=
  toLowerCase (squeezeSpaces (trim s)).

(** The first candidate at the least distance, with that distance. *)
Definition firstClosest (input : string) (matchList : list string)
  : option (string * nat) :=
  fold_left
    (fun best candidate =>
       let distance := leven input (normalizeString candidate) in
       match best with
       | Some (_, d) => if (distance <? d)%nat then Some (candidate, distance) else best
       | None => Some (candidate, distance)
       end)
    matchList None.

Definition didYouMean (input : string) (matchList : list string) (threshold : nat)
  : option string :=
  match firstClosest (normalizeString input) matchList with
  | Some (candidate, distance) =>
      if (distance <=? threshold)%nat then Some candidate else None
  | None => None
  end.

Open Scope list_scope.

Definition isDefined {A : Type} (o : option A) : bool :=
  match o with
  | Some _ => true
  | None => false
  end.

(** ** Sorting

    [Array.prototype.sort] is stable.  It is modelled by insertion sort,
    which for a comparator that is a total preorder (the line and anchor
    comparators) yields the one stable result.  The cell and element
    comparators decide row membership by the tolerance and are not
    transitive across rows closer than the tolerance; on such input the
    order that the JavaScript engine produces is its own.  No statement
    below rests on the order of such a sort, except where a hypothesis
    makes the comparator a total order on the data that are sorted
    ([latticeAligned]), so that every sort gives the same list. *)

Fixpoint insertBy {A : Type} (comparer : A -> A -> Z) (a : A) (l : list A)
  : list A :=
  match l with
  | [] => [a]
  | b :: l' => if (comparer a b <=? 0)%Z then a :: l else b :: insertBy comparer a l'
  end.

Fixpoint sortBy {A : Type} (comparer : A -> A -> Z) (l : list A) : list A :=
  match l with
  | [] => []
  | a :: l' => insertBy comparer a (sortBy comparer l')
  end.

(** ** Section segmenter: anchors *)

(** The initial [closestElement] of [getRightElement], whose [text] is
    [undefined]. *)
Definition farAway : Rectangle := mkRectangle MAX_VALUE MAX_VALUE 0 0.

Definition closestBounds (closestElement : option Element) : Rectangle :=
  match closestElement with
  | Some element => bounds element
  | None => farAway
  end.

Definition getRightElement (elements : list Element) (element : Element)
  : option Element :=
  fold_left
    (fun closestElement (rightElement : Element) =>
       if isVerticalOverlap element rightElement
          && Qgtb (getVerticalOverlapPercentage element rightElement) 50
          && Qgtb (x rightElement) (x element + width element - Tolerance)
          && Qltb (x rightElement - (x element + width element)) 30
          && Qltb (calculateDistance element rightElement)
                  (calculateDistance element (closestBounds closestElement))
       then Some rightElement
       else closestElement)
    elements None.

(** A recorded match.  [findStartElements] keeps the [element] that ended
    the chain, [findTextBounds] the whole chain [elements]; the record
    carries both. *)
Record Match : Type :=
  mkMatch { matchElement : Element; matchElements : list Element;
            threshold : nat; matchText : string }.

(** [rightElements.map(element => element.text).join('')
      .replace(/[\s,\-_]/g, '').toLowerCase()] *)
Definition condense (s : string) : string :=
  toLowerCase (removeChars isMiscellaneous s).

Definition condensedTextOf (rightElements : list Element) : string :=
  condense (join (map text rightElements)).

(** The three-way test of the loop body: [exact] is the lower-case target
    the text is compared with, [candidate] the string handed to
    [didYouMean]. *)
Definition rankText (currentText exact candidate : string) : option nat :=
  if String.eqb currentText exact then Some 0%nat
  else if isDefined (didYouMean currentText [candidate] 1) then Some 1%nat
  else if isDefined (didYouMean currentText [candidate] 2) then Some 2%nat
  else None.

(** What one pass of the loop body does with the chain [rightElements]
    (already holding the newest element): [None] when the text is too long
    and the loop is left, otherwise the matches to append. *)
Definition considerChain (rightElement : Element) (rightElements : list Element)
  (exact candidate : string) : option (list Match) :=
  let currentText := condensedTextOf rightElements in
  if (strlen currentText >? strlen candidate + 2)%Z then None
  else if (strlen currentText >=? strlen candidate - 2)%Z then
    match rankText currentText exact candidate with
    | Some rank => Some [mkMatch rightElement rightElements rank currentText]
    | None => Some []
    end
  else Some [].

(** The [do ... while] loop shared by [findStartElements] and
    [findTextBounds]; five units of [fuel] cover its five passes. *)
Fixpoint collectMatches (fuel : nat) (elements : list Element)
  (exact candidate : string) (rightElement : Element)
  (rightElements : list Element) (matches : list Match) : list Match :=
  match fuel with
  | O => matches
  | S fuel' =>
      let rightElements := rightElements ++ [rightElement] in
      match considerChain rightElement rightElements exact candidate with
      | None => matches
      | Some found =>
          let matches := matches ++ found in
          match getRightElement elements rightElement with
          | Some next =>
              if (List.length rightElements <? 5)%nat
              then collectMatches fuel' elements exact candidate next
                                  rightElements matches
              else matches
          | None => matches
          end
      end
  end.

(** [matches.reduce(...)]: the least threshold, ties going to the text
    whose trimmed length is nearest [targetLength]. *)
Definition bestMatchOf (targetLength : Z) (matches : list Match) : option Match :=
  fold_left
    (fun previous current =>
       match previous with
       | None => Some current
       | Some p =>
           if (threshold current <? threshold p)%nat
              || ((threshold current =? threshold p)%nat
                  && (Z.abs (strlen (trim (matchText current)) - targetLength)
                      <? Z.abs (strlen (trim (matchText p)) - targetLength))%Z)
           then Some current
           else previous
       end)
    matches None.

Definition FindText : string := "APPLICATIONNO:".

Definition yComparer (a b : Element) : Z :=
  if Qgtb (y a) (y b) then 1%Z else if Qltb (y a) (y b) then (-1)%Z else 0%Z.

(** The matches recorded for one candidate first element. *)
Definition startMatches (elements : list Element) (element : Element) : list Match :=
  collectMatches 5 elements (toLowerCase FindText) FindText element [] [].

Definition findStartElements (elements : list Element) : list Element :=
  let startElements :=
    flat_map
      (fun element =>
         match bestMatchOf (strlen FindText) (startMatches elements element) with
         | Some bestMatch => [matchElement bestMatch]
         | None => []
         end)
      (filter (fun element : Element =>
                 startsWith (toLowerCase (trim (text element)))
                            (toLowerCase (charAt0 FindText)))
              elements) in
  sortBy yComparer startElements.

Definition unionAll (matched : list Element) : option Rectangle :=
  fold_left
    (fun rectangle (element : Element) =>
       match rectangle with
       | None => Some (bounds element)
       | Some r => Some (union r element)
       end)
    matched None.

Definition findTextBounds (elements : list Element) (searchText : string)
  : option Rectangle :=
  let condensedText := condense searchText in
  let firstCharacter := charAt0 condensedText in
  let matches :=
    fold_left
      (fun matches element =>
         collectMatches 5 elements condensedText condensedText element [] matches)
      (filter (fun element : Element =>
                 startsWith (toLowerCase (trim (text element))) firstCharacter)
              elements)
      [] in
  match bestMatchOf (strlen condensedText) matches with
  | Some bestMatch => unionAll (matchElements bestMatch)
  | None => None
  end.

(** ** Grid reconstructor ([parseCells], from the line candidates on) *)

(** The classification loop: horizontal and vertical lines in input order. *)
Definition isHorizontal (line : Rectangle) : bool :=
  Qleb (height line) Tolerance && Qgeb (width line) 10.

Definition isVertical (line : Rectangle) : bool :=
  negb (isHorizontal line) && Qleb (width line) Tolerance && Qgeb (height line) 10.

Definition horizontalLine (line : Rectangle) : Line :=
  mkLine (x line) (y line) (x line + width line) (y line).

Definition verticalLine (line : Rectangle) : Line :=
  mkLine (x line) (y line) (x line) (y line + height line).

Definition horizontalLinesOf (lines : list Rectangle) : list Line :=
  map horizontalLine (filter isHorizontal lines).

Definition verticalLinesOf (lines : list Rectangle) : list Line :=
  map verticalLine (filter isVertical lines).

Definition horizontalLineComparer (a b : Line) : Z :=
  if Qgtb (y1 a) (y1 b) then 1%Z else if Qltb (y1 a) (y1 b) then (-1)%Z else 0%Z.

Definition verticalLineComparer (a b : Line) : Z :=
  if Qgtb (x1 a) (x1 b) then 1%Z else if Qltb (x1 a) (x1 b) then (-1)%Z else 0%Z.

(** [(ax - bx) ** 2 + (ay - by) ** 2 < Tolerance ** 2] *)
Definition within (ax ay bx by_ : Q) : bool :=
  Qltb (sq (ax - bx) + sq (ay - by_)) (sq Tolerance).

(** [if (!points.some(point => ...)) points.push(candidate)] *)
Definition addPoint (points : list Point) (candidate : Point) : list Point :=
  if existsb (fun point => within (px candidate) (py candidate) (px point) (py point))
             points
  then points
  else points ++ [candidate].

(** The body of the double loop over the sorted lines. *)
Definition joinLines (points : list Point) (horizontal vertical : Line)
  : list Point :=
  let intersectionPoint := intersectLines horizontal vertical true in
  let haveSharedPoints :=
    within (x1 vertical) (y1 vertical) (x1 horizontal) (y1 horizontal)
    || within (x1 vertical) (y1 vertical) (x2 horizontal) (y2 horizontal)
    || within (x2 vertical) (y2 vertical) (x1 horizontal) (y1 horizontal)
    || within (x2 vertical) (y2 vertical) (x2 horizontal) (y2 horizontal) in
  let points :=
    match intersectionPoint with
    | Some p => addPoint points p
    | None => points
    end in
  if haveSharedPoints || isDefined intersectionPoint then
    let points := addPoint points (mkPoint (x1 horizontal) (y1 horizontal)) in
    let points := addPoint points (mkPoint (x2 horizontal) (y2 horizontal)) in
    let points := addPoint points (mkPoint (x1 vertical) (y1 vertical)) in
    addPoint points (mkPoint (x2 vertical) (y2 vertical))
  else points.

Definition findPoints (horizontalLines verticalLines : list Line) : list Point :=
  fold_left
    (fun points horizontal =>
       fold_left (fun points vertical => joinLines points horizontal vertical)
                 verticalLines points)
    horizontalLines [].

Definition closestRightPoint (points : list Point) (point : Point) : option Point :=
  fold_left
    (fun previous current =>
       if Qltb (Math_abs (py current - py point)) Tolerance
          && Qgtb (px current) (px point)
          && match previous with
             | None => true
             | Some p => Qltb (px current - px point) (px p - px point)
             end
       then Some current
       else previous)
    points None.

Definition closestDownPoint (points : list Point) (point : Point) : option Point :=
  fold_left
    (fun previous current =>
       if Qltb (Math_abs (px current - px point)) Tolerance
          && Qgtb (py current) (py point)
          && match previous with
             | None => true
             | Some p => Qltb (py current - py point) (py p - py point)
             end
       then Some current
       else previous)
    points None.

Definition constructCells (points : list Point) : list Cell :=
  flat_map
    (fun point =>
       match closestRightPoint points point, closestDownPoint points point with
       | Some rightPoint, Some downPoint =>
           [mkCell (mkRectangle (px point) (py point)
                                (px rightPoint - px point)
                                (py downPoint - py point)) []]
       | _, _ => []
       end)
    points.

Definition rowComparer (a b : Rectangle) : Z :=
  if Qltb (Math_abs (y a - y b)) Tolerance
  then if Qgtb (x a) (x b) then 1%Z else if Qltb (x a) (x b) then (-1)%Z else 0%Z
  else if Qgtb (y a) (y b) then 1%Z else (-1)%Z.

Definition cellComparer (a b : Cell) : Z := rowComparer a b.
Definition elementComparer (a b : Element) : Z := rowComparer a b.

Definition parseCells (lines : list Rectangle) : list Cell :=
  let horizontalLines := sortBy horizontalLineComparer (horizontalLinesOf lines) in
  let verticalLines := sortBy verticalLineComparer (verticalLinesOf lines) in
  let points := findPoints horizontalLines verticalLines in
  sortBy cellComparer (constructCells points).

(** ** Text normalizer: page transforms and ownership *)

Definition invertY (r : Rectangle) : Rectangle :=
  mkRectangle (x r) (- (y r + height r)) (width r) (height r).

(** [rotate90Clockwise(element)] followed by the adjustment
    [[ y, width, height ] = [ y - width, height, width ]]. *)
Definition rotateElement (r : Rectangle) : Rectangle :=
  let r := rotate90Clockwise r in
  mkRectangle (x r) (y r - width r) (height r) (width r).

Definition mapCell (f : Rectangle -> Rectangle) (cell : Cell) : Cell :=
  mkCell (f cell) (elements cell).

Definition mapElement (f : Rectangle -> Rectangle) (element : Element) : Element :=
  mkElement (text element) (f element).

(** [cells.find(cell => getPercentageOfElementInCell(element, cell) > 50)]
    followed by [ownerCell.elements.push(element)]. *)
Fixpoint assignOwner (element : Element) (cells : list Cell) : list Cell :=
  match cells with
  | [] => []
  | cell :: rest =>
      if Qgtb (getPercentageOfElementInCell element cell) 50
      then mkCell (cellBounds cell) (elements cell ++ [element]) :: rest
      else cell :: assignOwner element rest
  end.

Definition allocateElements (pageElements : list Element) (cells : list Cell)
  : list Cell :=
  fold_left (fun cells element => assignOwner element cells) pageElements cells.

(** ** Section segmenter: windows *)

Record ElementGroup : Type :=
  mkGroup { startElement : Element;
            groupElements : list Element;
            groupCells : list Cell }.

Definition raise (startElement : Element) : Element :=
  mkElement (text startElement)
            (mkRectangle (x startElement)
                         (y startElement - height startElement / 2)
                         (width startElement) (height startElement)).

Definition inWindow (rowTop nextRowTop : Q) (r : Rectangle) : bool :=
  Qgeb (y r) rowTop && Qltb (y r + height r) nextRowTop.

(** The loop over [startElements]; [startElements[index + 1]] is the head
    of the remaining anchors. *)
Fixpoint groupSections (pageElements : list Element) (cells : list Cell)
  (startElements : list Element) : list ElementGroup :=
  match startElements with
  | [] => []
  | start :: later =>
      let raisedStartElement := raise start in
      let rowTop := getRowTop pageElements raisedStartElement in
      let nextRowTop :=
        match later with
        | next :: _ => getRowTop pageElements next
        | [] => MAX_VALUE
        end in
      mkGroup start
              (filter (fun element : Element => inWindow rowTop nextRowTop element)
                      pageElements)
              (filter (fun cell : Cell => inWindow rowTop nextRowTop cell) cells)
      :: groupSections pageElements cells later
  end.

(** ** Outcomes

    A call either returns a value or raises the [TypeError] of reading
    [.elements] of [undefined]; nothing in the source catches it. *)

Inductive Outcome (A : Type) : Type :=
| Returned (a : A)
| Threw.

Arguments Returned {A} a.
Arguments Threw {A}.

Definition bind {A B : Type} (m : Outcome A) (f : A -> Outcome B) : Outcome B :=
  match m with
  | Returned a => f a
  | Threw => Threw
  end.

Notation "'do' a <- m ; k" := (bind m (fun a => k))
  (at level 10, a name, m at level 100, k at level 200).

(** ** Field extractor *)

Record DevelopmentApplication : Type :=
  mkApplication { applicationNumber : string;
                  address : string;
                  description : string;
                  informationUrl : string;
                  commentUrl : string;
                  scrapeDate : string;
                  receivedDate : string }.

Definition CommentUrl : string := "mailto:admin@wudinna.sa.gov.au".

Definition NoDescription : string := "NO DESCRIPTION PROVIDED".

(** [cell.elements.map(element => element.text).join('')] *)
Definition cellText (cell : Cell) : string := join (map text (elements cell)).

(** [cells.find(cell => ....replace(/\s/g, '').toUpperCase() === heading)] *)
Definition findHeadingCell (cells : list Cell) (heading : string) : option Cell :=
  find (fun cell => String.eqb (toUpperCase (removeChars isSpace (cellText cell)))
                               heading)
       cells.

(** The cell whose top left corner is within the tolerance of the top
    right corner of [headingCell]. *)
Definition findRightCell (cells : list Cell) (headingCell : Cell) : option Cell :=
  find (fun cell : Cell =>
          Qltb (sq (x headingCell + width headingCell - x cell)
                + sq (y headingCell - y cell))
               (sq Tolerance))
       cells.

(** [found.elements]: a [TypeError] when [found] is [undefined]. *)
Definition elementsOf (found : option Cell) : Outcome (list Element) :=
  match found with
  | Some cell => Returned (elements cell)
  | None => Threw
  end.

Definition applicationNumberOf (pageElements : list Element)
  (applicationNumberHeadingBounds : Rectangle) : string :=
  let applicationNumberBounds :=
    mkRectangle (x applicationNumberHeadingBounds
                 + width applicationNumberHeadingBounds)
                (y applicationNumberHeadingBounds)
                MAX_VALUE
                (height applicationNumberHeadingBounds) in
  dropLeadingColon
    (removeChars isSpace
       (join (map text
                (filter (fun element : Element =>
                           Qgtb (getPercentageOfElementInRectangle
                                   element applicationNumberBounds) 10)
                        pageElements)))).

(** The value of the local [description] once its block has run. *)
Definition descriptionOf (cells : list Cell) : Outcome string :=
  match findHeadingCell cells "DESCRIPTION:" with
  | Some descriptionHeadingCell =>
      do found <- elementsOf (findRightCell cells descriptionHeadingCell);
      Returned (collapseSpaces (trim (join (map text found))))
  | None => Returned EmptyString
  end.

(** The value of the local [address], when its heading cell exists. *)
Definition addressOf (cells : list Cell) (developmentAddressHeadingCell : Cell)
  : Outcome string :=
  do found <- elementsOf (findRightCell cells developmentAddressHeadingCell);
  Returned (collapseSpaces (trim (join (map text found)))).

Section FieldExtractor.

(** The package moment: [momentStrict s] is
    [moment(s, [ "D/M/YYYY", "D/M/YY" ], true)] formatted as
    [YYYY-MM-DD] when it is valid, and [today] is
    [moment().format("YYYY-MM-DD")]. *)
Variable momentStrict : string -> option string.
Variable today : string.

Definition receivedDateOf (cells : list Cell) : Outcome (option string) :=
  match findHeadingCell cells "DATELODGED:" with
  | Some dateLodgedHeadingCell =>
      do found <- elementsOf (findRightCell cells dateLodgedHeadingCell);
      Returned (momentStrict (removeChars isSpace (join (map text found))))
  | None => Returned None
  end.

Definition parseApplicationElements (pageElements : list Element)
  (cells : list Cell) (url : string)
  : Outcome (option DevelopmentApplication) :=
  let applicationNumberHeadingBounds :=
    findTextBounds pageElements "APPLICATION NO:" in
  let developmentAddressHeadingCell :=
    findHeadingCell cells "DEVELOPMENTADDRESS:" in
  match applicationNumberHeadingBounds with
  | None => Returned None
  | Some headingBounds =>
      let number := applicationNumberOf pageElements headingBounds in
      if String.eqb number EmptyString then Returned None
      else
        do descriptionText <- descriptionOf cells;
        do received <- receivedDateOf cells;
        match developmentAddressHeadingCell with
        | None => Returned None
        | Some headingCell =>
            do addressText <- addressOf cells headingCell;
            if String.eqb addressText EmptyString then Returned None
            else
              Returned
                (Some (mkApplication
                         number
                         addressText
                         (if negb (String.eqb (trim descriptionText) EmptyString)
                          then descriptionText else NoDescription)
                         url
                         CommentUrl
                         today
                         (match received with
                          | Some formatted => formatted
                          | None => EmptyString
                          end)))
        end
  end.

(** ** The page loop of [parsePdf] *)

(** A decoded page: the filled rectangles that the operator walk of
    [parseCells] collects, the elements that [parseElements] returns, and
    the page's rotation in degrees. *)
Record Page : Type :=
  mkPage { pageLines : list Rectangle;
           pageText : list Element;
           rotate : Z }.

(** The cells and elements of a page after inversion, rotation and
    sorting. *)
Definition normalizedCells (page : Page) : list Cell :=
  let cells := map (mapCell invertY) (parseCells (pageLines page)) in
  let cells :=
    if (rotate page =? 90)%Z then map (mapCell rotate90Clockwise) cells
    else cells in
  sortBy cellComparer cells.

Definition normalizedElements (page : Page) : list Element :=
  let pageElements := map (mapElement invertY) (pageText page) in
  let pageElements :=
    if (rotate page =? 90)%Z then map (mapElement rotateElement) pageElements
    else pageElements in
  sortBy elementComparer pageElements.

Definition pageGroups (page : Page) : list ElementGroup :=
  let pageElements := normalizedElements page in
  let cells := allocateElements pageElements (normalizedCells page) in
  groupSections pageElements cells (findStartElements pageElements).

(** The loop over the groups of one page, threading the document's
    [developmentApplications]. *)
Fixpoint parseGroups (url : string) (groups : list ElementGroup)
  (developmentApplications : list DevelopmentApplication)
  : Outcome (list DevelopmentApplication) :=
  match groups with
  | [] => Returned developmentApplications
  | group :: later =>
      do parsed <- parseApplicationElements (groupElements group)
                                            (groupCells group) url;
      match parsed with
      | Some developmentApplication =>
          if existsb
               (fun other =>
                  String.eqb (applicationNumber other)
                             (applicationNumber developmentApplication))
               developmentApplications
          then parseGroups url later developmentApplications
          else parseGroups url later
                 (developmentApplications ++ [developmentApplication])
      | None => parseGroups url later developmentApplications
      end
  end.

Fixpoint parsePages (url : string) (pages : list Page)
  (developmentApplications : list DevelopmentApplication)
  : Outcome (list DevelopmentApplication) :=
  match pages with
  | [] => Returned developmentApplications
  | page :: later =>
      do developmentApplications <-
        parseGroups url (pageGroups page) developmentApplications;
      parsePages url later developmentApplications
  end.

(** At most 500 pages are read. *)
Definition parsePdf (url : string) (pages : list Page)
  : Outcome (list DevelopmentApplication) :=
  parsePages url (firstn 500 pages) [].

End FieldExtractor.

(** ** Vocabulary of the properties *)

(** [p] lies in the closed region of [r]. *)
Definition contains (r : Rectangle) (p : Point) : Prop :=
  x r <= px p /\ px p <= x r + width r /\ y r <= py p /\ py p <= y r + height r.

Definition covers (outer inner : Rectangle) : Prop :=
  forall p, contains inner p -> contains outer p.

Definition wellFormed (r : Rectangle) : Prop := 0 <= width r /\ 0 <= height r.

(** [u] is the smallest axis-aligned rectangle covering [r1] and [r2]. *)
Definition smallestCover (u r1 r2 : Rectangle) : Prop :=
  covers u r1 /\ covers u r2
  /\ forall r, wellFormed r -> covers r r1 -> covers r r2 -> covers r u.

Definition zeroLength (l : Line) : Prop := x1 l == x2 l /\ y1 l == y2 l.

(** The direction vectors of the two lines are linearly dependent. *)
Definition parallel (l1 l2 : Line) : Prop :=
  (x2 l1 - x1 l1) * (y2 l2 - y1 l2) == (y2 l1 - y1 l1) * (x2 l2 - x1 l2).

(** ** Sample inputs *)

Definition upperBox : Rectangle := mkRectangle 0 0 5 5.
Definition lowerBox : Rectangle := mkRectangle 0 10 5 5.

Definition shortDiagonal : Line := mkLine 0 0 2 2.
Definition longDiagonal : Line := mkLine 1 0 7 6.

(** The suffixes of a string, longest first. *)
Fixpoint suffixes (b : string) : list string :=
  match b with
  | EmptyString => [EmptyString]
  | String _ b' => b :: suffixes b'
  end.

Fixpoint everyChar (p : ascii -> bool) (s : string) : bool :=
  match s with
  | EmptyString => true
  | String c r => p c && everyChar p r
  end.

Definition notSpace (c : ascii) : bool := negb (isSpace c).

(** [s.trim() === ''] *)
Definition isBlank (s : string) : bool := String.eqb (trim s) EmptyString.

(** What the loop body must record for a chain whose condensed text is
    compared with [label]: rank 0 on equality, rank 1 and 2 at those edit
    distances, and nothing from distance 3 on. *)
Definition rankedByDistance (rightElement : Element) (chain : list Element)
  (label : string) (outcome : option (list Match)) : Prop :=
  let currentText := condensedTextOf chain in
  (currentText = label ->
   outcome = Some [mkMatch rightElement chain 0 currentText])
  /\ (editDistance currentText label = 1%nat ->
      outcome = Some [mkMatch rightElement chain 1 currentText])
  /\ (editDistance currentText label = 2%nat ->
      outcome = Some [mkMatch rightElement chain 2 currentText])
  /\ ((3 <= editDistance currentText label)%nat ->
      outcome = None \/ outcome = Some []).

(** Where a record of the document comes from: a section of one of its
    pages for which the field extractor returned it. *)
Definition extractedFrom (momentStrict : string -> option string) (today : string)
  (url : string) (pages : list Page) (app : DevelopmentApplication) : Prop :=
  exists page group,
    In page pages /\ In group (pageGroups page)
    /\ parseApplicationElements momentStrict today
         (groupElements group) (groupCells group) url
       = Returned (Some app).

(** The position of the first cell, in scan order, that holds more than
    half of the element. *)
Fixpoint ownerIndex (element : Element) (cells : list Cell) : option nat :=
  match cells with
  | [] => None
  | cell :: rest =>
      if Qgtb (getPercentageOfElementInCell element cell) 50 then Some O
      else option_map S (ownerIndex element rest)
  end.

Definition ownedBy (i : nat) (cells : list Cell) (element : Element) : bool :=
  match ownerIndex element cells with
  | Some j => (i =? j)%nat
  | None => false
  end.

Definition textAt (t : string) (left top w h : Q) : Element :=
  mkElement t (mkRectangle left top w h).

(** The anchor label rendered exactly, with one stray character, with two
    edits and with three. *)
Definition exactAnchor : Element := textAt "APPLICATION NO:" 10 100 80 10.
Definition strayAnchor : Element := textAt "APPLICATIONNO::" 10 100 80 10.
Definition twoEditAnchor : Element := textAt "APLICATION N0:" 10 100 80 10.
Definition threeEditAnchor : Element := textAt "APLICATION N0" 10 100 80 10.

(** A page with one application: the anchor and its number, and below them
    a ruled row holding the address heading and the address. *)
Definition registerPage : Page :=
  mkPage [ mkRectangle 10 660 290 1; mkRectangle 10 680 290 1;
           mkRectangle 10 660 1 20; mkRectangle 110 660 1 20;
           mkRectangle 300 660 1 20 ]
         [ textAt "APPLICATION NO:" 10 700 80 10;
           textAt "123/45" 95 700 40 10;
           textAt "DEVELOPMENT ADDRESS:" 12 665 90 10;
           textAt "1 Main Street" 115 665 80 10 ]
         0.

(** The same page with the ruling of the value cell missing: the heading
    cell has no cell to its right. *)
Definition brokenPage : Page :=
  mkPage [ mkRectangle 10 660 100 1; mkRectangle 10 680 100 1;
           mkRectangle 10 660 1 20; mkRectangle 110 660 1 20 ]
         [ textAt "APPLICATION NO:" 10 700 80 10;
           textAt "123/45" 95 700 40 10;
           textAt "DEVELOPMENT ADDRESS:" 12 665 90 10 ]
         0.

(** A stand-in for the date parser on pages without a lodgement date. *)
Definition noDate (s : string) : option string := None.

Definition registerApplication : DevelopmentApplication :=
  mkApplication "123/45" "1 Main Street" NoDescription "register.pdf"
                CommentUrl "2019-03-21" EmptyString.

(** The window of each anchor as the loop of [parsePdf] computes it: the
    row top of the raised anchor, and the row top of the next anchor as it
    stands (or [MAX_VALUE] after the last one). *)
Fixpoint windowsOf (pageElements startElements : list Element) : list (Q * Q) :=
  match startElements with
  | [] => []
  | start :: later =>
      (getRowTop pageElements (raise start),
       match later with
       | next :: _ => getRowTop pageElements next
       | [] => MAX_VALUE
       end)
      :: windowsOf pageElements later
  end.

Definition sectionWindows (page : Page) : list (Q * Q) :=
  windowsOf (normalizedElements page)
            (findStartElements (normalizedElements page)).

(** Every element whose top lies in the window of a section is in that
    section. *)
Definition topInWindowIsMember (page : Page) : Prop :=
  forall i group window e,
    nth_error (pageGroups page) i = Some group ->
    nth_error (sectionWindows page) i = Some window ->
    In e (normalizedElements page) ->
    fst window <= y e -> y e < snd window ->
    In e (groupElements group).

(** No element is in two sections. *)
Definition sectionsDisjoint (page : Page) : Prop :=
  forall i j gi gj e,
    i <> j ->
    nth_error (pageGroups page) i = Some gi ->
    nth_error (pageGroups page) j = Some gj ->
    In e (groupElements gi) -> ~ In e (groupElements gj).

Definition sectionsPartitionByTop (page : Page) : Prop :=
  topInWindowIsMember page /\ sectionsDisjoint page.

(** Two applications on one page, a tall element that starts in the first
    window and ends inside the second, and a small element just above the
    second anchor. *)
Definition twoAnchorPage : Page :=
  mkPage []
         [ textAt "APPLICATION NO:" 10 690 80 10; textAt "1/19" 95 690 30 10;
           textAt "tall" 200 590 40 60; textAt "leeway" 200 602 10 2;
           textAt "APPLICATION NO:" 10 590 80 10; textAt "2/19" 95 590 30 10 ]
         0.

Definition tallElement : Element := textAt "tall" 200 (-650) 40 60.
Definition leewayElement : Element := textAt "leeway" 200 (-604) 10 2.

Definition firstSection : ElementGroup :=
  mkGroup (textAt "APPLICATION NO:" 10 (-700) 80 10)
          [ textAt "APPLICATION NO:" 10 (-700) 80 10;
            textAt "1/19" 95 (-700) 30 10; leewayElement ]
          [].

Definition secondSection : ElementGroup :=
  mkGroup (textAt "APPLICATION NO:" 10 (-600) 80 10)
          [ leewayElement; textAt "APPLICATION NO:" 10 (-600) 80 10;
            textAt "2/19" 95 (-600) 30 10 ]
          [].

(** ** Vocabulary of the grid properties *)

(** The three-way comparison of two keys, as the line comparers write it. *)
Definition keyComparer {A : Type} (key : A -> Q) (a b : A) : Z :=
  if Qgtb (key a) (key b) then 1%Z
  else if Qltb (key a) (key b) then (-1)%Z else 0%Z.

Definition keyLt {A : Type} (key : A -> Q) (a b : A) : Prop := key a < key b.

Definition sameKey {A : Type} (key : A -> Q) (a b : A) : Prop := key a == key b.

(** No two of the numbers are equal. *)
Fixpoint pairwiseDistinct (keys : list Q) : bool :=
  match keys with
  | [] => true
  | k :: rest => negb (existsb (Qeq_bool k) rest) && pairwiseDistinct rest
  end.

(** No two horizontal candidates lie at the same height and no two
    vertical candidates at the same abscissa. *)
Definition distinctRulings (lines : list Rectangle) : bool :=
  pairwiseDistinct (map y1 (horizontalLinesOf lines))
  && pairwiseDistinct (map x1 (verticalLinesOf lines)).

Definition sameRectangle (r1 r2 : Rectangle) : Prop :=
  x r1 == x r2 /\ y r1 == y r2 /\ width r1 == width r2 /\ height r1 == height r2.

(** The two cell lists hold the same rectangles in the same order. *)
Definition sameCells (cells1 cells2 : list Cell) : Prop :=
  Forall2 (fun c1 c2 : Cell => sameRectangle c1 c2) cells1 cells2.

(** Grid reconstruction does not depend on the order of the candidates. *)
Definition orderIndependent (lines : list Rectangle) : Prop :=
  forall lines', Permutation lines lines' ->
                 sameCells (parseCells lines) (parseCells lines').

(** A box whose top rule is drawn twice, the second time one unit to the
    right. *)
Definition skewedBox : list Rectangle :=
  [ mkRectangle 0 0 100 1; mkRectangle 1 0 100 1; mkRectangle 0 50 100 1;
    mkRectangle 0 0 1 50; mkRectangle 100 0 1 50 ].

Definition skewedBoxSwapped : list Rectangle :=
  [ mkRectangle 1 0 100 1; mkRectangle 0 0 100 1; mkRectangle 0 50 100 1;
    mkRectangle 0 0 1 50; mkRectangle 100 0 1 50 ].

(** ** Ruled grids *)

(** The [i]-th of evenly spaced coordinates. *)
Definition coordinate (origin step : Q) (i : nat) : Q :=
  origin + inject_Z (Z.of_nat i) * step.

(** A ruled grid: [gridRows] horizontal and [gridColumns] vertical rules,
    evenly spaced, each spanning the whole grid. *)
Record GridSpec : Type :=
  mkGridSpec { gridRows : nat;
               gridColumns : nat;
               gridLeft : Q;
               gridTop : Q;
               columnStep : Q;
               rowStep : Q;
               ruleThickness : Q }.

Definition gridWidth (g : GridSpec) : Q :=
  inject_Z (Z.of_nat (gridColumns g - 1)) * columnStep g.

Definition gridHeight (g : GridSpec) : Q :=
  inject_Z (Z.of_nat (gridRows g - 1)) * rowStep g.

Definition horizontalRule (g : GridSpec) (i : nat) : Rectangle :=
  mkRectangle (gridLeft g) (coordinate (gridTop g) (rowStep g) i)
              (gridWidth g) (ruleThickness g).

Definition verticalRule (g : GridSpec) (j : nat) : Rectangle :=
  mkRectangle (coordinate (gridLeft g) (columnStep g) j) (gridTop g)
              (ruleThickness g) (gridHeight g).

Definition ruledGrid (g : GridSpec) : list Rectangle :=
  map (horizontalRule g) (seq 0 (gridRows g))
  ++ map (verticalRule g) (seq 0 (gridColumns g)).

(** At least two rules each way, spacing above the tolerance, rules at
    least 10 long and no thicker than the tolerance. *)
Definition regularGrid (g : GridSpec) : bool :=
  (2 <=? gridRows g)%nat && (2 <=? gridColumns g)%nat
  && Qltb Tolerance (columnStep g) && Qltb Tolerance (rowStep g)
  && Qleb 10 (gridWidth g) && Qleb 10 (gridHeight g)
  && Qleb (ruleThickness g) Tolerance.

Definition latticePoint (g : GridSpec) (ij : nat * nat) : Point :=
  mkPoint (coordinate (gridLeft g) (columnStep g) (snd ij))
          (coordinate (gridTop g) (rowStep g) (fst ij)).

(** Numerically equal points. *)
Definition samePoint (p q : Point) : Prop := px p == px q /\ py p == py q.

Definition samePointb (p q : Point) : bool :=
  Qeq_bool (px p) (px q) && Qeq_bool (py p) (py q).

Definition latticePositions (g : GridSpec) : list (nat * nat) :=
  list_prod (seq 0 (gridRows g)) (seq 0 (gridColumns g)).

(** The row and column of a point of the lattice. *)
Definition latticeIndex (g : GridSpec) (p : Point) : nat * nat :=
  match find (fun ij => samePointb p (latticePoint g ij)) (latticePositions g) with
  | Some ij => ij
  | None => (O, O)
  end.

(** The condition under which [closestRightPoint] and [closestDownPoint]
    take up a point. *)
Definition isRightOf (point current : Point) : bool :=
  Qltb (Math_abs (py current - py point)) Tolerance
  && Qgtb (px current) (px point).

Definition isBelow (point current : Point) : bool :=
  Qltb (Math_abs (px current - px point)) Tolerance
  && Qgtb (py current) (py point).

(** Three horizontal and four vertical rules, 50 by 20 apart. *)
Definition sampleGrid : GridSpec := mkGridSpec 3 4 10 600 50 20 1.

(** The lines that the rules of the grid are classified as. *)
Definition rowLine (g : GridSpec) (i : nat) : Line :=
  horizontalLine (horizontalRule g i).

Definition columnLine (g : GridSpec) (j : nat) : Line :=
  verticalLine (verticalRule g j).

Definition onLattice (g : GridSpec) (p : Point) : Prop :=
  exists i j, (i < gridRows g)%nat /\ (j < gridColumns g)%nat
              /\ samePoint p (latticePoint g (i, j)).

(** Some point of the list is the lattice point of row [i], column [j]. *)
Definition covered (g : GridSpec) (points : list Point) (i j : nat) : Prop :=
  exists q, In q points /\ samePoint q (latticePoint g (i, j)).

(** The points are pairwise different lattice points. *)
Definition latticeInvariant (g : GridSpec) (points : list Point) : Prop :=
  NoDupA samePoint points /\ Forall (onLattice g) points.

Definition gridPoints (g : GridSpec) : list Point :=
  findPoints (map (rowLine g) (seq 0 (gridRows g)))
             (map (columnLine g) (seq 0 (gridColumns g))).

(** The positions that have a right and a lower neighbour. *)
Definition innerPosition (g : GridSpec) (ij : nat * nat) : bool :=
  (S (snd ij) <? gridColumns g)%nat && (S (fst ij) <? gridRows g)%nat.

(** ** Vocabulary of further properties *)

(** The two regions share a point. *)
Definition overlapping (r1 r2 : Rectangle) : Prop :=
  exists p, contains r1 p /\ contains r2 p.

Definition zeroRectangle : Rectangle := mkRectangle 0 0 0 0.

(** The point lies on the line through the two ends of [l]. *)
Definition onLine (l : Line) (p : Point) : Prop :=
  (px p - x1 l) * (y2 l - y1 l) == (py p - y1 l) * (x2 l - x1 l).

(** The point lies in the bounding box of the segment [l]. *)
Definition inSpan (l : Line) (p : Point) : Prop :=
  Math_min (x1 l) (x2 l) <= px p /\ px p <= Math_max (x1 l) (x2 l)
  /\ Math_min (y1 l) (y2 l) <= py p /\ py p <= Math_max (y1 l) (y2 l).

(** The positional tests that [getRightElement] puts on a candidate,
    before distances are compared. *)
Definition isRightCandidate (element rightElement : Element) : bool :=
  isVerticalOverlap element rightElement
  && Qgtb (getVerticalOverlapPercentage element rightElement) 50
  && Qgtb (x rightElement) (x element + width element - Tolerance)
  && Qltb (x rightElement - (x element + width element)) 30.

(** The test that [getRowTop] puts on an element. *)
Definition isInRow (startElement : Rectangle) (element : Element) : bool :=
  Qltb (y element) (y startElement + height startElement)
  && Qgtb (y element + height element) (y startElement)
  && Qgtb (getVerticalOverlapPercentage startElement element) 50.

(** [prefix] is an initial part of [l]. *)
Definition isPrefixOf {A : Type} (prefix l : list A) : Prop :=
  exists rest, l = prefix ++ rest.

(** Two points are nearer than the tolerance. *)
Definition nearPoints (p q : Point) : bool :=
  within (px p) (py p) (px q) (py q).

(** Sample inputs. *)
Definition pageBox : Rectangle := mkRectangle 0 0 100 50.
Definition wordBox : Rectangle := mkRectangle 10 10 30 10.
Definition horizontalSegment : Line := mkLine 0 5 10 5.
Definition verticalSegment : Line := mkLine 4 0 4 20.
Definition pointSegment : Line := mkLine 1 1 1 1.
Definition anchorLine : list Element :=
  [ textAt "APPLICATION NO:" 10 100 80 10; textAt "123/45" 95 100 40 10;
    textAt "far" 400 100 20 10 ].

Definition apart (p q : Point) : Prop := nearPoints p q = false.

(** ** Primitive extractor (the operator walk of [parseCells])

    The operator list of a page is a list of [Operator]s; [OPS_other]
    stands for every operator that the walk does not look at.  The two
    functions of [pdfjs.Util] are written out below.  Reading an argument
    beyond the end of the argument array gives [undefined], with which the
    arithmetic yields NaN for the width and the height of the rectangle;
    such a rectangle is [NotANumber] here.  It occupies the pending slot
    and is pushed like any other, and the classification that follows
    takes it for neither kind of line, all comparisons with NaN being
    false. *)

Record Matrix : Type :=
  mkMatrix { m0 : Q; m1 : Q; m2 : Q; m3 : Q; m4 : Q; m5 : Q }.

Definition identityMatrix : Matrix := mkMatrix 1 0 0 1 0 0.

(** [pdfjs.Util.transform(a, b)] *)
Definition Util_transform (a b : Matrix) : Matrix :=
  mkMatrix (m0 a * m0 b + m2 a * m1 b)
           (m1 a * m0 b + m3 a * m1 b)
           (m0 a * m2 b + m2 a * m3 b)
           (m1 a * m2 b + m3 a * m3 b)
           (m0 a * m4 b + m2 a * m5 b + m4 a)
           (m1 a * m4 b + m3 a * m5 b + m5 a).

(** [pdfjs.Util.applyTransform([px, py], m)] *)
Definition Util_applyTransform (p : Q * Q) (m : Matrix) : Q * Q :=
  (fst p * m0 m + snd p * m2 m + m4 m, fst p * m1 m + snd p * m3 m + m5 m).

Inductive PathOperation : Type :=
| OPS_moveTo
| OPS_lineTo
| OPS_rectangle
| OPS_otherPath.

Inductive Operator : Type :=
| OPS_restore
| OPS_save
| OPS_transform (args : Matrix)
| OPS_constructPath (operations : list PathOperation) (arguments : list Q)
| OPS_fill
| OPS_eoFill
| OPS_other.

Inductive Candidate : Type :=
| Measured (r : Rectangle)
| NotANumber.

(** The rectangle built from four arguments under a transform. *)
Definition transformedRectangle (ax ay w h : Q) (m : Matrix) : Rectangle :=
  let corner1 := Util_applyTransform (ax, ay) m in
  let corner2 := Util_applyTransform (ax + w, ay + h) m in
  mkRectangle (fst corner1) (snd corner1)
              (fst corner2 - fst corner1) (snd corner2 - snd corner1).

(** The inner loop over the operations of one path.  With an undefined
    [transform] the first rectangle raises. *)
Fixpoint walkPath (operations : list PathOperation) (arguments : list Q)
  (argumentIndex : nat) (transform : option Matrix)
  (previousRectangle : option Candidate) : Outcome (option Candidate) :=
  match operations with
  | [] => Returned previousRectangle
  | OPS_moveTo :: later =>
      walkPath later arguments (argumentIndex + 2) transform previousRectangle
  | OPS_lineTo :: later =>
      walkPath later arguments (argumentIndex + 2) transform previousRectangle
  | OPS_rectangle :: later =>
      match transform with
      | None => Threw
      | Some m =>
          let built :=
            match nth_error arguments argumentIndex,
                  nth_error arguments (argumentIndex + 1),
                  nth_error arguments (argumentIndex + 2),
                  nth_error arguments (argumentIndex + 3) with
            | Some ax, Some ay, Some w, Some h =>
                Measured (transformedRectangle ax ay w h m)
            | _, _, _, _ => NotANumber
            end in
          walkPath later arguments (argumentIndex + 4) transform (Some built)
      end
  | OPS_otherPath :: later =>
      walkPath later arguments argumentIndex transform previousRectangle
  end.

Record Walk : Type :=
  mkWalk { walkLines : list Candidate;
           pendingRectangle : option Candidate;
           transformStack : list (option Matrix);
           currentTransform : option Matrix }.

(** The state before the loop: the stack holds the identity matrix. *)
Definition initialWalk : Walk :=
  mkWalk [] None [Some identityMatrix] (Some identityMatrix).

(** One pass of the loop over the operators; the head of [transformStack]
    is its top, and popping an empty stack gives [undefined]. *)
Definition walkOperator (w : Walk) (operator : Operator) : Outcome Walk :=
  match operator with
  | OPS_restore =>
      match transformStack w with
      | top :: rest =>
          Returned (mkWalk (walkLines w) (pendingRectangle w) rest top)
      | [] => Returned (mkWalk (walkLines w) (pendingRectangle w) [] None)
      end
  | OPS_save =>
      Returned (mkWalk (walkLines w) (pendingRectangle w)
                       (currentTransform w :: transformStack w)
                       (currentTransform w))
  | OPS_transform args =>
      match currentTransform w with
      | Some m =>
          Returned (mkWalk (walkLines w) (pendingRectangle w) (transformStack w)
                           (Some (Util_transform m args)))
      | None => Threw
      end
  | OPS_constructPath operations arguments =>
      do pending <- walkPath operations arguments 0 (currentTransform w)
                             (pendingRectangle w);
      Returned (mkWalk (walkLines w) pending (transformStack w)
                       (currentTransform w))
  | OPS_fill | OPS_eoFill =>
      match pendingRectangle w with
      | Some candidate =>
          Returned (mkWalk (walkLines w ++ [candidate]) None (transformStack w)
                           (currentTransform w))
      | None => Returned w
      end
  | OPS_other => Returned w
  end.

Fixpoint walkOperators (w : Walk) (operators : list Operator) : Outcome Walk :=
  match operators with
  | [] => Returned w
  | operator :: later =>
      do w' <- walkOperator w operator;
      walkOperators w' later
  end.

(** The array [lines] after the walk. *)
Definition findLines (operators : list Operator) : Outcome (list Candidate) :=
  do w <- walkOperators initialWalk operators;
  Returned (walkLines w).

(** The candidates that the classification can take for a line. *)
Definition measuredLines (candidates : list Candidate) : list Rectangle :=
  flat_map (fun candidate =>
              match candidate with
              | Measured r => [r]
              | NotANumber => []
              end)
           candidates.

(** [parseCells] from the operator list of a page. *)
Definition parseCellsOfOperators (operators : list Operator) : Outcome (list Cell) :=
  do candidates <- findLines operators;
  Returned (parseCells (measuredLines candidates)).

Definition isFill (operator : Operator) : bool :=
  match operator with
  | OPS_fill | OPS_eoFill => true
  | _ => false
  end.

Definition hasRectangle (operator : Operator) : bool :=
  match operator with
  | OPS_constructPath operations _ =>
      existsb (fun operation =>
                 match operation with
                 | OPS_rectangle => true
                 | _ => false
                 end)
              operations
  | _ => false
  end.

Definition touchesStack (operator : Operator) : bool :=
  match operator with
  | OPS_restore | OPS_save => true
  | _ => false
  end.

(** A box drawn as four filled rectangles inside a translated frame. *)
Definition boxOperators : list Operator :=
  [ OPS_save; OPS_transform (mkMatrix 1 0 0 1 10 660);
    OPS_constructPath [OPS_rectangle] [0; 0; 100; 1]; OPS_fill;
    OPS_constructPath [OPS_rectangle] [0; 20; 100; 1]; OPS_fill;
    OPS_constructPath [OPS_rectangle] [0; 0; 1; 20]; OPS_eoFill;
    OPS_constructPath [OPS_moveTo; OPS_rectangle] [5; 5; 100; 0; 1; 20]; OPS_fill;
    OPS_restore; OPS_fill ].

Definition pendingCount (pending : option Candidate) : nat :=
  match pending with
  | Some _ => 1%nat
  | None => 0%nat
  end.

(** ** The first generation: the table-based extractor

    The first half of [scraper.js] reads a page as one table: the cells are
    grouped into rows, the column of each field is found from its heading
    cell, and every row that holds an application number yields a record.
    Its geometry kernel, [parseCells] and the normalisation of a page are,
    line for line, those embedded above. *)

Module FirstGeneration.

(** [undefined] arguments are [None].  With widths that are not negative
    the quotient is reached with a positive [unionWidth] only. *)
Definition getHorizontalOverlapPercentage (rectangle1 rectangle2 : option Rectangle)
  : Q :=
  match rectangle1, rectangle2 with
  | Some r1, Some r2 =>
      let startX1 := x r1 in
      let endX1 := x r1 + width r1 in
      let startX2 := x r2 in
      let endX2 := x r2 + width r2 in
      if Qgeb startX1 endX2 || Qleb endX1 startX2
         || Qeq_bool (width r1) 0 || Qeq_bool (width r2) 0
      then 0
      else
        let intersectionWidth := Math_min endX1 endX2 - Math_max startX1 startX2 in
        let unionWidth := Math_max endX1 endX2 - Math_min startX1 startX2 in
        (intersectionWidth * 100) / unionWidth
  | _, _ => 0
  end.

(** The allocation loop, with the threshold of this generation. *)
Fixpoint assignOwner (element : Element) (cells : list Cell) : list Cell :=
  match cells with
  | [] => []
  | cell :: rest =>
      if Qgtb (getPercentageOfElementInCell element cell) 40
      then mkCell (cellBounds cell) (elements cell ++ [element]) :: rest
      else cell :: assignOwner element rest
  end.

Definition allocateElements (pageElements : list Element) (cells : list Cell)
  : list Cell :=
  fold_left (fun cells element => assignOwner element cells) pageElements cells.

(** [rows.find(row => Math.abs(row[0].y - cell.y) < Tolerance)] followed by
    the push to the row found or of a new row.  Rows are never empty. *)
Definition isRowOf (cell : Cell) (row : list Cell) : bool :=
  match row with
  | first :: _ => Qltb (Math_abs (y first - y cell)) Tolerance
  | [] => false
  end.

(** A row is not empty and all its cells lie within the tolerance of the
    top of its first cell. *)
Definition wellGrouped (row : list Cell) : Prop :=
  row <> [] /\ forall cell, In cell row -> isRowOf cell row = true.

Fixpoint addToRows (cell : Cell) (rows : list (list Cell)) : list (list Cell) :=
  match rows with
  | [] => [[cell]]
  | row :: later =>
      if isRowOf cell row then (row ++ [cell]) :: later
      else row :: addToRows cell later
  end.

Definition groupRows (cells : list Cell) : list (list Cell) :=
  fold_left (fun rows cell => addToRows cell rows) cells [].

Definition rowTop (row : list Cell) : Q :=
  match row with
  | first :: _ => y first
  | [] => 0
  end.

Definition rowComparer (a b : list Cell) : Z :=
  if Qgtb (rowTop a) (rowTop b) then 1%Z
  else if Qltb (rowTop a) (rowTop b) then (-1)%Z else 0%Z.

Definition rowCellComparer (a b : Cell) : Z :=
  if Qgtb (x a) (x b) then 1%Z else if Qltb (x a) (x b) then (-1)%Z else 0%Z.

(** [/^prefix/i.test(text.replace(/\s/g, ''))] for a lower-case [prefix]
    of letters and punctuation. *)
Definition findHeadingCell (cells : list Cell) (prefix : string) : option Cell :=
  find (fun cell =>
          startsWith (toLowerCase (removeChars isSpace (cellText cell))) prefix)
       cells.

(** [row.find(cell => getHorizontalOverlapPercentage(cell, headingCell) > 90)] *)
Definition findColumnCell (row : list Cell) (headingCell : option Cell)
  : option Cell :=
  find (fun cell : Cell =>
          Qgtb (getHorizontalOverlapPercentage
                  (Some (cellBounds cell)) (option_map cellBounds headingCell))
               90)
       row.

Definition isDigit (c : ascii) : bool :=
  let n := nat_of_ascii c in ((48 <=? n) && (n <=? 57))%nat.

Definition isDigitOrUpper (c : ascii) : bool :=
  let n := nat_of_ascii c in
  isDigit c || ((65 <=? n) && (n <=? 90))%nat.

Fixpoint dropWhile (p : ascii -> bool) (s : string) : string :=
  match s with
  | EmptyString => EmptyString
  | String c r => if p c then dropWhile p r else s
  end.

(** What has to follow a digit and a slash: [[0-9A-Z]+\/[0-9]]. *)
Definition middleAndLast (s : string) : bool :=
  match s with
  | String c r =>
      isDigitOrUpper c
      && match dropWhile isDigitOrUpper r with
         | String slash (String d _) => Ascii.eqb slash "/" && isDigit d
         | _ => false
         end
  | EmptyString => false
  end.

(** [/[0-9]+\/[0-9A-Z]+\/[0-9]+/.test(s)]: somewhere in [s] a digit is
    followed by a slash, a run of digits and capitals, a slash and a
    digit. *)
Fixpoint looksLikeApplicationNumber (s : string) : bool :=
  match s with
  | EmptyString => false
  | String c r =>
      (isDigit c
       && match r with
          | String slash r' => Ascii.eqb slash "/" && middleAndLast r'
          | EmptyString => false
          end)
      || looksLikeApplicationNumber r
  end.

(** [elements.map(element => element.text).join(" ")] *)
Definition spacedText (cell : Cell) : string :=
  String.concat " " (map text (elements cell)).

Definition NoDescription : string := "No Description Provided".

Section TableExtractor.

(** The package moment: [momentStrict s] is
    [moment(s, [ "D/MM/YY", "D/MM/YYYY" ], true)] formatted as
    [YYYY-MM-DD] when it is valid, and [today] is
    [moment().format("YYYY-MM-DD")]. *)
Variable momentStrict : string -> option string.
Variable today : string.

(** The body of the loop over the rows: the record of a row, if any. *)
Definition parseRow (url : string)
  (applicationNumberHeadingCell receivedDateHeadingCell
   addressHeadingCell descriptionHeadingCell : option Cell)
  (row : list Cell) : option DevelopmentApplication :=
  let applicationNumberCell := findColumnCell row applicationNumberHeadingCell in
  let receivedDateCell := findColumnCell row receivedDateHeadingCell in
  let addressCell := findColumnCell row addressHeadingCell in
  let descriptionCell := findColumnCell row descriptionHeadingCell in
  match applicationNumberCell with
  | None => None
  | Some numberCell =>
      let number := toUpperCase (trim (cellText numberCell)) in
      if negb (looksLikeApplicationNumber number) then None
      else
        match addressCell with
        | None => None
        | Some addressCell =>
            let addressText := trim (collapseSpaces (spacedText addressCell)) in
            if String.eqb addressText EmptyString then None
            else
              let descriptionText :=
                match descriptionCell with
                | Some descriptionCell =>
                    trim (collapseSpaces (spacedText descriptionCell))
                | None => EmptyString
                end in
              let received :=
                match receivedDateCell with
                | Some receivedDateCell =>
                    if (0 <? List.length (elements receivedDateCell))%nat
                    then momentStrict
                           (trim (collapseSpaces (cellText receivedDateCell)))
                    else None
                | None => None
                end in
              Some (mkApplication
                      number
                      addressText
                      (if String.eqb descriptionText EmptyString
                       then NoDescription else descriptionText)
                      url
                      CommentUrl
                      today
                      (match received with
                       | Some formatted => formatted
                       | None => EmptyString
                       end))
        end
  end.

(** The rows of a page, sorted by their tops, each sorted from left to
    right. *)
Definition pageRows (page : Page) : list (list Cell) :=
  let cells := allocateElements (normalizedElements page) (normalizedCells page) in
  map (sortBy rowCellComparer) (sortBy rowComparer (groupRows cells)).

(** The records of one page; every [continue] of the page loop is an
    empty list. *)
Definition parsePage (url : string) (page : Page) : list DevelopmentApplication :=
  let cells := allocateElements (normalizedElements page) (normalizedCells page) in
  let rows := groupRows cells in
  match rows with
  | [] => []
  | _ :: _ =>
      let rows := map (sortBy rowCellComparer) (sortBy rowComparer rows) in
      let conditionsHeadingCell := findHeadingCell cells "conditions" in
      let referralConcurrenceHeadingCell :=
        findHeadingCell cells "referral/concurrence" in
      if isDefined conditionsHeadingCell && isDefined referralConcurrenceHeadingCell
      then []
      else
        let applicationNumberHeadingCell := findHeadingCell cells "applicationno." in
        let receivedDateHeadingCell := findHeadingCell cells "datereceived" in
        let addressHeadingCell := findHeadingCell cells "addressofdevelopment" in
        let descriptionHeadingCell := findHeadingCell cells "proposeddevelopment" in
        match applicationNumberHeadingCell, addressHeadingCell with
        | Some _, Some _ =>
            flat_map
              (fun row =>
                 match parseRow url applicationNumberHeadingCell
                                receivedDateHeadingCell addressHeadingCell
                                descriptionHeadingCell row with
                 | Some developmentApplication => [developmentApplication]
                 | None => []
                 end)
              rows
        | _, _ => []
        end
  end.

(** At most 500 pages are read; nothing is deduplicated here. *)
Definition parsePdf (url : string) (pages : list Page)
  : list DevelopmentApplication :=
  flat_map (parsePage url) (firstn 500 pages).

End TableExtractor.

(** The pattern of an application number, read off the regular
    expression: digits, a slash, digits and capitals, a slash, digits,
    anywhere in the string. *)
Definition hasNumberPattern (s : string) : Prop :=
  exists before n1 n2 n3 after,
    s = (before ++ n1 ++ "/" ++ n2 ++ "/" ++ n3 ++ after)%string
    /\ n1 <> EmptyString /\ everyChar isDigit n1 = true
    /\ n2 <> EmptyString /\ everyChar isDigitOrUpper n2 = true
    /\ n3 <> EmptyString /\ everyChar isDigit n3 = true.

(** A register drawn as a table: a heading row and one row of data. *)
Definition tablePage : Page :=
  mkPage [ mkRectangle 10 600 300 1; mkRectangle 10 620 300 1;
           mkRectangle 10 640 300 1;
           mkRectangle 10 600 1 40; mkRectangle 110 600 1 40;
           mkRectangle 310 600 1 40 ]
         [ textAt "Application No." 15 625 80 10;
           textAt "Address of Development" 115 625 150 10;
           textAt "123/45/6" 15 605 50 10;
           textAt "1 Main Street" 115 605 80 10 ]
         0.

Definition tableApplication : DevelopmentApplication :=
  mkApplication "123/45/6" "1 Main Street" NoDescription "register.pdf"
                CommentUrl "2019-03-21" EmptyString.

End FirstGeneration.

(** ** The choice of the documents ([main])

    [hrefs] are the addresses of the links of the index page, resolved
    against the address of the page, in document order.  The values that
    [Math.random()] returns are arguments of the functions below; they lie
    in the interval from 0, included, to 1, excluded. *)

Definition Math_floor (q : Q) : Z := Qfloor q.
Definition Math_ceil (q : Q) : Z := Qceiling q.

(** [getRandom(minimum, maximum)], [random] being the value that
    [Math.random()] returns. *)
Definition getRandom (random minimum maximum : Q) : Z :=
  (Math_floor (random * inject_Z (Math_floor maximum - Math_ceil minimum))
   + Math_ceil minimum)%Z.

(** [s.includes(part)] *)
Fixpoint includes (s part : string) : bool :=
  startsWith s part
  || match s with
     | EmptyString => false
     | String _ rest => includes rest part
     end.

Definition isRegisterLink (pdfUrl : string) : bool :=
  includes (toLowerCase pdfUrl) "register" && includes (toLowerCase pdfUrl) ".pdf".

(** One pass of the loop over the links. *)
Definition addPdfUrl (pdfUrls : list string) (pdfUrl : string) : list string :=
  if isRegisterLink pdfUrl
  then if existsb (String.eqb pdfUrl) pdfUrls then pdfUrls else pdfUrls ++ [pdfUrl]
  else pdfUrls.

Definition collectPdfUrls (hrefs : list string) : list string :=
  fold_left addPdfUrl hrefs [].

(** [array[index]], which is [undefined] outside the array. *)
Definition atIndex {A : Type} (array : list A) (index : Z) : option A :=
  if (index <? 0)%Z then None else nth_error array (Z.to_nat index).

(** The documents that [main] goes on to parse, in order; [main] returns
    before the selection when there is no address.  [random1] is drawn for
    the second document, when there is one to draw, and [random2] for the
    order. *)
Definition selectPdfUrls (random1 random2 : Q) (pdfUrls : list string)
  : list (option string) :=
  match rev pdfUrls with
  | [] => []
  | mostRecent :: others =>
      let pdfUrls := rev others in
      let selectedPdfUrls :=
        if (0 <? List.length pdfUrls)%nat
        then [ Some mostRecent;
               atIndex pdfUrls
                 (getRandom random1 0 (inject_Z (Z.of_nat (List.length pdfUrls)))) ]
        else [ Some mostRecent ] in
      if (getRandom random2 0 2 =? 0)%Z then rev selectedPdfUrls
      else selectedPdfUrls
  end.

(** The links of a sample index page. *)
Definition indexLinks : list string :=
  [ "https://www.wudinna.sa.gov.au/files/Register-2018.pdf";
    "https://www.wudinna.sa.gov.au/files/minutes.pdf";
    "https://www.wudinna.sa.gov.au/files/Register-2018.pdf";
    "https://www.wudinna.sa.gov.au/files/register-2019.PDF" ].

(** ** Vocabulary of order independence *)

(** The abscissas, and the ordinates, of the ends of lines. *)
Definition endAbscissas (lines : list Line) : list Q :=
  flat_map (fun line => [x1 line; x2 line]) lines.

Definition endOrdinates (lines : list Line) : list Q :=
  flat_map (fun line => [y1 line; y2 line]) lines.

(** Any two of the coordinates are equal or at least the tolerance
    apart. *)
Definition separated (coordinates : list Q) : bool :=
  forallb
    (fun a =>
       forallb (fun b => Qeq_bool a b || Qleb Tolerance (a - b)
                         || Qleb Tolerance (b - a))
               coordinates)
    coordinates.

(** The ends of the lines that the classification keeps lie on a lattice
    that is no finer than the tolerance: two abscissas, and two ordinates,
    are equal or at least the tolerance apart. *)
Definition latticeAligned (lines : list Rectangle) : bool :=
  let classified := horizontalLinesOf lines ++ verticalLinesOf lines in
  separated (endAbscissas classified) && separated (endOrdinates classified).

(** The number is one of the coordinates. *)
Definition among (coordinates : list Q) (a : Q) : Prop :=
  exists b, In b coordinates /\ a == b.

Definition onCoordinates (abscissas ordinates : list Q) (p : Point) : Prop :=
  among abscissas (px p) /\ among ordinates (py p).

(** The points that one pass of the double loop offers to [points], in
    the order in which it offers them. *)
Definition candidatePoints (horizontal vertical : Line) : list Point :=
  let intersectionPoint := intersectLines horizontal vertical true in
  let haveSharedPoints :=
    within (x1 vertical) (y1 vertical) (x1 horizontal) (y1 horizontal)
    || within (x1 vertical) (y1 vertical) (x2 horizontal) (y2 horizontal)
    || within (x2 vertical) (y2 vertical) (x1 horizontal) (y1 horizontal)
    || within (x2 vertical) (y2 vertical) (x2 horizontal) (y2 horizontal) in
  match intersectionPoint with
  | Some p => [p]
  | None => []
  end
  ++ (if haveSharedPoints || isDefined intersectionPoint
      then [ mkPoint (x1 horizontal) (y1 horizontal);
             mkPoint (x2 horizontal) (y2 horizontal);
             mkPoint (x1 vertical) (y1 vertical);
             mkPoint (x2 vertical) (y2 vertical) ]
      else []).

Definition allCandidates (horizontalLines verticalLines : list Line)
  : list Point :=
  flat_map (fun horizontal => flat_map (candidatePoints horizontal) verticalLines)
           horizontalLines.

(** The two cells have the same rectangle. *)
Definition sameCell (a b : Cell) : Prop := sameRectangle a b.

(** Reading order of cells: by ordinate, then by abscissa. *)
Definition cellBefore (a b : Cell) : Prop :=
  y a < y b \/ (y a == y b /\ x a < x b).

Definition sameCorner (a b : Cell) : Prop := x a == x b /\ y a == y b.

(** The outcome of a search for the closest point is the same. *)
Definition sameFound (found found' : option Point) : Prop :=
  match found, found' with
  | Some r, Some r' => samePoint r r'
  | None, None => True
  | _, _ => False
  end.

(** Two cells side by side whose rules are drawn piece by piece: the top
    and the bottom rule come in two halves each. *)
Definition perCellRow : list Rectangle :=
  [ mkRectangle 0 0 50 1; mkRectangle 50 0 50 1;
    mkRectangle 0 20 50 1; mkRectangle 50 20 50 1;
    mkRectangle 0 0 1 20; mkRectangle 50 0 1 20; mkRectangle 100 0 1 20 ].

(** ** Vocabulary of the statements about text

    White space in the words of the language standard, for code units
    below 256: the characters of WhiteSpace (tab 9, vertical tab 11, form
    feed 12, space 32, no-break space 160) and of LineTerminator (line
    feed 10, carriage return 13). *)
Definition whiteSpaceCodes : list nat := [9; 11; 12; 32; 160; 10; 13]%nat.

Definition WhiteSpace (c : ascii) : Prop := In (nat_of_ascii c) whiteSpaceCodes.

(** A text is blank when it holds nothing but white space; the empty text
    is blank. *)
Definition blank (s : string) : Prop :=
  forall c, In c (list_ascii_of_string s) -> WhiteSpace c.

(** The text holds no white space at all. *)
Definition spaceFree (s : string) : Prop :=
  forall c, In c (list_ascii_of_string s) -> ~ WhiteSpace c.

(** The text holds no letter with a diacritic: its code units are below
    192.  The package didyoumean2 can fold such letters to plain ones
    before it measures the distance (its option [deburr]); that step is
    not part of the model, and the statements about ranks leave these
    letters out. *)
Definition plain (s : string) : Prop :=
  forall c, In c (list_ascii_of_string s) -> (nat_of_ascii c < 192)%nat.

(** Normalisation of a label in the words of the specification: white
    space, commas, hyphens and underscores are left out, and the capitals
    A-Z become small letters. *)
Definition noiseCodes : list nat := whiteSpaceCodes ++ [44; 45; 95]%nat.

Definition isNoise (c : ascii) : bool :=
  existsb (Nat.eqb (nat_of_ascii c)) noiseCodes.

Definition capitalLetters : list ascii :=
  list_ascii_of_string "ABCDEFGHIJKLMNOPQRSTUVWXYZ".

Definition smallLetters : list ascii :=
  list_ascii_of_string "abcdefghijklmnopqrstuvwxyz".

Definition smallLetterOf (c : ascii) : ascii :=
  match find (fun letters => Ascii.eqb (fst letters) c)
             (combine capitalLetters smallLetters) with
  | Some letters => snd letters
  | None => c
  end.

Definition normalized (s : string) : string :=
  string_of_list_ascii
    (map smallLetterOf
         (filter (fun c => negb (isNoise c)) (list_ascii_of_string s))).

(** The texts of a chain of elements, one after the other. *)
Definition concatenation (chain : list Element) : string :=
  fold_right append EmptyString (map text chain).

(** What the loop body must record for a chain, by the edit distance
    between the normalised concatenation of its texts and the normalised
    label: rank 0 when they are equal, rank 1 and 2 at those distances,
    and nothing from distance 3 on. *)
Definition rankedByEditDistance (rightElement : Element) (chain : list Element)
  (label : string) (outcome : option (list Match)) : Prop :=
  let rendered := normalized (concatenation chain) in
  let distance := editDistance rendered (normalized label) in
  (rendered = normalized label ->
   outcome = Some [mkMatch rightElement chain 0 rendered])
  /\ (distance = 1%nat ->
      outcome = Some [mkMatch rightElement chain 1 rendered])
  /\ (distance = 2%nat ->
      outcome = Some [mkMatch rightElement chain 2 rendered])
  /\ ((3 <= distance)%nat -> outcome = None \/ outcome = Some []).

(** The no-break space, code unit 160. *)
Definition noBreakSpace : string := String (ascii_of_nat 160) EmptyString.

(** The anchor label with a no-break space between its words. *)
Definition noBreakAnchor : Element :=
  textAt ("APPLICATION" ++ noBreakSpace ++ "NO:")%string 10 100 80 10.

(** The anchor label in two elements, the colon on its own. *)
Definition anchorStem : Element := textAt "APPLICATION NO" 10 100 80 10.
Definition anchorColon : Element := textAt ":" 92 100 5 10.

(** The register page with nothing but a no-break space in the address
    cell. *)
Definition noBreakAddressPage : Page :=
  mkPage (pageLines registerPage)
         [ textAt "APPLICATION NO:" 10 700 80 10;
           textAt "123/45" 95 700 40 10;
           textAt "DEVELOPMENT ADDRESS:" 12 665 90 10;
           textAt noBreakSpace 115 665 80 10 ]
         0.

(** A page with a second ruled row for the description, whose cell holds
    nothing but a no-break space. *)
Definition noBreakDescriptionPage : Page :=
  mkPage [ mkRectangle 10 640 290 1; mkRectangle 10 660 290 1;
           mkRectangle 10 680 290 1;
           mkRectangle 10 640 1 40; mkRectangle 110 640 1 40;
           mkRectangle 300 640 1 40 ]
         [ textAt "APPLICATION NO:" 10 700 80 10;
           textAt "123/45" 95 700 40 10;
           textAt "DEVELOPMENT ADDRESS:" 12 665 90 10;
           textAt "1 Main Street" 115 665 80 10;
           textAt "DESCRIPTION:" 12 645 90 10;
           textAt noBreakSpace 115 645 80 10 ]
         0.
(** ** Comparison lemmas *)

Lemma Qltb_lt (a b : Q) : Qltb a b = true <-> a < b.
Proof.
  unfold Qltb. rewrite negb_true_iff.
  split; intro H.
  - apply Qnot_le_lt. intro Hle. apply Qle_bool_iff in Hle. congruence.
  - destruct (Qle_bool b a) eqn:E; [|reflexivity].
    apply Qle_bool_iff in E. exfalso. apply (Qlt_not_le _ _ H E).
Qed.

Lemma Qltb_ge (a b : Q) : Qltb a b = false <-> b <= a.
Proof.
  unfold Qltb. rewrite negb_false_iff. apply Qle_bool_iff.
Qed.

Lemma Qgtb_gt (a b : Q) : Qgtb a b = true <-> b < a.
Proof. apply Qltb_lt. Qed.

Lemma Qgtb_le (a b : Q) : Qgtb a b = false <-> a <= b.
Proof. apply Qltb_ge. Qed.

Lemma Qgeb_ge (a b : Q) : Qgeb a b = true <-> b <= a.
Proof. apply Qle_bool_iff. Qed.

Lemma Qgeb_lt (a b : Q) : Qgeb a b = false <-> a < b.
Proof.
  unfold Qgeb. split; intro H.
  - apply Qnot_le_lt. intro Hle. apply Qle_bool_iff in Hle. congruence.
  - destruct (Qle_bool b a) eqn:E; [|reflexivity].
    apply Qle_bool_iff in E. exfalso. apply (Qlt_not_le _ _ H E).
Qed.

Lemma Qeq_bool_false (a b : Q) : Qeq_bool a b = false <-> ~ a == b.
Proof.
  split.
  - apply Qeq_bool_neq.
  - intro H. destruct (Qeq_bool a b) eqn:E; [|reflexivity].
    apply Qeq_bool_iff in E. contradiction.
Qed.

Lemma Math_min_spec (a b : Q) :
  (a <= b /\ Math_min a b = a) \/ (b < a /\ Math_min a b = b).
Proof.
  unfold Math_min. destruct (Qle_bool a b) eqn:E.
  - left. split; [apply Qle_bool_iff; exact E | reflexivity].
  - right. split; [|reflexivity].
    apply Qnot_le_lt. intro H. apply Qle_bool_iff in H. congruence.
Qed.

Lemma Math_max_spec (a b : Q) :
  (a <= b /\ Math_max a b = b) \/ (b < a /\ Math_max a b = a).
Proof.
  unfold Math_max. destruct (Qle_bool a b) eqn:E.
  - left. split; [apply Qle_bool_iff; exact E | reflexivity].
  - right. split; [|reflexivity].
    apply Qnot_le_lt. intro H. apply Qle_bool_iff in H. congruence.
Qed.

Lemma Math_min_same (a : Q) : Math_min a a = a.
Proof. unfold Math_min. destruct (Qle_bool a a); reflexivity. Qed.

(** ** Geometry kernel: [union] *)

Lemma union_y (r1 r2 : Rectangle) : y (union r1 r2) = y r1.
Proof. unfold union. simpl. apply Math_min_same. Qed.

Lemma union_covers_first (r1 r2 : Rectangle) :
  wellFormed r1 -> covers (union r1 r2) r1.
Proof.
  intros [Hw Hh] p (Hx1 & Hx2 & Hy1 & Hy2).
  unfold contains, union. simpl. rewrite Math_min_same.
  destruct (Math_min_spec (x r1) (x r2)) as [[? ->]|[? ->]];
    destruct (Math_max_spec (x r1 + width r1) (x r2 + width r2)) as [[? ->]|[? ->]];
    destruct (Math_max_spec (y r1 + height r1) (y r2 + height r2)) as [[? ->]|[? ->]];
    match goal with
    | |- context [Math_max ?a 0] =>
        destruct (Math_max_spec a 0) as [[? ->]|[? ->]]
    end;
    match goal with
    | |- context [Math_max ?a 0] =>
        destruct (Math_max_spec a 0) as [[? ->]|[? ->]]
    | |- _ => idtac
    end;
    repeat split; lra.
Qed.


(** C2 (defect).  [union] takes the top of its result from the first
    rectangle alone: with [lowerBox] first and [upperBox] second, the
    corner (0, 0) of [upperBox] lies outside [union lowerBox upperBox], so
    the result does not cover both rectangles. *)
Theorem union_misses_second_rectangle :
  wellFormed lowerBox /\ wellFormed upperBox
  /\ y (union lowerBox upperBox) == 10
  /\ contains upperBox (mkPoint 0 0)
  /\ ~ contains (union lowerBox upperBox) (mkPoint 0 0)
  /\ ~ smallestCover (union lowerBox upperBox) lowerBox upperBox.
Proof.
  assert (Hin : contains upperBox (mkPoint 0 0)).
  { unfold contains; simpl. repeat split; lra. }
  assert (Hout : ~ contains (union lowerBox upperBox) (mkPoint 0 0)).
  { unfold contains; simpl. intros (_ & _ & H & _).
    vm_compute in H. apply H. reflexivity. }
  repeat split; try (vm_compute; congruence); try exact Hin; try exact Hout.
  intros (_ & C2 & _). apply Hout, C2, Hin.
Qed.

(** ** Geometry kernel: [intersectLines] *)

Lemma intersectLines_zero_length (l1 l2 : Line) (clamp : bool) :
  zeroLength l1 \/ zeroLength l2 -> intersectLines l1 l2 clamp = None.
Proof.
  intros [[Hx Hy]|[Hx Hy]]; unfold intersectLines;
    apply Qeq_bool_iff in Hx; apply Qeq_bool_iff in Hy; rewrite Hx, Hy; simpl.
  - reflexivity.
  - rewrite orb_true_r. reflexivity.
Qed.

(** Parallel pairs whose first line is axis-aligned are rejected: this is
    the case that grid reconstruction relies on. *)
Lemma intersectLines_parallel_axis_aligned (l1 l2 : Line) (clamp : bool) :
  parallel l1 l2 ->
  x1 l1 == x2 l1 \/ (y1 l1 == y2 l1 /\ ~ x1 l1 == x2 l1) ->
  intersectLines l1 l2 clamp = None.
Proof.
  intros Hp Hax. unfold intersectLines.
  destruct (_ || _); [reflexivity|].
  match goal with |- context [Qeq_bool ?d 0] => assert (Hd : d == 0) end.
  { unfold parallel in Hp. destruct Hax as [Hv|[Hh Hnv]].
    - rewrite <- Hv. ring.
    - assert (H0 : y2 l1 - y1 l1 == 0) by lra.
      rewrite H0 in *.
      assert (H1 : (x2 l1 - x1 l1) * (y2 l2 - y1 l2) == 0) by lra.
      apply Qmult_integral in H1. destruct H1 as [H1|H1]; [exfalso; lra|].
      rewrite H1. ring. }
  apply Qeq_bool_iff in Hd. rewrite Hd. reflexivity.
Qed.

(** C3 (defect).  The determinant is computed with the first line's
    x-extent in both products, so it vanishes only when the first line is
    vertical or the two y-extents agree.  [shortDiagonal] and
    [longDiagonal] are parallel and distinct, yet a point is returned,
    with and without clamping to the segments. *)
Theorem intersectLines_accepts_parallel_pair :
  parallel shortDiagonal longDiagonal
  /\ ~ zeroLength shortDiagonal /\ ~ zeroLength longDiagonal
  /\ (exists p, intersectLines shortDiagonal longDiagonal true = Some p
                /\ px p == 3 # 2 /\ py p == 3 # 2)
  /\ (exists p, intersectLines shortDiagonal longDiagonal false = Some p
                /\ px p == 3 # 2 /\ py p == 3 # 2).
Proof.
  split; [vm_compute; reflexivity|].
  split; [intros [H _]; vm_compute in H; discriminate|].
  split; [intros [H _]; vm_compute in H; discriminate|].
  split; eexists; (split; [vm_compute; reflexivity|split; vm_compute; reflexivity]).
Qed.

(** ** Edit distance *)

Lemma editDistance_nil_l (b : string) : editDistance EmptyString b = String.length b.
Proof. reflexivity. Qed.

Lemma editDistance_nil_r (a : string) : editDistance a EmptyString = String.length a.
Proof. destruct a; reflexivity. Qed.

Lemma editDistance_cons (ca cb : ascii) (a b : string) :
  editDistance (String ca a) (String cb b)
  = Nat.min (Nat.min (S (editDistance a (String cb b)))
                     (S (editDistance (String ca a) b)))
            (editDistance a b + if Ascii.eqb ca cb then 0 else 1).
Proof. reflexivity. Qed.

Lemma hd_suffixes {A : Type} (f : string -> A) (d : A) (b : string) :
  hd d (map f (suffixes b)) = f b.
Proof. destruct b; reflexivity. Qed.

Lemma suffixLengths_spec (b : string) :
  suffixLengths b = map (editDistance EmptyString) (suffixes b).
Proof.
  induction b as [|c b IH]; simpl; [reflexivity|].
  now rewrite IH.
Qed.

Lemma levenRow_spec (ca : ascii) (a b : string) :
  levenRow ca (String.length (String ca a)) b (map (editDistance a) (suffixes b))
  = map (editDistance (String ca a)) (suffixes b).
Proof.
  induction b as [|cb b IH].
  - reflexivity.
  - cbn [suffixes map levenRow]. rewrite IH.
    rewrite !hd_suffixes, editDistance_cons. reflexivity.
Qed.

Lemma levenRows_spec (a b : string) :
  levenRows a b = map (editDistance a) (suffixes b).
Proof.
  induction a as [|ca a IH]; cbn [levenRows].
  - apply suffixLengths_spec.
  - rewrite IH. apply levenRow_spec.
Qed.

(** The dynamic programme computes the distance of the recurrence. *)
Lemma leven_editDistance (a b : string) : leven a b = editDistance a b.
Proof. unfold leven. rewrite levenRows_spec. apply hd_suffixes. Qed.

Lemma editDistance_lengths (a b : string) :
  (String.length a <= String.length b + editDistance a b
   /\ String.length b <= String.length a + editDistance a b)%nat.
Proof.
  revert b. induction a as [|ca a IHa]; intro b.
  - cbn. lia.
  - induction b as [|cb b IHb].
    + rewrite editDistance_nil_r. simpl. lia.
    + rewrite editDistance_cons.
      pose proof (IHa (String cb b)) as H1.
      pose proof (IHa b) as H2.
      cbn [String.length] in *.
      destruct (Ascii.eqb ca cb); lia.
Qed.

Lemma editDistance_refl (a : string) : editDistance a a = 0%nat.
Proof.
  induction a as [|c a IH]; [reflexivity|].
  rewrite editDistance_cons, IH, Ascii.eqb_refl. lia.
Qed.

(** ** Strings *)

Lemma isSpace_toLowerChar (c : ascii) : isSpace (toLowerChar c) = isSpace c.
Proof. destruct c as [[] [] [] [] [] [] [] []]; reflexivity. Qed.

Lemma toLowerChar_idempotent (c : ascii) :
  toLowerChar (toLowerChar c) = toLowerChar c.
Proof. destruct c as [[] [] [] [] [] [] [] []]; reflexivity. Qed.

Lemma toLowerCase_idempotent (s : string) :
  toLowerCase (toLowerCase s) = toLowerCase s.
Proof.
  induction s as [|c s IH]; [reflexivity|].
  cbn. rewrite toLowerChar_idempotent. f_equal. exact IH.
Qed.

Lemma toLowerCase_length (s : string) :
  String.length (toLowerCase s) = String.length s.
Proof. induction s as [|c s IH]; cbn; [reflexivity|f_equal; exact IH]. Qed.

Lemma everyChar_toLowerCase (s : string) :
  everyChar notSpace (toLowerCase s) = everyChar notSpace s.
Proof.
  induction s as [|c s IH]; [reflexivity|].
  cbn. unfold notSpace at 1 3. rewrite isSpace_toLowerChar. f_equal. exact IH.
Qed.

Lemma everyChar_removeChars (s : string) :
  everyChar notSpace (removeChars isMiscellaneous s) = true.
Proof.
  induction s as [|c s IH]; [reflexivity|].
  cbn. destruct (isMiscellaneous c) eqn:E; [exact IH|].
  cbn. rewrite IH, andb_true_r.
  unfold isMiscellaneous in E. unfold notSpace.
  destruct (isSpace c); [discriminate|reflexivity].
Qed.

Lemma condense_noSpace (s : string) : everyChar notSpace (condense s) = true.
Proof. unfold condense. rewrite everyChar_toLowerCase. apply everyChar_removeChars. Qed.

Lemma trimStart_noSpace (s : string) :
  everyChar notSpace s = true -> trimStart s = s.
Proof.
  destruct s as [|c s]; [reflexivity|].
  cbn. unfold notSpace. destruct (isSpace c); [discriminate|reflexivity].
Qed.

Lemma trimEnd_noSpace (s : string) :
  everyChar notSpace s = true -> trimEnd s = s.
Proof.
  induction s as [|c s IH]; [reflexivity|].
  cbn. intro H. apply andb_true_iff in H. destruct H as [Hc Hs].
  rewrite (IH Hs). unfold notSpace in Hc.
  destruct s; [destruct (isSpace c); [discriminate|reflexivity]|reflexivity].
Qed.

Lemma trim_noSpace (s : string) : everyChar notSpace s = true -> trim s = s.
Proof.
  intro H. unfold trim. rewrite (trimStart_noSpace _ H). apply trimEnd_noSpace, H.
Qed.

Lemma squeezeSpaces_noSpace (s : string) :
  everyChar notSpace s = true -> squeezeSpaces s = s.
Proof.
  unfold squeezeSpaces. induction s as [|c s IH]; [reflexivity|].
  cbn. intro H. apply andb_true_iff in H. destruct H as [Hc Hs].
  unfold notSpace in Hc. destruct (isSpace c); [discriminate|].
  f_equal. apply IH, Hs.
Qed.

Lemma normalizeString_condense (s : string) :
  normalizeString (condense s) = condense s.
Proof.
  unfold normalizeString.
  rewrite (trim_noSpace _ (condense_noSpace s)).
  rewrite (squeezeSpaces_noSpace _ (condense_noSpace s)).
  unfold condense. apply toLowerCase_idempotent.
Qed.

(** The head of a trimmed string is not white space. *)
Lemma trimStart_head (s : string) :
  trimStart s = EmptyString
  \/ exists c r, trimStart s = String c r /\ isSpace c = false.
Proof.
  induction s as [|c s IH]; [left; reflexivity|].
  cbn. destruct (isSpace c) eqn:E; [exact IH|].
  right. exists c, s. split; [reflexivity|exact E].
Qed.

Lemma trimEnd_head (c : ascii) (r : string) :
  isSpace c = false -> exists r', trimEnd (String c r) = String c r'.
Proof.
  intro E. cbn. destruct (trimEnd r).
  - rewrite E. now exists EmptyString.
  - eexists. reflexivity.
Qed.

Lemma trim_head (s : string) :
  trim s = EmptyString \/ exists c r, trim s = String c r /\ isSpace c = false.
Proof.
  unfold trim. destruct (trimStart_head s) as [->|(c & r & -> & E)].
  - left. reflexivity.
  - right. destruct (trimEnd_head c r E) as [r' ->]. now exists c, r'.
Qed.

Lemma collapseSpaces_head (c : ascii) (r : string) :
  isSpace c = false -> collapseSpaces (String c r) = String c (collapseFrom false r).
Proof. intro E. unfold collapseSpaces. cbn. now rewrite E. Qed.

(** Text read from a value cell is empty or not blank. *)
Lemma collapsed_trim_blank (s : string) :
  collapseSpaces (trim s) = EmptyString \/ isBlank (collapseSpaces (trim s)) = false.
Proof.
  destruct (trim_head s) as [->|(c & r & -> & E)]; [left; reflexivity|].
  right. rewrite (collapseSpaces_head _ _ E).
  unfold isBlank, trim. cbn [trimStart]. rewrite E.
  destruct (trimEnd_head c (collapseFrom false r) E) as [r' ->].
  reflexivity.
Qed.

(** ** White space and blank text *)

Lemma In_codes (n : nat) (codes : list nat) :
  In n codes <-> existsb (Nat.eqb n) codes = true.
Proof.
  rewrite existsb_exists. split.
  - intro H. exists n. split; [exact H|apply Nat.eqb_refl].
  - intros (m & Hm & E). apply Nat.eqb_eq in E. now subst.
Qed.

Lemma isSpace_codes (c : ascii) :
  isSpace c = existsb (Nat.eqb (nat_of_ascii c)) whiteSpaceCodes.
Proof. destruct c as [[] [] [] [] [] [] [] []]; reflexivity. Qed.

Lemma isSpace_WhiteSpace (c : ascii) : isSpace c = true <-> WhiteSpace c.
Proof. unfold WhiteSpace. rewrite In_codes, isSpace_codes. reflexivity. Qed.

Lemma trimStart_empty (s : string) : trimStart s = EmptyString <-> blank s.
Proof.
  unfold blank. induction s as [|c s IH]; cbn.
  - split; [intros _ c []|reflexivity].
  - destruct (isSpace c) eqn:E.
    + rewrite IH. split.
      * intros H d [<-|Hd]; [apply isSpace_WhiteSpace, E|apply H, Hd].
      * intros H d Hd. apply H. now right.
    + split; [discriminate|]. intro H.
      assert (K : isSpace c = true) by (apply isSpace_WhiteSpace, H; now left).
      congruence.
Qed.

Lemma isBlank_blank (s : string) : isBlank s = true <-> blank s.
Proof.
  unfold isBlank. rewrite String.eqb_eq. rewrite <- trimStart_empty.
  unfold trim. destruct (trimStart_head s) as [E|(c & r & E & Hc)]; rewrite E.
  - cbn. tauto.
  - destruct (trimEnd_head c r Hc) as [r' ->]. split; discriminate.
Qed.

Lemma isBlank_not_blank (s : string) : isBlank s = false <-> ~ blank s.
Proof.
  split.
  - intros H K. apply isBlank_blank in K. congruence.
  - intro H. destruct (isBlank s) eqn:E; [|reflexivity].
    exfalso. apply H, isBlank_blank, E.
Qed.

Lemma everyChar_spaceFree (s : string) :
  everyChar notSpace s = true <-> spaceFree s.
Proof.
  unfold spaceFree. induction s as [|c s IH]; cbn.
  - split; [intros _ c []|reflexivity].
  - rewrite andb_true_iff, IH. unfold notSpace. split.
    + intros [Hc H] d [<-|Hd]; [|apply H, Hd].
      intro K. apply isSpace_WhiteSpace in K. rewrite K in Hc. discriminate.
    + intro H. split; [|intros d Hd; apply H; now right].
      destruct (isSpace c) eqn:E; [|reflexivity].
      exfalso. apply (H c); [now left|]. apply isSpace_WhiteSpace, E.
Qed.

(** ** Normalisation of labels *)

Lemma isMiscellaneous_isNoise (c : ascii) : isMiscellaneous c = isNoise c.
Proof. destruct c as [[] [] [] [] [] [] [] []]; reflexivity. Qed.

Lemma toLowerChar_smallLetterOf (c : ascii) :
  (nat_of_ascii c <? 192)%nat = true -> toLowerChar c = smallLetterOf c.
Proof.
  destruct c as [[] [] [] [] [] [] [] []]; intro H;
    first [reflexivity|discriminate H].
Qed.

Lemma condense_normalized (s : string) : plain s -> condense s = normalized s.
Proof.
  unfold plain, condense, normalized. induction s as [|c s IH]; intro H.
  - reflexivity.
  - cbn [removeChars list_ascii_of_string filter].
    rewrite isMiscellaneous_isNoise.
    assert (Hs : forall d, In d (list_ascii_of_string s) ->
                           (nat_of_ascii d < 192)%nat)
      by (intros d Hd; apply H; now right).
    destruct (isNoise c); cbn [negb].
    + apply IH, Hs.
    + cbn [toLowerCase mapString map string_of_list_ascii].
      rewrite toLowerChar_smallLetterOf
        by (apply Nat.ltb_lt, H; now left).
      f_equal. apply IH, Hs.
Qed.

Lemma append_empty_r (s : string) : (s ++ EmptyString)%string = s.
Proof. induction s as [|c s IH]; cbn; [reflexivity|now rewrite IH]. Qed.

Lemma join_concatenation (chain : list Element) :
  join (map text chain) = concatenation chain.
Proof.
  unfold join, concatenation. induction chain as [|e chain IH]; [reflexivity|].
  cbn [map fold_right]. rewrite <- IH.
  destruct chain as [|e' chain]; cbn; [now rewrite append_empty_r|reflexivity].
Qed.

Lemma condensedTextOf_normalized (chain : list Element) :
  plain (concatenation chain) ->
  condensedTextOf chain = normalized (concatenation chain).
Proof.
  intro H. unfold condensedTextOf. rewrite join_concatenation.
  apply condense_normalized, H.
Qed.

Lemma list_ascii_of_string_append (a b : string) :
  list_ascii_of_string (a ++ b)%string
  = list_ascii_of_string a ++ list_ascii_of_string b.
Proof. induction a as [|c a IH]; cbn; [reflexivity|now rewrite IH]. Qed.

Lemma plain_concatenation (chain : list Element) :
  (forall e, In e chain -> plain (text e)) -> plain (concatenation chain).
Proof.
  unfold concatenation. induction chain as [|e chain IH]; intro H.
  - intros c [].
  - cbn [map fold_right]. intros c Hc.
    rewrite list_ascii_of_string_append in Hc. apply in_app_or in Hc.
    destruct Hc as [Hc|Hc].
    + apply (H e); [now left|exact Hc].
    + apply IH; [|exact Hc]. intros e' He'. apply H. now right.
Qed.

Lemma editDistance_zero (a b : string) : editDistance a b = 0%nat -> a = b.
Proof.
  revert b. induction a as [|ca a IH]; intro b.
  - cbn. destruct b; [reflexivity|discriminate].
  - destruct b as [|cb b].
    + rewrite editDistance_nil_r. discriminate.
    + rewrite editDistance_cons. intro H.
      destruct (Ascii.eqb ca cb) eqn:E.
      * apply Ascii.eqb_eq in E. subst cb. f_equal. apply IH. lia.
      * lia.
Qed.

(** ** Fuzzy anchor matching *)

Lemma didYouMean_single (input candidate : string) (t : nat) :
  didYouMean input [candidate] t
  = if (editDistance (normalizeString input) (normalizeString candidate) <=? t)%nat
    then Some candidate else None.
Proof.
  unfold didYouMean, firstClosest. cbn [fold_left].
  rewrite leven_editDistance. reflexivity.
Qed.

Lemma rankText_spec (currentText exact candidate : string) :
  normalizeString currentText = currentText ->
  normalizeString candidate = exact ->
  rankText currentText exact candidate
  = if String.eqb currentText exact then Some 0%nat
    else if (editDistance currentText exact <=? 1)%nat then Some 1%nat
    else if (editDistance currentText exact <=? 2)%nat then Some 2%nat
    else None.
Proof.
  intros Ht Hc. unfold rankText. rewrite !didYouMean_single, Ht, Hc.
  destruct (String.eqb currentText exact); [reflexivity|].
  destruct (editDistance currentText exact <=? 1)%nat; [reflexivity|].
  destruct (editDistance currentText exact <=? 2)%nat; reflexivity.
Qed.

Lemma considerChain_ranked (rightElement : Element) (chain : list Element)
  (exact candidate : string) :
  normalizeString candidate = exact ->
  String.length candidate = String.length exact ->
  rankedByDistance rightElement chain exact
    (considerChain rightElement chain exact candidate).
Proof.
  intros Hc Hlen. unfold rankedByDistance, considerChain.
  set (currentText := condensedTextOf chain).
  assert (Ht : normalizeString currentText = currentText)
    by apply normalizeString_condense.
  rewrite (rankText_spec _ _ _ Ht Hc).
  pose proof (editDistance_lengths currentText exact) as [L1 L2].
  pose proof (editDistance_refl exact) as R.
  unfold strlen. rewrite Hlen.
  assert (Hneq : forall d, editDistance currentText exact = d -> d <> 0%nat ->
                           String.eqb currentText exact = false).
  { intros d Hd Hd0. apply String.eqb_neq. intro E. rewrite E, R in Hd. lia. }
  repeat split.
  - intro E. rewrite E in *. rewrite R in L1, L2.
    destruct (Z.gtb_spec (Z.of_nat (String.length exact))
                         (Z.of_nat (String.length exact) + 2)); [lia|].
    destruct (Z.geb_spec (Z.of_nat (String.length exact))
                         (Z.of_nat (String.length exact) - 2)); [|lia].
    now rewrite String.eqb_refl.
  - intro D. rewrite D in *.
    destruct (Z.gtb_spec (Z.of_nat (String.length currentText))
                         (Z.of_nat (String.length exact) + 2)); [lia|].
    destruct (Z.geb_spec (Z.of_nat (String.length currentText))
                         (Z.of_nat (String.length exact) - 2)); [|lia].
    rewrite (Hneq 1%nat) by (auto; lia). reflexivity.
  - intro D. rewrite D in *.
    destruct (Z.gtb_spec (Z.of_nat (String.length currentText))
                         (Z.of_nat (String.length exact) + 2)); [lia|].
    destruct (Z.geb_spec (Z.of_nat (String.length currentText))
                         (Z.of_nat (String.length exact) - 2)); [|lia].
    rewrite (Hneq 2%nat) by (auto; lia). reflexivity.
  - intro D.
    destruct (Z.gtb_spec (Z.of_nat (String.length currentText))
                         (Z.of_nat (String.length exact) + 2)); [now left|].
    right.
    destruct (Z.geb_spec (Z.of_nat (String.length currentText))
                         (Z.of_nat (String.length exact) - 2)); [|reflexivity].
    rewrite (Hneq _ eq_refl) by lia.
    destruct (Nat.leb_spec (editDistance currentText exact) 1); [lia|].
    destruct (Nat.leb_spec (editDistance currentText exact) 2); [lia|].
    reflexivity.
Qed.


(** The first pass of the loop records what the body finds for the
    one-element chain. *)
Lemma collectMatches_first_pass (fuel : nat) (elements : list Element)
  (exact candidate : string) (element : Element) (found : list Match) :
  considerChain element [element] exact candidate = Some found ->
  exists later,
    collectMatches (S fuel) elements exact candidate element [] []
    = found ++ later.
Proof.
  intro H. cbn [collectMatches app]. rewrite H. cbn [app].
  destruct (getRightElement elements element) as [next|];
    [|exists []; now rewrite app_nil_r].
  destruct (List.length [element] <? 5)%nat; [|exists []; now rewrite app_nil_r].
  clear H. generalize [element] as chain. revert next found.
  induction fuel as [|fuel IH]; intros next found chain;
    [exists []; now rewrite app_nil_r|].
  cbn [collectMatches].
  destruct (considerChain next (chain ++ [next]) exact candidate) as [more|];
    [|exists []; now rewrite app_nil_r].
  destruct (getRightElement elements next) as [next'|];
    [|exists more; reflexivity].
  destruct (List.length (chain ++ [next]) <? 5)%nat; [|exists more; reflexivity].
  destruct (IH next' (found ++ more) (chain ++ [next])) as [later E].
  exists (more ++ later). rewrite E. now rewrite app_assoc.
Qed.

Lemma bestMatchOf_from (targetLength : Z) (matches : list Match) :
  forall start best,
    fold_left
      (fun previous current =>
         match previous with
         | None => Some current
         | Some p =>
             if (threshold current <? threshold p)%nat
                || ((threshold current =? threshold p)%nat
                    && (Z.abs (strlen (trim (matchText current)) - targetLength)
                        <? Z.abs (strlen (trim (matchText p)) - targetLength))%Z)
             then Some current
             else previous
         end)
      matches (Some start) = Some best ->
    (best = start \/ In best matches)
    /\ (threshold best <= threshold start)%nat
    /\ Forall (fun m => (threshold best <= threshold m)%nat) matches.
Proof.
  induction matches as [|c matches IH]; intros start best H; cbn [fold_left] in H.
  - inversion H; subst. split; [now left|]. split; [lia|constructor].
  - destruct ((threshold c <? threshold start)%nat
              || ((threshold c =? threshold start)%nat
                  && (Z.abs (strlen (trim (matchText c)) - targetLength)
                      <? Z.abs (strlen (trim (matchText start)) - targetLength))%Z))
      eqn:E.
    + destruct (IH _ _ H) as (Hin & Hle & Hall).
      assert (Hc : (threshold c <= threshold start)%nat).
      { apply orb_true_iff in E. destruct E as [E|E].
        - apply Nat.ltb_lt in E. lia.
        - apply andb_true_iff in E. destruct E as [E _].
          apply Nat.eqb_eq in E. lia. }
      split; [right; destruct Hin as [->|Hin]; [now left|now right]|].
      split; [lia|]. constructor; [exact Hle|exact Hall].
    + destruct (IH _ _ H) as (Hin & Hle & Hall).
      assert (Hc : (threshold start <= threshold c)%nat).
      { apply orb_false_iff in E. destruct E as [E _].
        apply Nat.ltb_ge in E. exact E. }
      split; [destruct Hin as [->|Hin]; [now left|right; now right]|].
      split; [exact Hle|]. constructor; [lia|exact Hall].
Qed.

(** The best match is one of the recorded matches and none has a lower
    rank. *)
Lemma bestMatchOf_least (targetLength : Z) (matches : list Match) (best : Match) :
  bestMatchOf targetLength matches = Some best ->
  In best matches
  /\ Forall (fun m => (threshold best <= threshold m)%nat) matches.
Proof.
  unfold bestMatchOf. destruct matches as [|c matches]; [discriminate|].
  cbn [fold_left]. intro H.
  destruct (bestMatchOf_from _ _ _ _ H) as (Hin & Hle & Hall).
  split; [destruct Hin as [->|Hin]; [now left|now right]|].
  constructor; assumption.
Qed.

(** The renderings of the label named by the specification. *)
Example exact_label_has_rank_0 :
  map threshold (startMatches [exactAnchor] exactAnchor) = [0%nat]
  /\ findStartElements [exactAnchor] = [exactAnchor].
Proof. split; vm_compute; reflexivity. Qed.

Example stray_character_has_rank_1 :
  map threshold (startMatches [strayAnchor] strayAnchor) = [1%nat]
  /\ findStartElements [strayAnchor] = [strayAnchor].
Proof. split; vm_compute; reflexivity. Qed.

Example two_edits_have_rank_2 :
  map threshold (startMatches [twoEditAnchor] twoEditAnchor) = [2%nat]
  /\ findStartElements [twoEditAnchor] = [twoEditAnchor].
Proof. split; vm_compute; reflexivity. Qed.

Example three_edits_do_not_match :
  startMatches [threeEditAnchor] threeEditAnchor = []
  /\ findStartElements [threeEditAnchor] = [].
Proof. split; vm_compute; reflexivity. Qed.

Lemma collectMatches_fuel_enough (fuel : nat) :
  forall elements exact candidate rightElement rightElements matches,
    (1 <= fuel)%nat -> (5 <= fuel + List.length rightElements)%nat ->
    collectMatches (S fuel) elements exact candidate rightElement
                   rightElements matches
    = collectMatches fuel elements exact candidate rightElement
                     rightElements matches.
Proof.
  induction fuel as [|fuel IH]; intros elements exact candidate rightElement
                                       rightElements matches H1 H5; [lia|].
  cbn [collectMatches].
  destruct (considerChain _ _ _ _) as [found|]; [|reflexivity].
  destruct (getRightElement elements rightElement) as [next|]; [|reflexivity].
  destruct (Nat.ltb_spec (List.length (rightElements ++ [rightElement])) 5)
    as [Hlt|Hge]; [|reflexivity].
  rewrite length_app in Hlt. cbn in Hlt.
  change (collectMatches (S fuel) elements exact candidate next
            (rightElements ++ [rightElement]) (matches ++ found)
          = collectMatches fuel elements exact candidate next
              (rightElements ++ [rightElement]) (matches ++ found)).
  apply IH; rewrite ?length_app; cbn; lia.
Qed.

(** ** Ownership of elements *)

Lemma assignOwner_length (element : Element) (cells : list Cell) :
  List.length (assignOwner element cells) = List.length cells.
Proof.
  induction cells as [|cell rest IH]; [reflexivity|].
  cbn. destruct (Qgtb _ 50); cbn; [reflexivity|now rewrite IH].
Qed.

Lemma ownerIndex_assignOwner (e element : Element) (cells : list Cell) :
  ownerIndex e (assignOwner element cells) = ownerIndex e cells.
Proof.
  induction cells as [|cell rest IH]; [reflexivity|].
  cbn. destruct (Qgtb (getPercentageOfElementInCell element cell) 50); cbn.
  - reflexivity.
  - now rewrite IH.
Qed.

Lemma assignOwner_nth (element : Element) (cells : list Cell) :
  forall i cell,
    nth_error cells i = Some cell ->
    nth_error (assignOwner element cells) i
    = Some (mkCell (cellBounds cell)
                   (elements cell
                    ++ if ownedBy i cells element then [element] else [])).
Proof.
  induction cells as [|c rest IH]; intros i cell Hi.
  - destruct i; discriminate.
  - unfold ownedBy. cbn [assignOwner ownerIndex].
    destruct (Qgtb (getPercentageOfElementInCell element c) 50) eqn:E.
    + destruct i as [|i]; cbn in *.
      * now inversion Hi.
      * rewrite Hi, app_nil_r. now destruct cell.
    + destruct i as [|i]; cbn in *.
      * inversion Hi; subst. destruct (ownerIndex element rest); cbn;
          rewrite app_nil_r; now destruct cell.
      * rewrite (IH _ _ Hi). unfold ownedBy.
        destruct (ownerIndex element rest); reflexivity.
Qed.

Lemma allocateElements_nth (pageElements : list Element) :
  forall cells i cell,
    nth_error cells i = Some cell ->
    nth_error (allocateElements pageElements cells) i
    = Some (mkCell (cellBounds cell)
                   (elements cell ++ filter (ownedBy i cells) pageElements)).
Proof.
  induction pageElements as [|e es IH]; intros cells i cell Hi.
  - cbn. rewrite app_nil_r. now destruct cell.
  - cbn [allocateElements fold_left].
    change (fold_left _ es (assignOwner e cells))
      with (allocateElements es (assignOwner e cells)).
    rewrite (IH _ _ _ (assignOwner_nth e cells i cell Hi)). cbn [cellBounds elements].
    f_equal. f_equal. rewrite <- app_assoc. f_equal.
    assert (Hf : filter (ownedBy i (assignOwner e cells)) es
                 = filter (ownedBy i cells) es).
    { apply filter_ext. intro a. unfold ownedBy.
      now rewrite ownerIndex_assignOwner. }
    rewrite Hf. cbn [filter]. destruct (ownedBy i cells e); reflexivity.
Qed.

Lemma allocateElements_length (pageElements : list Element) :
  forall cells, List.length (allocateElements pageElements cells) = List.length cells.
Proof.
  induction pageElements as [|e es IH]; intro cells; [reflexivity|].
  cbn [allocateElements fold_left].
  change (fold_left _ es (assignOwner e cells))
    with (allocateElements es (assignOwner e cells)).
  now rewrite IH, assignOwner_length.
Qed.

Lemma ownerIndex_first (e : Element) (cells : list Cell) (i : nat) :
  ownerIndex e cells = Some i
  <-> (exists cell, nth_error cells i = Some cell
                    /\ 50 < getPercentageOfElementInCell e cell)
      /\ (forall j c, (j < i)%nat -> nth_error cells j = Some c ->
                      getPercentageOfElementInCell e c <= 50).
Proof.
  revert i. induction cells as [|c rest IH]; intro i.
  - cbn. split; [discriminate|]. intros [[cell [H _]] _]. destruct i; discriminate.
  - cbn [ownerIndex].
    destruct (Qgtb (getPercentageOfElementInCell e c) 50) eqn:E.
    + apply Qgtb_gt in E. split.
      * intro H. inversion H; subst. split.
        -- exists c. split; [reflexivity|exact E].
        -- intros j c' Hj. lia.
      * intros [_ Hall]. destruct i as [|i]; [reflexivity|].
        specialize (Hall O c (Nat.lt_0_succ i) eq_refl). lra.
    + apply Qgtb_le in E. split.
      * intro H. destruct (ownerIndex e rest) as [k|] eqn:Ek; [|discriminate].
        cbn in H. inversion H; subst.
        destruct (proj1 (IH k) eq_refl) as [Hex Hall].
        split; [exact Hex|].
        intros j c' Hj Hn. destruct j as [|j]; cbn in Hn.
        -- inversion Hn; subst. exact E.
        -- apply (Hall j c'); [lia|exact Hn].
      * intros [[cell [Hn Hgt]] Hall]. destruct i as [|i]; cbn in Hn.
        -- inversion Hn; subst. lra.
        -- assert (Hk : ownerIndex e rest = Some i).
           { apply IH. split; [now exists cell|].
             intros j c' Hj Hc'. apply (Hall (S j) c'); [lia|exact Hc']. }
           now rewrite Hk.
Qed.

Lemma groupSections_elements (pageElements : list Element)
  (cells1 cells2 : list Cell) (startElements : list Element) :
  map groupElements (groupSections pageElements cells1 startElements)
  = map groupElements (groupSections pageElements cells2 startElements).
Proof.
  induction startElements as [|s later IH]; [reflexivity|].
  cbn [groupSections map groupElements]. now rewrite IH.
Qed.

(** C7.  After the allocation loop the cell at each position owns, after
    what it held before, exactly those page elements, in page order, for
    which it is the first cell in scan order holding more than 50% of the
    element; so no element is owned by two cells, an element that no cell
    dominates is owned by none, and the elements given to the section
    windows are the same whatever the allocation did. *)
Theorem ownership_first_dominant_cell
  (pageElements : list Element) (cells : list Cell) :
  let owned := allocateElements pageElements cells in
  List.length owned = List.length cells
  /\ (forall i cell,
         nth_error cells i = Some cell ->
         nth_error owned i
         = Some (mkCell (cellBounds cell)
                        (elements cell ++ filter (ownedBy i cells) pageElements)))
  /\ (forall e i,
         ownedBy i cells e = true
         <-> (exists cell, nth_error cells i = Some cell
                           /\ 50 < getPercentageOfElementInCell e cell)
             /\ (forall j c, (j < i)%nat -> nth_error cells j = Some c ->
                             getPercentageOfElementInCell e c <= 50))
  /\ (forall e i j,
         ownedBy i cells e = true -> ownedBy j cells e = true -> i = j)
  /\ (forall startElements,
         map groupElements (groupSections pageElements owned startElements)
         = map groupElements (groupSections pageElements cells startElements)).
Proof.
  cbv zeta. split; [apply allocateElements_length|].
  split; [apply allocateElements_nth|].
  split; [|split].
  - intros e i. rewrite <- ownerIndex_first. unfold ownedBy.
    destruct (ownerIndex e cells) as [j|]; split; intro H; try discriminate.
    + apply Nat.eqb_eq in H. now subst.
    + inversion H. apply Nat.eqb_refl.
  - intros e i j. unfold ownedBy.
    destruct (ownerIndex e cells) as [k|]; [|discriminate].
    intros Hi Hj. apply Nat.eqb_eq in Hi, Hj. congruence.
  - intro startElements. apply groupSections_elements.
Qed.

(** ** Field extractor and page loop *)

Section Records.

Variable momentStrict : string -> option string.
Variable today : string.

(** The heading cell of a boxed field exists but no cell starts at its
    top right corner: reading [.elements] of the missing cell raises. *)
Lemma missing_description_cell_throws
  (pageElements : list Element) (cells : list Cell) (url : string)
  (headingBounds : Rectangle) (headingCell : Cell) :
  findTextBounds pageElements "APPLICATION NO:" = Some headingBounds ->
  applicationNumberOf pageElements headingBounds <> EmptyString ->
  findHeadingCell cells "DESCRIPTION:" = Some headingCell ->
  findRightCell cells headingCell = None ->
  parseApplicationElements momentStrict today pageElements cells url = Threw.
Proof.
  intros Hb Hn Hh Hr. unfold parseApplicationElements.
  rewrite Hb. apply String.eqb_neq in Hn. rewrite Hn.
  unfold descriptionOf. rewrite Hh, Hr. reflexivity.
Qed.

Lemma missing_address_cell_throws
  (pageElements : list Element) (cells : list Cell) (url : string)
  (headingBounds : Rectangle) (headingCell : Cell) :
  findTextBounds pageElements "APPLICATION NO:" = Some headingBounds ->
  applicationNumberOf pageElements headingBounds <> EmptyString ->
  findHeadingCell cells "DESCRIPTION:" = None ->
  findHeadingCell cells "DATELODGED:" = None ->
  findHeadingCell cells "DEVELOPMENTADDRESS:" = Some headingCell ->
  findRightCell cells headingCell = None ->
  parseApplicationElements momentStrict today pageElements cells url = Threw.
Proof.
  intros Hb Hn Hd Hl Hh Hr. unfold parseApplicationElements.
  rewrite Hb. apply String.eqb_neq in Hn. rewrite Hn.
  unfold descriptionOf, receivedDateOf, addressOf. rewrite Hd, Hl, Hh, Hr.
  reflexivity.
Qed.

(** A missing heading, or a blank required field, is the soft failure. *)
Lemma missing_address_heading_returns_nothing
  (pageElements : list Element) (cells : list Cell) (url : string) :
  findHeadingCell cells "DEVELOPMENTADDRESS:" = None ->
  parseApplicationElements momentStrict today pageElements cells url = Returned None
  \/ parseApplicationElements momentStrict today pageElements cells url = Threw.
Proof.
  intro Hh. unfold parseApplicationElements. rewrite Hh.
  destruct (findTextBounds _ _); [|now left].
  destruct (String.eqb _ EmptyString); [now left|].
  destruct (descriptionOf cells); [|now right].
  destruct (receivedDateOf momentStrict cells); [|now right].
  now left.
Qed.

Lemma parseApplicationElements_record
  (pageElements : list Element) (cells : list Cell) (url : string)
  (app : DevelopmentApplication) :
  parseApplicationElements momentStrict today pageElements cells url
  = Returned (Some app) ->
  isBlank (address app) = false
  /\ exists d, descriptionOf cells = Returned d
               /\ description app = (if isBlank d then NoDescription else d).
Proof.
  unfold parseApplicationElements.
  destruct (findTextBounds _ _) as [hb|]; [|discriminate].
  destruct (String.eqb (applicationNumberOf pageElements hb) EmptyString);
    [discriminate|].
  destruct (descriptionOf cells) as [d|]; [|discriminate].
  cbn [bind].
  destruct (receivedDateOf momentStrict cells) as [received|]; [|discriminate].
  cbn [bind].
  destruct (findHeadingCell cells "DEVELOPMENTADDRESS:") as [h|]; [|discriminate].
  unfold addressOf.
  destruct (elementsOf (findRightCell cells h)) as [found|]; [|discriminate].
  cbn [bind].
  destruct (String.eqb (collapseSpaces (trim (join (map text found))))
                       EmptyString) eqn:E;
    [discriminate|].
  intro H. inversion H; subst; clear H. cbn [address description].
  split.
  - destruct (collapsed_trim_blank (join (map text found))) as [K|K];
      [|exact K].
    rewrite K in E. discriminate.
  - exists d. split; [reflexivity|].
    unfold isBlank. destruct (String.eqb (trim d) EmptyString); reflexivity.
Qed.

Lemma parseGroups_invariant (url : string)
  (P : DevelopmentApplication -> Prop) (groups : list ElementGroup) :
  (forall group app,
      In group groups ->
      parseApplicationElements momentStrict today
        (groupElements group) (groupCells group) url
      = Returned (Some app) -> P app) ->
  forall acc result,
    Forall P acc -> NoDup (map applicationNumber acc) ->
    parseGroups momentStrict today url groups acc = Returned result ->
    Forall P result /\ NoDup (map applicationNumber result).
Proof.
  induction groups as [|g later IH]; intros HP acc result HF HN Hres.
  - cbn in Hres. inversion Hres; subst. now split.
  - cbn [parseGroups] in Hres.
    destruct (parseApplicationElements momentStrict today (groupElements g)
                (groupCells g) url) as [[app|]|] eqn:E; cbn [bind] in Hres;
      [|apply (IH (fun group a Hin => HP group a (or_intror Hin)) acc result HF HN Hres)
       |discriminate].
    destruct (existsb _ acc) eqn:Ex.
    + apply (IH (fun group a Hin => HP group a (or_intror Hin)) acc result HF HN Hres).
    + apply (IH (fun group a Hin => HP group a (or_intror Hin))
                (acc ++ [app]) result); [| |exact Hres].
      * apply Forall_app. split; [exact HF|].
        constructor; [|constructor]. apply (HP g app (or_introl eq_refl) E).
      * rewrite map_app. cbn [map].
        apply NoDup_app; [exact HN|constructor; [intros []|constructor]|].
        intros number Hin [Heq|[]]. subst number.
        apply in_map_iff in Hin. destruct Hin as (other & Hnum & Hother).
        assert (K : existsb
                      (fun other => String.eqb (applicationNumber other)
                                               (applicationNumber app)) acc
                    = true).
        { apply existsb_exists. exists other. split; [exact Hother|].
          rewrite Hnum. apply String.eqb_refl. }
        congruence.
Qed.

Lemma parsePages_invariant (url : string) (allPages : list Page)
  (pages : list Page) :
  incl pages allPages ->
  forall acc result,
    Forall (extractedFrom momentStrict today url allPages) acc ->
    NoDup (map applicationNumber acc) ->
    parsePages momentStrict today url pages acc = Returned result ->
    Forall (extractedFrom momentStrict today url allPages) result
    /\ NoDup (map applicationNumber result).
Proof.
  induction pages as [|page later IH]; intros Hincl acc result HF HN Hres.
  - cbn in Hres. inversion Hres; subst. now split.
  - cbn [parsePages] in Hres.
    destruct (parseGroups momentStrict today url (pageGroups page) acc)
      as [acc'|] eqn:E; [|discriminate].
    cbn [bind] in Hres.
    destruct (parseGroups_invariant url (extractedFrom momentStrict today url allPages)
                (pageGroups page)) with (acc := acc) (result := acc')
      as [HF' HN']; try assumption.
    { intros group app Hin Hp. exists page, group.
      split; [apply Hincl; now left|]. now split. }
    apply (IH (fun p Hp => Hincl p (or_intror Hp)) acc' result HF' HN' Hres).
Qed.

Lemma parsePdf_invariant (url : string) (pages : list Page)
  (apps : list DevelopmentApplication) :
  parsePdf momentStrict today url pages = Returned apps ->
  Forall (extractedFrom momentStrict today url (firstn 500 pages)) apps
  /\ NoDup (map applicationNumber apps).
Proof.
  intro H. unfold parsePdf in H.
  apply (parsePages_invariant url (firstn 500 pages) (firstn 500 pages)
           (incl_refl _) [] apps); [constructor|constructor|exact H].
Qed.

End Records.

(** C10.  The records that [parsePdf] returns for a document carry
    pairwise distinct application numbers: a section whose number equals
    that of a record already collected from the document is not added. *)
Theorem parsePdf_distinct_application_numbers
  (momentStrict : string -> option string) (today url : string)
  (pages : list Page) (apps : list DevelopmentApplication) :
  parsePdf momentStrict today url pages = Returned apps ->
  NoDup (map applicationNumber apps).
Proof.
  intro H. apply (parsePdf_invariant momentStrict today url pages apps H).
Qed.

Lemma parsePdf_distinct_application_numbers_witness :
  parsePdf noDate "2019-03-21" "register.pdf" [registerPage; registerPage]
  = Returned [registerApplication]
  /\ NoDup (map applicationNumber [registerApplication]).
Proof.
  split.
  - vm_compute. reflexivity.
  - apply (parsePdf_distinct_application_numbers
             noDate "2019-03-21" "register.pdf" [registerPage; registerPage]).
    vm_compute. reflexivity.
Defined.

(** C4.  Every record that [parsePdf] returns was extracted from a section
    of one of the pages read.  Its address is not blank: it holds a
    character that is not white space.  Its description is the text of the
    description cell unless that text is blank, in which case it is the
    sentinel [NoDescription]; so the description is never blank either.
    Blank is meant in the words of the language standard ([blank]), not by
    way of [trim]. *)
Theorem records_have_address_and_description
  (momentStrict : string -> option string) (today url : string)
  (pages : list Page) (apps : list DevelopmentApplication)
  (app : DevelopmentApplication) :
  parsePdf momentStrict today url pages = Returned apps ->
  In app apps ->
  ~ blank (address app)
  /\ ~ blank (description app)
  /\ exists page group d,
       In page (firstn 500 pages) /\ In group (pageGroups page)
       /\ parseApplicationElements momentStrict today
            (groupElements group) (groupCells group) url
          = Returned (Some app)
       /\ descriptionOf (groupCells group) = Returned d
       /\ (blank d -> description app = NoDescription)
       /\ (~ blank d -> description app = d).
Proof.
  intros H Hin.
  destruct (parsePdf_invariant momentStrict today url pages apps H) as [HF _].
  rewrite Forall_forall in HF.
  destruct (HF app Hin) as (page & group & Hp & Hg & Hparse).
  destruct (parseApplicationElements_record momentStrict today _ _ _ _ Hparse)
    as (Ha & d & Hd & Hdesc).
  split; [apply isBlank_not_blank, Ha|]. split.
  - rewrite Hdesc. apply isBlank_not_blank.
    destruct (isBlank d) eqn:E; [reflexivity|exact E].
  - exists page, group, d. repeat split; try assumption.
    + intro B. apply isBlank_blank in B. now rewrite Hdesc, B.
    + intro B. apply isBlank_not_blank in B. now rewrite Hdesc, B.
Qed.

Lemma records_have_address_and_description_witness :
  exists app,
    parsePdf noDate "2019-03-21" "register.pdf" [noBreakDescriptionPage]
    = Returned [app]
    /\ ~ blank (address app)
    /\ description app = NoDescription.
Proof.
  exists registerApplication.
  assert (H : parsePdf noDate "2019-03-21" "register.pdf" [noBreakDescriptionPage]
              = Returned [registerApplication]) by (vm_compute; reflexivity).
  split; [exact H|].
  destruct (records_have_address_and_description
              noDate "2019-03-21" "register.pdf" [noBreakDescriptionPage]
              [registerApplication] registerApplication H
              (or_introl eq_refl)) as (Ha & _).
  split; [exact Ha|reflexivity].
Defined.

(** A section whose address cell holds nothing but a no-break space yields
    no record. *)
Example noBreakAddress_dropped :
  parsePdf noDate "2019-03-21" "register.pdf" [noBreakAddressPage] = Returned [].
Proof. vm_compute. reflexivity. Qed.

(** C1 (defect).  On [brokenPage] the section has its application number
    and the heading cell "DEVELOPMENT ADDRESS:", but no cell starts at the
    heading cell's top right corner.  [parseApplicationElements] raises
    instead of returning no record, and [parsePdf] raises with it: the
    valid page that follows is never read, although on its own it yields a
    record. *)
Theorem missing_value_cell_aborts_document :
  (exists group headingCell,
      pageGroups brokenPage = [group]
      /\ findHeadingCell (groupCells group) "DEVELOPMENTADDRESS:"
         = Some headingCell
      /\ findRightCell (groupCells group) headingCell = None
      /\ parseApplicationElements noDate "2019-03-21"
           (groupElements group) (groupCells group) "register.pdf"
         = Threw)
  /\ parsePdf noDate "2019-03-21" "register.pdf" [brokenPage; registerPage]
     = Threw
  /\ parsePdf noDate "2019-03-21" "register.pdf" [registerPage]
     = Returned [registerApplication].
Proof.
  split; [|split; vm_compute; reflexivity].
  eexists. eexists.
  split; [vm_compute; reflexivity|].
  split; [vm_compute; reflexivity|].
  split; vm_compute; reflexivity.
Qed.

(** ** Section windows *)

Lemma getRowTop_fold_le (pageElements : list Element) (start : Rectangle) :
  forall top,
    fold_left
      (fun top (element : Element) =>
         if Qltb (y element) (y start + height start)
            && Qgtb (y element + height element) (y start)
         then
           if Qgtb (getVerticalOverlapPercentage start element) 50
           then if Qltb (y element) top then y element else top
           else top
         else top)
      pageElements top <= top.
Proof.
  induction pageElements as [|e es IH]; intro top; cbn [fold_left].
  - apply Qle_refl.
  - destruct (_ && _); [|apply IH].
    destruct (Qgtb _ 50); [|apply IH].
    destruct (Qltb (y e) top) eqn:E; [|apply IH].
    apply Qltb_lt in E. apply Qle_trans with (y e); [apply IH|].
    apply Qlt_le_weak, E.
Qed.

Lemma getRowTop_le (pageElements : list Element) (start : Rectangle) :
  getRowTop pageElements start <= y start.
Proof. apply getRowTop_fold_le. Qed.

Lemma inWindow_spec (rowTop nextRowTop : Q) (r : Rectangle) :
  inWindow rowTop nextRowTop r = true
  <-> rowTop <= y r /\ y r + height r < nextRowTop.
Proof.
  unfold inWindow. rewrite andb_true_iff, Qgeb_ge, Qltb_lt. reflexivity.
Qed.

Lemma groupSections_nth (pageElements : list Element) (cells : list Cell)
  (startElements : list Element) :
  forall i group,
    nth_error (groupSections pageElements cells startElements) i = Some group ->
    exists window,
      nth_error (windowsOf pageElements startElements) i = Some window
      /\ nth_error startElements i = Some (startElement group)
      /\ fst window = getRowTop pageElements (raise (startElement group))
      /\ groupElements group
         = filter (fun element : Element => inWindow (fst window) (snd window) element)
                  pageElements
      /\ groupCells group
         = filter (fun cell : Cell => inWindow (fst window) (snd window) cell)
                  cells.
Proof.
  induction startElements as [|start later IH]; intros i group Hi.
  - destruct i; discriminate.
  - destruct i as [|i].
    + cbn in Hi. inversion Hi; subst; clear Hi.
      eexists. cbn [windowsOf nth_error startElement groupElements groupCells].
      split; [reflexivity|]. cbn [fst snd]. repeat split.
    + cbn [groupSections nth_error] in Hi.
      destruct (IH i group Hi) as (window & Hw & Hs & Ht & He & Hc).
      exists window. cbn [windowsOf nth_error]. repeat split; assumption.
Qed.

Lemma groupSections_length (pageElements : list Element) (cells : list Cell)
  (startElements : list Element) :
  List.length (groupSections pageElements cells startElements)
  = List.length startElements.
Proof.
  induction startElements as [|start later IH]; [reflexivity|].
  cbn [groupSections List.length]. now rewrite IH.
Qed.

(** C5 (amended).  The sections of a page answer its anchors one to one.
    An element is in section [i] exactly when it is an element of the page
    whose top is at or below the window's start and whose bottom edge
    [y + height] is strictly above the window's end, where the start is the
    row top of anchor [i] raised by half its height (so it lies at least
    that far above the anchor) and the end is the row top of anchor [i+1]
    as it stands, or [MAX_VALUE] for the last anchor.  An element of
    non-negative height that is in the section therefore has its top in the
    half-open window. *)
Theorem section_membership (page : Page) (i : nat) (group : ElementGroup) :
  nth_error (pageGroups page) i = Some group ->
  List.length (pageGroups page)
  = List.length (findStartElements (normalizedElements page))
  /\ exists window,
       nth_error (sectionWindows page) i = Some window
       /\ nth_error (findStartElements (normalizedElements page)) i
          = Some (startElement group)
       /\ fst window <= y (startElement group) - height (startElement group) / 2
       /\ (forall e,
              In e (groupElements group)
              <-> In e (normalizedElements page)
                  /\ fst window <= y e /\ y e + height e < snd window)
       /\ (forall e,
              In e (groupElements group) -> 0 <= height e ->
              fst window <= y e /\ y e < snd window).
Proof.
  intro Hi. unfold pageGroups in *. split; [apply groupSections_length|].
  destruct (groupSections_nth _ _ _ _ _ Hi) as (window & Hw & Hs & Ht & He & _).
  exists window. split; [exact Hw|]. split; [exact Hs|].
  assert (Hmem : forall e,
             In e (groupElements group)
             <-> In e (normalizedElements page)
                 /\ fst window <= y e /\ y e + height e < snd window).
  { intro e. rewrite He, filter_In, inWindow_spec. reflexivity. }
  split; [|split].
  - rewrite Ht. apply (getRowTop_le _ (raise (startElement group))).
  - exact Hmem.
  - intros e Hin Hh. apply Hmem in Hin. destruct Hin as (_ & H1 & H2).
    split; [exact H1|lra].
Qed.

Lemma section_membership_witness :
  nth_error (pageGroups twoAnchorPage) 0 = Some firstSection
  /\ exists window,
       nth_error (sectionWindows twoAnchorPage) 0 = Some window
       /\ (In leewayElement (groupElements firstSection)
           <-> In leewayElement (normalizedElements twoAnchorPage)
               /\ fst window <= y leewayElement
               /\ y leewayElement + height leewayElement < snd window).
Proof.
  assert (H : nth_error (pageGroups twoAnchorPage) 0 = Some firstSection)
    by (vm_compute; reflexivity).
  split; [exact H|].
  destruct (section_membership twoAnchorPage 0 firstSection H)
    as (_ & window & Hw & _ & _ & Hmem & _).
  exists window. split; [exact Hw|apply Hmem].
Defined.

(** C5 (as stated) fails on [twoAnchorPage]: the tall element has its top
    in the first window and is in no section, and the small element above
    the second anchor is in both sections. *)
Lemma sections_do_not_partition_by_top :
  ~ topInWindowIsMember twoAnchorPage
  /\ ~ sectionsDisjoint twoAnchorPage
  /\ ~ sectionsPartitionByTop twoAnchorPage.
Proof.
  assert (Hg : pageGroups twoAnchorPage = [firstSection; secondSection])
    by (vm_compute; reflexivity).
  assert (H1 : ~ topInWindowIsMember twoAnchorPage).
  { intro H.
    specialize (H 0%nat firstSection (-1410 # 2, -600) tallElement).
    assert (K : In tallElement (groupElements firstSection)).
    { apply H.
      - rewrite Hg. reflexivity.
      - vm_compute. reflexivity.
      - vm_compute. right. right. left. reflexivity.
      - vm_compute. discriminate.
      - vm_compute. reflexivity. }
    cbn in K. unfold tallElement, leewayElement, textAt in K.
    destruct K as [K|[K|[K|[]]]]; discriminate K. }
  assert (H2 : ~ sectionsDisjoint twoAnchorPage).
  { intro H.
    apply (H 0%nat 1%nat firstSection secondSection leewayElement).
    - discriminate.
    - rewrite Hg. reflexivity.
    - rewrite Hg. reflexivity.
    - cbn. right. right. left. reflexivity.
    - cbn. left. reflexivity. }
  split; [exact H1|]. split; [exact H2|].
  intros [H _]. exact (H1 H).
Qed.

(** ** Sorting *)

Section SortedByKey.

Context {A : Type} (key : A -> Q).

#[local] Instance sameKey_equivalence : Equivalence (sameKey key).
Proof.
  unfold sameKey. split.
  - intro a. reflexivity.
  - intros a b H. symmetry. exact H.
  - intros a b c H1 H2. rewrite H1. exact H2.
Qed.

#[local] Instance keyLt_strict : StrictOrder (keyLt key).
Proof.
  unfold keyLt. split.
  - intros a H. apply (Qlt_irrefl _ H).
  - intros a b c H1 H2. apply (Qlt_trans _ _ _ H1 H2).
Qed.

Lemma keyComparer_le (a b : A) :
  (keyComparer key a b <=? 0)%Z = true <-> key a <= key b.
Proof.
  unfold keyComparer.
  destruct (Qgtb (key a) (key b)) eqn:E.
  - apply Qgtb_gt in E. split; [discriminate|]. intro H. lra.
  - apply Qgtb_le in E. split; [intros _; exact E|].
    intros _. destruct (Qltb (key a) (key b)); reflexivity.
Qed.

Lemma insertBy_Permutation (comparer : A -> A -> Z) (a : A) (l : list A) :
  Permutation (insertBy comparer a l) (a :: l).
Proof.
  induction l as [|b l IH]; cbn; [apply Permutation_refl|].
  destruct (comparer a b <=? 0)%Z; [apply Permutation_refl|].
  apply perm_trans with (b :: a :: l); [now apply perm_skip|apply perm_swap].
Qed.

Lemma sortBy_Permutation (comparer : A -> A -> Z) (l : list A) :
  Permutation (sortBy comparer l) l.
Proof.
  induction l as [|a l IH]; cbn; [apply perm_nil|].
  apply perm_trans with (a :: sortBy comparer l);
    [apply insertBy_Permutation|now apply perm_skip].
Qed.

Lemma sortBy_length (comparer : A -> A -> Z) (l : list A) :
  List.length (sortBy comparer l) = List.length l.
Proof. apply Permutation_length, sortBy_Permutation. Qed.

Lemma insertBy_HdRel (b a : A) (l : list A) :
  HdRel (keyLt key) b l -> keyLt key b a ->
  HdRel (keyLt key) b (insertBy (keyComparer key) a l).
Proof.
  intros Hl Ha. destruct l as [|c l]; cbn; [now constructor|].
  destruct (keyComparer key a c <=? 0)%Z; constructor; [exact Ha|].
  apply (HdRel_inv Hl).
Qed.

Lemma insertBy_Sorted (a : A) (l : list A) :
  Sorted (keyLt key) l ->
  (forall b, In b l -> ~ (sameKey key) a b) ->
  Sorted (keyLt key) (insertBy (keyComparer key) a l).
Proof.
  induction l as [|b l IH]; intros Hs Hd; cbn.
  - repeat constructor.
  - apply Sorted_inv in Hs. destruct Hs as [Hs Hh].
    destruct (keyComparer key a b <=? 0)%Z eqn:E.
    + apply keyComparer_le in E.
      assert (Hab : (keyLt key) a b).
      { unfold keyLt. specialize (Hd b (or_introl eq_refl)). unfold sameKey in Hd.
        apply Qle_lteq in E. destruct E as [E|E]; [exact E|contradiction]. }
      constructor; [constructor; assumption|constructor; exact Hab].
    + assert (Hba : (keyLt key) b a).
      { unfold keyLt. apply Qnot_le_lt. intro H.
        apply keyComparer_le in H. congruence. }
      constructor.
      * apply IH; [exact Hs|]. intros c Hc. apply Hd. now right.
      * apply insertBy_HdRel; assumption.
Qed.

Lemma sortBy_Sorted (l : list A) :
  NoDupA (sameKey key) l -> Sorted (keyLt key) (sortBy (keyComparer key) l).
Proof.
  induction l as [|a l IH]; intro Hd; cbn; [constructor|].
  inversion Hd as [|a' l' Hnot Hrest]; subst.
  apply insertBy_Sorted; [apply IH, Hrest|].
  intros b Hb Hab. apply Hnot. apply InA_alt. exists b. split; [exact Hab|].
  apply (Permutation_in _ (sortBy_Permutation _ l) Hb).
Qed.

Lemma eqlistA_eq_eq (l l' : list A) : eqlistA eq l l' -> l = l'.
Proof. induction 1; congruence. Qed.

Lemma Sorted_Permutation_eq (l l' : list A) :
  Sorted (keyLt key) l -> Sorted (keyLt key) l' -> Permutation l l' -> l = l'.
Proof.
  intros Hs Hs' Hp. apply eqlistA_eq_eq.
  apply (SortA_equivlistA_eqlistA eq_equivalence keyLt_strict); try assumption.
  - intros a a' -> b b' ->. reflexivity.
  - intro a. rewrite !InA_alt. split; intros (b & -> & Hb); exists b;
      (split; [reflexivity|]).
    + apply (Permutation_in _ Hp Hb).
    + apply (Permutation_in _ (Permutation_sym Hp) Hb).
Qed.

(** With pairwise distinct keys the sorted list does not depend on the
    order of the input. *)
Lemma sortBy_Permutation_eq (l l' : list A) :
  NoDupA (sameKey key) l -> Permutation l l' ->
  sortBy (keyComparer key) l = sortBy (keyComparer key) l'.
Proof.
  intros Hd Hp.
  assert (Hd' : NoDupA (sameKey key) l').
  { apply (PermutationA_preserves_NoDupA sameKey_equivalence) with l;
      [apply (Permutation_PermutationA sameKey_equivalence), Hp|exact Hd]. }
  apply Sorted_Permutation_eq; try (apply sortBy_Sorted; assumption).
  apply perm_trans with l; [apply sortBy_Permutation|].
  apply perm_trans with l'; [exact Hp|apply Permutation_sym, sortBy_Permutation].
Qed.

Lemma pairwiseDistinct_NoDupA (l : list A) :
  pairwiseDistinct (map key l) = true -> NoDupA (sameKey key) l.
Proof.
  induction l as [|a l IH]; cbn; intro H; [constructor|].
  apply andb_true_iff in H. destruct H as [Hn Hr].
  constructor; [|apply IH, Hr].
  intro Hin. apply InA_alt in Hin. destruct Hin as (b & Hab & Hb).
  apply negb_true_iff in Hn.
  assert (K : existsb (Qeq_bool (key a)) (map key l) = true).
  { apply existsb_exists. exists (key b). split; [now apply in_map|].
    apply Qeq_bool_iff, Hab. }
  congruence.
Qed.

(** A list that is already in strictly increasing key order is left
    unchanged. *)
Lemma sortBy_sorted_id (l : list A) :
  Sorted (keyLt key) l -> sortBy (keyComparer key) l = l.
Proof.
  induction l as [|a l IH]; intro Hs; cbn; [reflexivity|].
  apply Sorted_inv in Hs. destruct Hs as [Hs Hh].
  rewrite (IH Hs). destruct l as [|b l]; [reflexivity|].
  cbn. apply HdRel_inv in Hh.
  assert (E : (keyComparer key a b <=? 0)%Z = true).
  { apply keyComparer_le. apply Qlt_le_weak, Hh. }
  now rewrite E.
Qed.

End SortedByKey.

Lemma filter_Permutation {A : Type} (p : A -> bool) (l l' : list A) :
  Permutation l l' -> Permutation (filter p l) (filter p l').
Proof.
  induction 1 as [|a l l' H IH|a b l|l l' l'' H1 IH1 H2 IH2]; cbn.
  - apply perm_nil.
  - destruct (p a); [now apply perm_skip|exact IH].
  - destruct (p a), (p b); try apply Permutation_refl. apply perm_swap.
  - apply perm_trans with (filter p l'); assumption.
Qed.

(** ** Grid reconstruction under permutation *)

Lemma parseCells_Permutation (lines lines' : list Rectangle) :
  distinctRulings lines = true -> Permutation lines lines' ->
  parseCells lines = parseCells lines'.
Proof.
  intros Hd Hp. unfold distinctRulings in Hd.
  apply andb_true_iff in Hd. destruct Hd as [Hh Hv].
  unfold parseCells.
  change horizontalLineComparer with (keyComparer y1).
  change verticalLineComparer with (keyComparer x1).
  rewrite (sortBy_Permutation_eq y1 (horizontalLinesOf lines)
             (horizontalLinesOf lines')).
  - rewrite (sortBy_Permutation_eq x1 (verticalLinesOf lines)
               (verticalLinesOf lines')).
    + reflexivity.
    + apply pairwiseDistinct_NoDupA, Hv.
    + apply Permutation_map, filter_Permutation, Hp.
  - apply pairwiseDistinct_NoDupA, Hh.
  - apply Permutation_map, filter_Permutation, Hp.
Qed.



(** ** Ruled grids: arithmetic *)

Lemma Math_abs_lt (a t : Q) : Qltb (Math_abs a) t = true <-> - t < a /\ a < t.
Proof.
  rewrite Qltb_lt. unfold Math_abs.
  destruct (Qle_bool 0 a) eqn:E.
  - apply Qle_bool_iff in E. split; intro H; [split|]; lra.
  - assert (a < 0).
    { apply Qnot_le_lt. intro H. apply Qle_bool_iff in H. congruence. }
    split; intro H0; [split|]; lra.
Qed.

Lemma within_spec (ax ay bx by_ : Q) :
  within ax ay bx by_ = true
  <-> (ax - bx) * (ax - bx) + (ay - by_) * (ay - by_) < 9.
Proof.
  unfold within, sq, Tolerance. rewrite Qltb_lt.
  split; intro H; lra.
Qed.

Lemma inject_nat_le (i j : nat) :
  (i <= j)%nat -> inject_Z (Z.of_nat i) <= inject_Z (Z.of_nat j).
Proof. intro H. rewrite <- Zle_Qle. lia. Qed.

Lemma inject_nat_succ (i : nat) :
  inject_Z (Z.of_nat (S i)) == inject_Z (Z.of_nat i) + 1.
Proof. rewrite Nat2Z.inj_succ. unfold Z.succ. rewrite inject_Z_plus. reflexivity. Qed.

Lemma coordinate_step (origin step : Q) (i j : nat) :
  0 < step -> (i < j)%nat ->
  coordinate origin step i + step <= coordinate origin step j.
Proof.
  intros Hs Hij. unfold coordinate.
  assert (H : inject_Z (Z.of_nat i) + 1 <= inject_Z (Z.of_nat j)).
  { rewrite <- inject_nat_succ. apply inject_nat_le. lia. }
  nra.
Qed.

Lemma coordinate_le (origin step : Q) (i j : nat) :
  0 < step -> (i <= j)%nat ->
  coordinate origin step i <= coordinate origin step j.
Proof.
  intros Hs Hij. unfold coordinate.
  pose proof (inject_nat_le i j Hij). nra.
Qed.

Lemma coordinate_zero (origin step : Q) : coordinate origin step 0 == origin.
Proof. unfold coordinate. cbn. ring. Qed.

Lemma coordinate_eq (origin step : Q) (i j : nat) :
  0 < step -> coordinate origin step i == coordinate origin step j -> i = j.
Proof.
  intros Hs H.
  destruct (Nat.lt_trichotomy i j) as [L|[E|L]]; [|exact E|];
    pose proof (coordinate_step origin step _ _ Hs L); lra.
Qed.

(** Two crossing axis-aligned segments meet where expected. *)
Lemma intersectLines_crossing (h v : Line) :
  y1 h == y2 h -> x1 v == x2 v ->
  x1 h < x2 h -> y1 v < y2 v ->
  x1 h <= x1 v -> x1 v <= x2 h ->
  y1 v <= y1 h -> y1 h <= y2 v ->
  exists p, intersectLines h v true = Some p /\ px p == x1 v /\ py p == y1 h.
Proof.
  intros Hh Hv Hx Hy Hx1 Hx2 Hy1 Hy2. unfold intersectLines.
  assert (E1 : Qeq_bool (x1 h) (x2 h) = false) by (apply Qeq_bool_false; lra).
  assert (E2 : Qeq_bool (y1 v) (y2 v) = false) by (apply Qeq_bool_false; lra).
  rewrite E1, E2, andb_false_r. cbn [andb orb].
  set (den := (y2 v - y1 v) * (x2 h - x1 h) - (x2 h - x1 h) * (y2 h - y1 h)).
  assert (Hden : den == (y2 v - y1 v) * (x2 h - x1 h)).
  { unfold den. rewrite <- Hh. ring. }
  assert (Hpos : 0 < den).
  { rewrite Hden. apply Qmult_lt_0_compat; lra. }
  assert (E3 : Qeq_bool den 0 = false) by (apply Qeq_bool_false; lra).
  rewrite E3.
  set (d1 := ((x2 v - x1 v) * (y1 h - y1 v) - (y2 v - y1 v) * (x1 h - x1 v)) / den).
  set (d2 := ((x2 h - x1 h) * (y1 h - y1 v) - (y2 h - y1 h) * (x1 h - x1 v)) / den).
  assert (Hd1 : d1 * (x2 h - x1 h) == x1 v - x1 h).
  { unfold d1. rewrite Hden. rewrite <- Hv. field. split; lra. }
  assert (Hd2 : d2 * (y2 v - y1 v) == y1 h - y1 v).
  { unfold d2. rewrite Hden. rewrite <- Hh. field. split; lra. }
  assert (B1 : 0 <= d1 /\ d1 <= 1) by (split; nra).
  assert (B2 : 0 <= d2 /\ d2 <= 1) by (split; nra).
  assert (G1 : Qltb d1 0 = false) by (apply Qltb_ge; tauto).
  assert (G2 : Qgtb d1 1 = false) by (apply Qgtb_le; tauto).
  assert (G3 : Qltb d2 0 = false) by (apply Qltb_ge; tauto).
  assert (G4 : Qgtb d2 1 = false) by (apply Qgtb_le; tauto).
  rewrite G1, G2, G3, G4. cbn [andb orb].
  eexists. split; [reflexivity|]. cbn [px py]. split.
  - lra.
  - assert (K : y2 h - y1 h == 0) by lra. rewrite K. ring.
Qed.

Lemma square_above (d : Q) : 3 < d \/ d < -3 -> 9 < d * d.
Proof. intros [H|H]; nra. Qed.

Lemma square_nonneg (d : Q) : 0 <= d * d.
Proof. nra. Qed.

Lemma Sorted_map_seq {A : Type} (R : A -> A -> Prop) (f : nat -> A) :
  (forall i, R (f i) (f (S i))) ->
  forall n a, Sorted R (map f (seq a n)).
Proof.
  intros HR. induction n as [|n IH]; intro a; cbn; [constructor|].
  constructor; [apply IH|].
  destruct n; cbn; constructor. apply HR.
Qed.

Lemma filter_map_all {A B : Type} (p : B -> bool) (f : A -> B) (l : list A) :
  (forall a, In a l -> p (f a) = true) -> filter p (map f l) = map f l.
Proof.
  induction l as [|a l IH]; intro H; cbn; [reflexivity|].
  rewrite (H a (or_introl eq_refl)). f_equal. apply IH.
  intros b Hb. apply H. now right.
Qed.

Lemma filter_map_none {A B : Type} (p : B -> bool) (f : A -> B) (l : list A) :
  (forall a, In a l -> p (f a) = false) -> filter p (map f l) = [].
Proof.
  induction l as [|a l IH]; intro H; cbn; [reflexivity|].
  rewrite (H a (or_introl eq_refl)). apply IH.
  intros b Hb. apply H. now right.
Qed.

Lemma pairwiseDistinct_increasing (f : nat -> Q) :
  (forall i j, (i < j)%nat -> f i < f j) ->
  forall n a, pairwiseDistinct (map f (seq a n)) = true.
Proof.
  intro Hf. induction n as [|n IH]; intro a; cbn; [reflexivity|].
  rewrite IH, andb_true_r. apply negb_true_iff.
  destruct (existsb (Qeq_bool (f a)) (map f (seq (S a) n))) eqn:E; [|reflexivity].
  apply existsb_exists in E. destruct E as (v & Hv & Heq).
  apply in_map_iff in Hv. destruct Hv as (k & <- & Hk).
  apply in_seq in Hk. apply Qeq_bool_iff in Heq.
  assert (f a < f k) by (apply Hf; lia). lra.
Qed.

Lemma closest_defined (eligible : Point -> bool)
  (closer : Point -> Point -> bool) (points : list Point) :
  forall previous,
    isDefined
      (fold_left
         (fun previous current =>
            if eligible current
               && match previous with
                  | None => true
                  | Some p => closer current p
                  end
            then Some current
            else previous)
         points previous)
    = isDefined previous || existsb eligible points.
Proof.
  induction points as [|c points IH]; intro previous; cbn [fold_left existsb].
  - now rewrite orb_false_r.
  - rewrite IH. destruct previous as [p|]; cbn [isDefined orb].
    + destruct (eligible c && closer c p); reflexivity.
    + destruct (eligible c); reflexivity.
Qed.

Lemma closestRightPoint_defined (points : list Point) (point : Point) :
  isDefined (closestRightPoint points point) = existsb (isRightOf point) points.
Proof.
  unfold closestRightPoint.
  apply (closest_defined (isRightOf point)
           (fun current p => Qltb (px current - px point) (px p - px point))).
Qed.

Lemma closestDownPoint_defined (points : list Point) (point : Point) :
  isDefined (closestDownPoint points point) = existsb (isBelow point) points.
Proof.
  unfold closestDownPoint.
  apply (closest_defined (isBelow point)
           (fun current p => Qltb (py current - py point) (py p - py point))).
Qed.

Lemma cells_of_points_length (all points : list Point) :
  List.length
    (flat_map
       (fun point =>
          match closestRightPoint all point, closestDownPoint all point with
          | Some rightPoint, Some downPoint =>
              [mkCell (mkRectangle (px point) (py point)
                                   (px rightPoint - px point)
                                   (py downPoint - py point)) []]
          | _, _ => []
          end)
       points)
  = List.length
      (filter (fun point => existsb (isRightOf point) all
                            && existsb (isBelow point) all)
              points).
Proof.
  induction points as [|p points IH]; [reflexivity|].
  cbn [flat_map filter]. rewrite length_app, IH.
  rewrite <- closestRightPoint_defined, <- closestDownPoint_defined.
  destruct (closestRightPoint all p), (closestDownPoint all p); reflexivity.
Qed.

(** One cell for every point that has a right and a lower neighbour. *)
Lemma constructCells_length (points : list Point) :
  List.length (constructCells points)
  = List.length
      (filter (fun point => existsb (isRightOf point) points
                            && existsb (isBelow point) points)
              points).
Proof. apply cells_of_points_length. Qed.

Lemma NoDup_list_prod {A B : Type} (l : list A) (l' : list B) :
  NoDup l -> NoDup l' -> NoDup (list_prod l l').
Proof.
  intros Hl Hl'. induction Hl as [|a l Ha Hl IH]; cbn; [constructor|].
  apply NoDup_app.
  - clear -Hl'. induction Hl' as [|b l' Hb Hl' IH]; cbn; constructor; [|exact IH].
    intro H. apply in_map_iff in H. destruct H as (b' & E & Hb').
    inversion E; subst. contradiction.
  - exact IH.
  - intros [a' b] H1 H2. apply in_map_iff in H1. destruct H1 as (b' & E & _).
    inversion E; subst. apply in_prod_iff in H2. destruct H2 as [H2 _].
    contradiction.
Qed.

Lemma NoDupA_map_NoDup {A B : Type} (eqA : A -> A -> Prop) (f : A -> B)
  (l : list A) :
  (forall a b, In a l -> In b l -> f a = f b -> eqA a b) ->
  NoDupA eqA l -> NoDup (map f l).
Proof.
  intros Hf Hl. induction Hl as [|a l Ha Hl IH]; cbn; [constructor|].
  constructor.
  - intro H. apply in_map_iff in H. destruct H as (b & E & Hb).
    apply Ha. apply InA_alt. exists b. split; [|exact Hb].
    apply Hf; [now left|now right|now symmetry].
  - apply IH. intros x z Hx Hz. apply Hf; now right.
Qed.

Lemma filter_map_length {A B : Type} (p : B -> bool) (f : A -> B) (l : list A) :
  List.length (filter p (map f l))
  = List.length (filter (fun a => p (f a)) l).
Proof.
  induction l as [|a l IH]; cbn; [reflexivity|].
  destruct (p (f a)); cbn; now rewrite IH.
Qed.

(** ** Ruled grids: classification and sorting *)

Section RuledGrid.

Variable g : GridSpec.
Hypothesis regular : regularGrid g = true.


Lemma regular_facts :
  (2 <= gridRows g)%nat /\ (2 <= gridColumns g)%nat
  /\ 3 < columnStep g /\ 3 < rowStep g
  /\ 10 <= gridWidth g /\ 10 <= gridHeight g /\ ruleThickness g <= 3.
Proof.
  unfold regularGrid in regular.
  repeat (apply andb_true_iff in regular; destruct regular as [regular ?]).
  repeat split.
  - now apply Nat.leb_le.
  - now apply Nat.leb_le.
  - now apply Qltb_lt.
  - now apply Qltb_lt.
  - now apply Qle_bool_iff.
  - now apply Qle_bool_iff.
  - now apply Qle_bool_iff.
Qed.

Lemma isHorizontal_horizontalRule (i : nat) :
  isHorizontal (horizontalRule g i) = true.
Proof.
  destruct regular_facts as (_ & _ & _ & _ & Hw & _ & Ht).
  unfold isHorizontal, horizontalRule. cbn [height width].
  apply andb_true_iff. split; apply Qle_bool_iff; assumption.
Qed.

Lemma isHorizontal_verticalRule (j : nat) :
  isHorizontal (verticalRule g j) = false.
Proof.
  destruct regular_facts as (_ & _ & _ & _ & _ & Hh & _).
  unfold isHorizontal, verticalRule. cbn [height width].
  apply andb_false_iff. left. unfold Qleb.
  destruct (Qle_bool (gridHeight g) Tolerance) eqn:E; [|reflexivity].
  apply Qle_bool_iff in E. unfold Tolerance in E. lra.
Qed.

Lemma isVertical_verticalRule (j : nat) :
  isVertical (verticalRule g j) = true.
Proof.
  destruct regular_facts as (_ & _ & _ & _ & _ & Hh & Ht).
  unfold isVertical. rewrite isHorizontal_verticalRule.
  unfold verticalRule. cbn [height width negb andb].
  apply andb_true_iff. split; apply Qle_bool_iff; assumption.
Qed.

Lemma isVertical_horizontalRule (i : nat) :
  isVertical (horizontalRule g i) = false.
Proof. unfold isVertical. now rewrite isHorizontal_horizontalRule. Qed.

Lemma horizontalLinesOf_ruledGrid :
  horizontalLinesOf (ruledGrid g) = map (rowLine g) (seq 0 (gridRows g)).
Proof.
  unfold horizontalLinesOf, ruledGrid. rewrite filter_app.
  rewrite filter_map_all by (intros; apply isHorizontal_horizontalRule).
  rewrite filter_map_none by (intros; apply isHorizontal_verticalRule).
  rewrite app_nil_r, map_map. reflexivity.
Qed.

Lemma verticalLinesOf_ruledGrid :
  verticalLinesOf (ruledGrid g) = map (columnLine g) (seq 0 (gridColumns g)).
Proof.
  unfold verticalLinesOf, ruledGrid. rewrite filter_app.
  rewrite filter_map_none by (intros; apply isVertical_horizontalRule).
  rewrite filter_map_all by (intros; apply isVertical_verticalRule).
  cbn [app]. rewrite map_map. reflexivity.
Qed.

Lemma rowLines_sorted :
  sortBy horizontalLineComparer (map (rowLine g) (seq 0 (gridRows g)))
  = map (rowLine g) (seq 0 (gridRows g)).
Proof.
  destruct regular_facts as (_ & _ & _ & Hdy & _).
  change horizontalLineComparer with (keyComparer y1).
  apply sortBy_sorted_id. apply Sorted_map_seq.
  intro i. unfold keyLt, rowLine, horizontalLine, horizontalRule. cbn [y1 y].
  pose proof (coordinate_step (gridTop g) (rowStep g) i (S i)) as H.
  assert (0 < rowStep g) by lra. specialize (H H0 (Nat.lt_succ_diag_r i)). lra.
Qed.

Lemma columnLines_sorted :
  sortBy verticalLineComparer (map (columnLine g) (seq 0 (gridColumns g)))
  = map (columnLine g) (seq 0 (gridColumns g)).
Proof.
  destruct regular_facts as (_ & _ & Hdx & _).
  change verticalLineComparer with (keyComparer x1).
  apply sortBy_sorted_id. apply Sorted_map_seq.
  intro j. unfold keyLt, columnLine, verticalLine, verticalRule. cbn [x1 x].
  pose proof (coordinate_step (gridLeft g) (columnStep g) j (S j)) as H.
  assert (0 < columnStep g) by lra. specialize (H H0 (Nat.lt_succ_diag_r j)). lra.
Qed.


Lemma distinctRulings_ruledGrid : distinctRulings (ruledGrid g) = true.
Proof.
  destruct regular_facts as (_ & _ & Hdx & Hdy & _).
  unfold distinctRulings.
  rewrite horizontalLinesOf_ruledGrid, verticalLinesOf_ruledGrid, !map_map.
  apply andb_true_iff. split.
  - apply (pairwiseDistinct_increasing (fun i => y1 (rowLine g i))).
    intros i j Hij. cbn.
    assert (S0 : 0 < rowStep g) by lra.
    pose proof (coordinate_step (gridTop g) (rowStep g) i j S0 Hij). lra.
  - apply (pairwiseDistinct_increasing (fun j => x1 (columnLine g j))).
    intros i j Hij. cbn.
    assert (S0 : 0 < columnStep g) by lra.
    pose proof (coordinate_step (gridLeft g) (columnStep g) i j S0 Hij). lra.
Qed.

(** ** Ruled grids: the point lattice *)


Lemma samePoint_within (p q : Point) :
  samePoint p q -> within (px p) (py p) (px q) (py q) = true.
Proof. intros [Hx Hy]. apply within_spec. nra. Qed.

Lemma lattice_far (i j i' j' : nat) (p q : Point) :
  samePoint p (latticePoint g (i, j)) ->
  samePoint q (latticePoint g (i', j')) ->
  within (px p) (py p) (px q) (py q) = true ->
  i = i' /\ j = j'.
Proof.
  destruct regular_facts as (_ & _ & Hdx & Hdy & _).
  intros [Hpx Hpy] [Hqx Hqy] Hw. apply within_spec in Hw.
  cbn [latticePoint px py fst snd] in *.
  assert (Sx : 0 < columnStep g) by lra.
  assert (Sy : 0 < rowStep g) by lra.
  split.
  - destruct (Nat.lt_trichotomy i i') as [L|[E|L]]; [|exact E|];
      pose proof (coordinate_step (gridTop g) (rowStep g) _ _ Sy L);
      exfalso;
      pose proof (square_nonneg (px p - px q));
      assert (K : 9 < (py p - py q) * (py p - py q))
        by (apply square_above; lra);
      lra.
  - destruct (Nat.lt_trichotomy j j') as [L|[E|L]]; [|exact E|];
      pose proof (coordinate_step (gridLeft g) (columnStep g) _ _ Sx L);
      exfalso;
      pose proof (square_nonneg (py p - py q));
      assert (K : 9 < (px p - px q) * (px p - px q))
        by (apply square_above; lra);
      lra.
Qed.

Lemma addPoint_incl (points : list Point) (c : Point) :
  incl points (addPoint points c).
Proof.
  unfold addPoint. destruct (existsb _ points).
  - apply incl_refl.
  - apply incl_appl, incl_refl.
Qed.

Lemma NoDupA_snoc {A : Type} (eqA : A -> A -> Prop) (l : list A) (c : A) :
  (forall a b, eqA a b -> eqA b a) ->
  NoDupA eqA l -> ~ InA eqA c l -> NoDupA eqA (l ++ [c]).
Proof.
  intros Hsym Hl Hc. induction Hl as [|a l Ha Hl IH]; cbn.
  - constructor; [intro H; inversion H|constructor].
  - constructor.
    + intro H. apply InA_app in H. destruct H as [H|H]; [contradiction|].
      inversion H as [? ? E|? ? E]; subst; [|inversion E].
      apply Hc. left. apply Hsym, E.
    + apply IH. intro H. apply Hc. now right.
Qed.

Lemma addPoint_invariant (points : list Point) (c : Point) :
  latticeInvariant g points -> onLattice g c ->
  latticeInvariant g (addPoint points c).
Proof.
  intros [Hn Hf] Hc. unfold addPoint.
  destruct (existsb _ points) eqn:E; [now split|].
  split.
  - apply NoDupA_snoc; [intros a b [H1 H2]; split; symmetry; assumption|exact Hn|].
    intro H. apply InA_alt in H. destruct H as (q & Hcq & Hq).
    assert (K : existsb
                  (fun point => within (px c) (py c) (px point) (py point))
                  points = true).
    { apply existsb_exists. exists q. split; [exact Hq|].
      apply samePoint_within, Hcq. }
    congruence.
  - apply Forall_app. split; [exact Hf|]. constructor; [exact Hc|constructor].
Qed.

Lemma addPoint_covers (points : list Point) (c : Point) (i j : nat) :
  Forall (onLattice g) points ->
  samePoint c (latticePoint g (i, j)) ->
  covered g (addPoint points c) i j.
Proof.
  intros Hf Hc. unfold addPoint.
  destruct (existsb _ points) eqn:E.
  - apply existsb_exists in E. destruct E as (q & Hq & Hw).
    rewrite Forall_forall in Hf.
    destruct (Hf q Hq) as (i' & j' & _ & _ & Hq').
    destruct (lattice_far _ _ _ _ _ _ Hc Hq' Hw) as [-> ->].
    exists q. now split.
  - exists c. split; [|exact Hc]. apply in_or_app. right. now left.
Qed.

Lemma covered_incl (points points' : list Point) (i j : nat) :
  incl points points' -> covered g points i j -> covered g points' i j.
Proof. intros Hi (q & Hq & Hs). exists q. split; [apply Hi, Hq|exact Hs]. Qed.

Lemma gridWidth_last :
  gridLeft g + gridWidth g
  == coordinate (gridLeft g) (columnStep g) (gridColumns g - 1).
Proof. unfold gridWidth, coordinate. reflexivity. Qed.

Lemma gridHeight_last :
  gridTop g + gridHeight g
  == coordinate (gridTop g) (rowStep g) (gridRows g - 1).
Proof. unfold gridHeight, coordinate. reflexivity. Qed.

Lemma rules_cross (i j : nat) :
  (i < gridRows g)%nat -> (j < gridColumns g)%nat ->
  exists p, intersectLines (rowLine g i) (columnLine g j) true = Some p
            /\ samePoint p (latticePoint g (i, j)).
Proof.
  intros Hi Hj.
  destruct regular_facts as (_ & _ & Hdx & Hdy & Hw & Hh & _).
  assert (Sx : 0 < columnStep g) by lra.
  assert (Sy : 0 < rowStep g) by lra.
  pose proof (coordinate_zero (gridLeft g) (columnStep g)) as Zx.
  pose proof (coordinate_zero (gridTop g) (rowStep g)) as Zy.
  pose proof (coordinate_le (gridLeft g) (columnStep g) 0 j Sx (Nat.le_0_l j)).
  pose proof (coordinate_le (gridTop g) (rowStep g) 0 i Sy (Nat.le_0_l i)).
  assert (Lx : (j <= gridColumns g - 1)%nat) by lia.
  assert (Ly : (i <= gridRows g - 1)%nat) by lia.
  pose proof (coordinate_le (gridLeft g) (columnStep g) _ _ Sx Lx).
  pose proof (coordinate_le (gridTop g) (rowStep g) _ _ Sy Ly).
  pose proof gridWidth_last. pose proof gridHeight_last.
  destruct (intersectLines_crossing (rowLine g i) (columnLine g j))
    as (p & Hp & Hx & Hy); cbn [rowLine columnLine horizontalLine verticalLine
                                 horizontalRule verticalRule x1 x2 y1 y2 x y
                                 width height]; try lra; try reflexivity.
  exists p. split; [exact Hp|]. split; cbn [latticePoint px py fst snd].
  - exact Hx.
  - exact Hy.
Qed.

Lemma joinLines_lattice (points : list Point) (i j : nat) :
  (i < gridRows g)%nat -> (j < gridColumns g)%nat ->
  latticeInvariant g points ->
  latticeInvariant g (joinLines points (rowLine g i) (columnLine g j))
  /\ incl points (joinLines points (rowLine g i) (columnLine g j))
  /\ covered g (joinLines points (rowLine g i) (columnLine g j)) i j.
Proof.
  intros Hi Hj Hinv.
  destruct regular_facts as (HN & HM & _).
  destruct (rules_cross i j Hi Hj) as (p & Hp & Hsame).
  unfold joinLines. rewrite Hp. cbn [isDefined]. rewrite orb_true_r.
  pose proof gridWidth_last as Wl. pose proof gridHeight_last as Hl.
  pose proof (coordinate_zero (gridLeft g) (columnStep g)) as Zx.
  pose proof (coordinate_zero (gridTop g) (rowStep g)) as Zy.
  assert (L0 : onLattice g p) by (exists i, j; auto).
  assert (L1 : onLattice g (mkPoint (x1 (rowLine g i)) (y1 (rowLine g i)))).
  { exists i, O. split; [exact Hi|]. split; [lia|].
    split; cbn; [symmetry; exact Zx|reflexivity]. }
  assert (L2 : onLattice g (mkPoint (x2 (rowLine g i)) (y2 (rowLine g i)))).
  { exists i, (gridColumns g - 1)%nat. split; [exact Hi|]. split; [lia|].
    split; cbn; [exact Wl|reflexivity]. }
  assert (L3 : onLattice g (mkPoint (x1 (columnLine g j)) (y1 (columnLine g j)))).
  { exists O, j. split; [lia|]. split; [exact Hj|].
    split; cbn; [reflexivity|symmetry; exact Zy]. }
  assert (L4 : onLattice g (mkPoint (x2 (columnLine g j)) (y2 (columnLine g j)))).
  { exists (gridRows g - 1)%nat, j. split; [lia|]. split; [exact Hj|].
    split; cbn; [reflexivity|exact Hl]. }
  pose proof (addPoint_invariant _ _ Hinv L0) as I0.
  pose proof (addPoint_invariant _ _ I0 L1) as I1.
  pose proof (addPoint_invariant _ _ I1 L2) as I2.
  pose proof (addPoint_invariant _ _ I2 L3) as I3.
  pose proof (addPoint_invariant _ _ I3 L4) as I4.
  split; [exact I4|].
  assert (Hincl : incl (addPoint points p)
                       (addPoint (addPoint (addPoint (addPoint (addPoint points p)
                          (mkPoint (x1 (rowLine g i)) (y1 (rowLine g i))))
                          (mkPoint (x2 (rowLine g i)) (y2 (rowLine g i))))
                          (mkPoint (x1 (columnLine g j)) (y1 (columnLine g j))))
                          (mkPoint (x2 (columnLine g j)) (y2 (columnLine g j))))).
  { eapply incl_tran; [apply addPoint_incl|].
    eapply incl_tran; [apply addPoint_incl|].
    eapply incl_tran; [apply addPoint_incl|]. apply addPoint_incl. }
  split.
  - eapply incl_tran; [apply addPoint_incl|exact Hincl].
  - apply (covered_incl _ _ _ _ Hincl).
    apply addPoint_covers; [apply Hinv|exact Hsame].
Qed.


Lemma columns_fold (i : nat) (columnIndexes : list nat) :
  (i < gridRows g)%nat ->
  (forall j, In j columnIndexes -> (j < gridColumns g)%nat) ->
  forall points,
    latticeInvariant g points ->
    latticeInvariant g
      (fold_left (fun points vertical => joinLines points (rowLine g i) vertical)
                 (map (columnLine g) columnIndexes) points)
    /\ incl points
         (fold_left (fun points vertical => joinLines points (rowLine g i) vertical)
                    (map (columnLine g) columnIndexes) points)
    /\ forall j, In j columnIndexes ->
         covered g
           (fold_left (fun points vertical => joinLines points (rowLine g i) vertical)
                      (map (columnLine g) columnIndexes) points) i j.
Proof.
  intro Hi. induction columnIndexes as [|j columnIndexes IH]; intros Hjs points Hinv.
  - cbn. split; [exact Hinv|]. split; [apply incl_refl|]. intros j [].
  - cbn [map fold_left].
    destruct (joinLines_lattice points i j Hi (Hjs j (or_introl eq_refl)) Hinv)
      as (I1 & S1 & C1).
    destruct (IH (fun k Hk => Hjs k (or_intror Hk)) _ I1) as (I2 & S2 & C2).
    split; [exact I2|]. split; [eapply incl_tran; eassumption|].
    intros k [<-|Hk]; [|apply C2, Hk].
    apply (covered_incl _ _ _ _ S2 C1).
Qed.

Lemma rows_fold (rowIndexes : list nat) :
  (forall i, In i rowIndexes -> (i < gridRows g)%nat) ->
  forall points,
    latticeInvariant g points ->
    latticeInvariant g
      (fold_left
         (fun points horizontal =>
            fold_left (fun points vertical => joinLines points horizontal vertical)
                      (map (columnLine g) (seq 0 (gridColumns g))) points)
         (map (rowLine g) rowIndexes) points)
    /\ incl points
         (fold_left
            (fun points horizontal =>
               fold_left (fun points vertical => joinLines points horizontal vertical)
                         (map (columnLine g) (seq 0 (gridColumns g))) points)
            (map (rowLine g) rowIndexes) points)
    /\ forall i j, In i rowIndexes -> (j < gridColumns g)%nat ->
         covered g
           (fold_left
              (fun points horizontal =>
                 fold_left (fun points vertical => joinLines points horizontal vertical)
                           (map (columnLine g) (seq 0 (gridColumns g))) points)
              (map (rowLine g) rowIndexes) points) i j.
Proof.
  induction rowIndexes as [|i rowIndexes IH]; intros His points Hinv.
  - cbn. split; [exact Hinv|]. split; [apply incl_refl|]. intros i j [].
  - cbn [map fold_left].
    destruct (columns_fold i (seq 0 (gridColumns g))
                (His i (or_introl eq_refl))
                (fun j Hj => proj2 (proj1 (in_seq _ _ _) Hj)) points Hinv)
      as (I1 & S1 & C1).
    destruct (IH (fun k Hk => His k (or_intror Hk)) _ I1) as (I2 & S2 & C2).
    split; [exact I2|]. split; [eapply incl_tran; eassumption|].
    intros k j [<-|Hk] Hj; [|apply C2; assumption].
    apply (covered_incl _ _ _ _ S2). apply C1. apply in_seq. lia.
Qed.


Lemma gridPoints_lattice :
  latticeInvariant g (gridPoints g)
  /\ forall i j, (i < gridRows g)%nat -> (j < gridColumns g)%nat ->
                 covered g (gridPoints g) i j.
Proof.
  unfold gridPoints, findPoints.
  destruct (rows_fold (seq 0 (gridRows g))
              (fun i Hi => proj2 (proj1 (in_seq _ _ _) Hi)) [])
    as (I & _ & C).
  { split; constructor. }
  split; [exact I|]. intros i j Hi Hj. apply C; [|exact Hj]. apply in_seq. lia.
Qed.


(** ** Ruled grids: counting the cells *)

Lemma isRightOf_spec (point current : Point) :
  isRightOf point current = true
  <-> (- (3) < py current - py point /\ py current - py point < 3)
      /\ px point < px current.
Proof.
  unfold isRightOf. rewrite andb_true_iff, Math_abs_lt, Qgtb_gt.
  unfold Tolerance. reflexivity.
Qed.

Lemma isBelow_spec (point current : Point) :
  isBelow point current = true
  <-> (- (3) < px current - px point /\ px current - px point < 3)
      /\ py point < py current.
Proof.
  unfold isBelow. rewrite andb_true_iff, Math_abs_lt, Qgtb_gt.
  unfold Tolerance. reflexivity.
Qed.

Lemma samePointb_spec (p q : Point) : samePointb p q = true <-> samePoint p q.
Proof.
  unfold samePointb, samePoint. rewrite andb_true_iff, !Qeq_bool_iff. reflexivity.
Qed.

Lemma lattice_unique (i j i' j' : nat) (p : Point) :
  samePoint p (latticePoint g (i, j)) ->
  samePoint p (latticePoint g (i', j')) ->
  i = i' /\ j = j'.
Proof.
  intros H1 H2.
  apply (lattice_far i j i' j' p p H1 H2).
  apply samePoint_within. split; reflexivity.
Qed.

Lemma latticeIndex_spec (p : Point) (i j : nat) :
  (i < gridRows g)%nat -> (j < gridColumns g)%nat ->
  samePoint p (latticePoint g (i, j)) ->
  latticeIndex g p = (i, j).
Proof.
  intros Hi Hj Hp. unfold latticeIndex.
  destruct (find _ (latticePositions g)) as [[i' j']|] eqn:F.
  - apply find_some in F. destruct F as [_ F]. apply samePointb_spec in F.
    destruct (lattice_unique _ _ _ _ _ Hp F) as [-> ->]. reflexivity.
  - exfalso.
    assert (Hin : In (i, j) (latticePositions g)).
    { unfold latticePositions. apply in_prod_iff. split; apply in_seq; lia. }
    pose proof (find_none _ _ F _ Hin) as K. cbn beta in K.
    apply samePointb_spec in Hp. congruence.
Qed.

Lemma hasRight_spec (p : Point) (i j : nat) :
  (i < gridRows g)%nat -> (j < gridColumns g)%nat ->
  samePoint p (latticePoint g (i, j)) ->
  existsb (isRightOf p) (gridPoints g) = (S j <? gridColumns g)%nat.
Proof.
  intros Hi Hj [Hx Hy].
  destruct regular_facts as (_ & _ & Hdx & Hdy & _).
  assert (Sx : 0 < columnStep g) by lra.
  destruct gridPoints_lattice as ([_ Hall] & Hcov).
  cbn [latticePoint px py fst snd] in Hx, Hy.
  destruct (Nat.ltb_spec (S j) (gridColumns g)) as [L|L].
  - apply existsb_exists.
    destruct (Hcov i (S j) Hi L) as (q & Hq & Hqx & Hqy).
    cbn [latticePoint px py fst snd] in Hqx, Hqy.
    exists q. split; [exact Hq|]. apply isRightOf_spec.
    pose proof (coordinate_step (gridLeft g) (columnStep g) j (S j) Sx
                  (Nat.lt_succ_diag_r j)).
    repeat split; lra.
  - destruct (existsb (isRightOf p) (gridPoints g)) eqn:E; [|reflexivity].
    exfalso. apply existsb_exists in E. destruct E as (q & Hq & Hr).
    apply isRightOf_spec in Hr. destruct Hr as [_ Hr].
    rewrite Forall_forall in Hall.
    destruct (Hall q Hq) as (i' & j' & _ & Hj' & Hqx & _).
    cbn [latticePoint px py fst snd] in Hqx.
    assert (Lj : (j' <= j)%nat) by lia.
    pose proof (coordinate_le (gridLeft g) (columnStep g) j' j Sx Lj).
    lra.
Qed.

Lemma hasBelow_spec (p : Point) (i j : nat) :
  (i < gridRows g)%nat -> (j < gridColumns g)%nat ->
  samePoint p (latticePoint g (i, j)) ->
  existsb (isBelow p) (gridPoints g) = (S i <? gridRows g)%nat.
Proof.
  intros Hi Hj [Hx Hy].
  destruct regular_facts as (_ & _ & Hdx & Hdy & _).
  assert (Sy : 0 < rowStep g) by lra.
  destruct gridPoints_lattice as ([_ Hall] & Hcov).
  cbn [latticePoint px py fst snd] in Hx, Hy.
  destruct (Nat.ltb_spec (S i) (gridRows g)) as [L|L].
  - apply existsb_exists.
    destruct (Hcov (S i) j L Hj) as (q & Hq & Hqx & Hqy).
    cbn [latticePoint px py fst snd] in Hqx, Hqy.
    exists q. split; [exact Hq|]. apply isBelow_spec.
    pose proof (coordinate_step (gridTop g) (rowStep g) i (S i) Sy
                  (Nat.lt_succ_diag_r i)).
    repeat split; lra.
  - destruct (existsb (isBelow p) (gridPoints g)) eqn:E; [|reflexivity].
    exfalso. apply existsb_exists in E. destruct E as (q & Hq & Hr).
    apply isBelow_spec in Hr. destruct Hr as [_ Hr].
    rewrite Forall_forall in Hall.
    destruct (Hall q Hq) as (i' & j' & Hi' & _ & _ & Hqy).
    cbn [latticePoint px py fst snd] in Hqy.
    assert (Li : (i' <= i)%nat) by lia.
    pose proof (coordinate_le (gridTop g) (rowStep g) i' i Sy Li).
    lra.
Qed.


Lemma gridCells_count :
  List.length (constructCells (gridPoints g))
  = ((gridRows g - 1) * (gridColumns g - 1))%nat.
Proof.
  destruct gridPoints_lattice as ([Hnodup Hall] & Hcov).
  rewrite Forall_forall in Hall.
  rewrite constructCells_length.
  rewrite (filter_ext_in _ (fun p => innerPosition g (latticeIndex g p))).
  2:{ intros p Hp. destruct (Hall p Hp) as (i & j & Hi & Hj & Hs).
      rewrite (latticeIndex_spec p i j Hi Hj Hs).
      rewrite (hasRight_spec p i j Hi Hj Hs), (hasBelow_spec p i j Hi Hj Hs).
      reflexivity. }
  rewrite <- (filter_map_length (innerPosition g) (latticeIndex g)).
  transitivity (List.length (list_prod (seq 0 (gridRows g - 1))
                                       (seq 0 (gridColumns g - 1))));
    [|now rewrite length_prod, !length_seq].
  apply Permutation_length, NoDup_Permutation.
  - apply NoDup_filter.
    apply (NoDupA_map_NoDup samePoint); [|exact Hnodup].
    intros p q Hp Hq E.
    destruct (Hall p Hp) as (i & j & Hi & Hj & [Hpx Hpy]).
    destruct (Hall q Hq) as (i' & j' & Hi' & Hj' & [Hqx Hqy]).
    rewrite (latticeIndex_spec p i j Hi Hj (conj Hpx Hpy)) in E.
    rewrite (latticeIndex_spec q i' j' Hi' Hj' (conj Hqx Hqy)) in E.
    inversion E; subst. split; lra.
  - apply NoDup_list_prod; apply seq_NoDup.
  - intros [i j]. rewrite filter_In, in_map_iff, in_prod_iff, !in_seq.
    unfold innerPosition. cbn [fst snd].
    rewrite andb_true_iff, !Nat.ltb_lt. split.
    + intros [_ [H1 H2]]. lia.
    + intros [H1 H2]. split; [|lia].
      assert (Hi : (i < gridRows g)%nat) by lia.
      assert (Hj : (j < gridColumns g)%nat) by lia.
      destruct (Hcov i j Hi Hj) as (q & Hq & Hs).
      exists q. split; [|exact Hq]. apply latticeIndex_spec; assumption.
Qed.

Lemma parseCells_ruledGrid :
  List.length (parseCells (ruledGrid g))
  = ((gridRows g - 1) * (gridColumns g - 1))%nat.
Proof.
  unfold parseCells.
  rewrite sortBy_length, horizontalLinesOf_ruledGrid, verticalLinesOf_ruledGrid.
  rewrite rowLines_sorted, columnLines_sorted.
  apply gridCells_count.
Qed.

End RuledGrid.

(** C8.  A page whose line candidates are, in any order, the rules of a
    regular ruled grid with N horizontal and M vertical rules is
    reconstructed as exactly (N-1)*(M-1) cells. *)
Theorem ruled_grid_cell_count (g : GridSpec) (lines : list Rectangle) :
  regularGrid g = true ->
  Permutation lines (ruledGrid g) ->
  List.length (parseCells lines)
  = ((gridRows g - 1) * (gridColumns g - 1))%nat.
Proof.
  intros Hreg Hp.
  rewrite <- (parseCells_Permutation (ruledGrid g) lines).
  - apply parseCells_ruledGrid, Hreg.
  - apply distinctRulings_ruledGrid, Hreg.
  - apply Permutation_sym, Hp.
Qed.

Lemma ruled_grid_cell_count_witness :
  regularGrid sampleGrid = true
  /\ List.length (parseCells (rev (ruledGrid sampleGrid))) = 6%nat.
Proof.
  split; [reflexivity|].
  apply (ruled_grid_cell_count sampleGrid (rev (ruledGrid sampleGrid))).
  - reflexivity.
  - apply Permutation_sym, Permutation_rev.
Defined.

(** * Further properties of the code *)

(** ** Geometry kernel: [intersectRectangles] *)

Ltac split_minmax :=
  repeat match goal with
    | |- context [Math_min ?a ?b] =>
        let E := fresh "E" in
        destruct (Math_min_spec a b) as [[? E]|[? E]]; rewrite E in *; clear E
    | |- context [Math_max ?a ?b] =>
        let E := fresh "E" in
        destruct (Math_max_spec a b) as [[? E]|[? E]]; rewrite E in *; clear E
    | H : context [Math_min ?a ?b] |- _ =>
        let E := fresh "E" in
        destruct (Math_min_spec a b) as [[? E]|[? E]]; rewrite E in *; clear E
    | H : context [Math_max ?a ?b] |- _ =>
        let E := fresh "E" in
        destruct (Math_max_spec a b) as [[? E]|[? E]]; rewrite E in *; clear E
    end.

(** The result of [intersectRectangles] never has a negative width or
    height, whatever the arguments. *)
Theorem intersectRectangles_wellFormed (r1 r2 : Rectangle) :
  wellFormed (intersectRectangles r1 r2).
Proof.
  unfold intersectRectangles, wellFormed.
  destruct (Qgeb _ _ && Qgeb _ _) eqn:E; cbn [width height]; [|split; lra].
  apply andb_true_iff in E. destruct E as [E1 E2].
  apply Qgeb_ge in E1, E2. split; lra.
Qed.





(** ** Geometry kernel: [union] *)



(** ** Geometry kernel: [intersectLines] *)



Lemma intersectLines_unclamped (l1 l2 : Line) (p : Point) :
  intersectLines l1 l2 true = Some p -> intersectLines l1 l2 false = Some p.
Proof.
  unfold intersectLines.
  destruct (_ || _); [discriminate|].
  destruct (Qeq_bool _ 0); [discriminate|].
  cbn [andb]. destruct (_ || _); [discriminate|]. exact (fun H => H).
Qed.



(** Nothing is returned when one of the lines has no length, nor for a
    parallel pair whose first line is vertical or horizontal. *)
Theorem intersectLines_rejects (l1 l2 : Line) (clamp : bool) :
  zeroLength l1 \/ zeroLength l2
  \/ (parallel l1 l2
      /\ (x1 l1 == x2 l1 \/ (y1 l1 == y2 l1 /\ ~ x1 l1 == x2 l1))) ->
  intersectLines l1 l2 clamp = None.
Proof.
  intros [H|[H|[Hp Ha]]].
  - apply intersectLines_zero_length. now left.
  - apply intersectLines_zero_length. now right.
  - apply intersectLines_parallel_axis_aligned; assumption.
Qed.

Lemma intersectLines_rejects_witness :
  zeroLength pointSegment
  /\ intersectLines pointSegment verticalSegment false = None.
Proof.
  assert (H : zeroLength pointSegment) by (split; reflexivity).
  split; [exact H|].
  apply (intersectLines_rejects pointSegment verticalSegment false).
  left. exact H.
Defined.

(** ** Vertical overlap and rows *)



Lemma getRowTop_fold (pageElements : list Element) (start : Rectangle) :
  forall top,
    let result :=
      fold_left
        (fun top (element : Element) =>
           if Qltb (y element) (y start + height start)
              && Qgtb (y element + height element) (y start)
           then
             if Qgtb (getVerticalOverlapPercentage start element) 50
             then if Qltb (y element) top then y element else top
             else top
           else top)
        pageElements top in
    result <= top
    /\ (forall e, In e pageElements -> isInRow start e = true -> result <= y e)
    /\ (result = top
        \/ exists e, In e pageElements /\ isInRow start e = true /\ result = y e).
Proof.
  induction pageElements as [|e es IH]; intro top; cbn [fold_left].
  - split; [apply Qle_refl|]. split; [intros e []|now left].
  - unfold isInRow in *.
    destruct (Qltb (y e) (y start + height start)
              && Qgtb (y e + height e) (y start)) eqn:A;
      [destruct (Qgtb (getVerticalOverlapPercentage start e) 50) eqn:B|].
    + destruct (Qltb (y e) top) eqn:C.
      * apply Qltb_lt in C. destruct (IH (y e)) as (I1 & I2 & I3).
        split; [lra|]. split.
        -- intros e' [<-|He'] Hq; [exact I1|apply I2; assumption].
        -- right. destruct I3 as [I3|(e' & He' & Hq & I3)].
           ++ exists e. split; [now left|]. rewrite A, B. now split.
           ++ exists e'. split; [now right|]. now split.
      * apply Qltb_ge in C. destruct (IH top) as (I1 & I2 & I3).
        split; [exact I1|]. split.
        -- intros e' [<-|He'] Hq; [lra|apply I2; assumption].
        -- destruct I3 as [I3|(e' & He' & Hq & I3)]; [now left|].
           right. exists e'. split; [now right|]. now split.
    + destruct (IH top) as (I1 & I2 & I3).
      split; [exact I1|]. split.
      * intros e' [<-|He'] Hq; [rewrite A, B in Hq; discriminate|].
        apply I2; assumption.
      * destruct I3 as [I3|(e' & He' & Hq & I3)]; [now left|].
        right. exists e'. split; [now right|]. now split.
    + destruct (IH top) as (I1 & I2 & I3).
      split; [exact I1|]. split.
      * intros e' [<-|He'] Hq; [rewrite A in Hq; discriminate|].
        apply I2; assumption.
      * destruct I3 as [I3|(e' & He' & Hq & I3)]; [now left|].
        right. exists e'. split; [now right|]. now split.
Qed.

(** [getRowTop] is the least top among the start element and the page
    elements that overlap it vertically by more than half of their own
    height. *)
Theorem getRowTop_least (pageElements : list Element) (start : Rectangle) :
  getRowTop pageElements start <= y start
  /\ (forall e, In e pageElements -> isInRow start e = true ->
                getRowTop pageElements start <= y e)
  /\ (getRowTop pageElements start = y start
      \/ exists e, In e pageElements /\ isInRow start e = true
                   /\ getRowTop pageElements start = y e).
Proof. apply (getRowTop_fold pageElements start (y start)). Qed.

(** ** The element to the right *)

Lemma getRightElement_fold (elements : list Element) (element : Element) :
  forall closest,
    let result :=
      fold_left
        (fun closestElement (rightElement : Element) =>
           if isVerticalOverlap element rightElement
              && Qgtb (getVerticalOverlapPercentage element rightElement) 50
              && Qgtb (x rightElement) (x element + width element - Tolerance)
              && Qltb (x rightElement - (x element + width element)) 30
              && Qltb (calculateDistance element rightElement)
                      (calculateDistance element (closestBounds closestElement))
           then Some rightElement
           else closestElement)
        elements closest in
    (forall q, In q elements -> isRightCandidate element q = true ->
               calculateDistance element (closestBounds result)
               <= calculateDistance element q)
    /\ calculateDistance element (closestBounds result)
       <= calculateDistance element (closestBounds closest)
    /\ (result = closest
        \/ exists r, result = Some r /\ In r elements
                     /\ isRightCandidate element r = true
                     /\ calculateDistance element r
                        < calculateDistance element (closestBounds closest)).
Proof.
  induction elements as [|e es IH]; intro closest; cbn [fold_left].
  - split; [intros q []|]. split; [apply Qle_refl|now left].
  - change (isVerticalOverlap element e
            && Qgtb (getVerticalOverlapPercentage element e) 50
            && Qgtb (x e) (x element + width element - Tolerance)
            && Qltb (x e - (x element + width element)) 30)
      with (isRightCandidate element e).
    destruct (isRightCandidate element e) eqn:C; cbn [andb].
    + destruct (Qltb (calculateDistance element e)
                     (calculateDistance element (closestBounds closest))) eqn:L.
      * apply Qltb_lt in L. destruct (IH (Some e)) as (I1 & I2 & I3).
        cbn [closestBounds] in I2, I3.
        split; [|split].
        -- intros q [<-|Hq] Hc; [exact I2|apply I1; assumption].
        -- lra.
        -- right. destruct I3 as [I3|(r & Hr & Hin & Hc & Hd)].
           ++ exists e. repeat split; try assumption. now left.
           ++ exists r. repeat split; try assumption; [now right|lra].
      * apply Qltb_ge in L. destruct (IH closest) as (I1 & I2 & I3).
        split; [|split].
        -- intros q [<-|Hq] Hc; [lra|apply I1; assumption].
        -- exact I2.
        -- destruct I3 as [I3|(r & Hr & Hin & Hc & Hd)]; [now left|].
           right. exists r. repeat split; try assumption. now right.
    + destruct (IH closest) as (I1 & I2 & I3).
      split; [|split].
      * intros q [<-|Hq] Hc; [congruence|apply I1; assumption].
      * exact I2.
      * destruct I3 as [I3|(r & Hr & Hin & Hc & Hd)]; [now left|].
        right. exists r. repeat split; try assumption. now right.
Qed.

(** [getRightElement] returns a page element that passes the positional
    tests and is at the least distance among those that pass; it returns
    nothing only when no element that passes is nearer than the far-away
    start value. *)
Theorem getRightElement_nearest (elements : list Element) (element : Element) :
  match getRightElement elements element with
  | Some r =>
      In r elements /\ isRightCandidate element r = true
      /\ forall q, In q elements -> isRightCandidate element q = true ->
                   calculateDistance element r <= calculateDistance element q
  | None =>
      forall q, In q elements -> isRightCandidate element q = true ->
                calculateDistance element farAway <= calculateDistance element q
  end.
Proof.
  destruct (getRightElement_fold elements element None) as (I1 & _ & I3).
  fold (getRightElement elements element) in I1, I3.
  destruct (getRightElement elements element) as [r|] eqn:E.
  - destruct I3 as [I3|(r' & Hr & Hin & Hc & _)]; [discriminate|].
    inversion Hr; subst. split; [exact Hin|]. split; [exact Hc|exact I1].
  - exact I1.
Qed.

Example getRightElement_anchorLine :
  getRightElement anchorLine (textAt "APPLICATION NO:" 10 100 80 10)
  = Some (textAt "123/45" 95 100 40 10).
Proof. vm_compute. reflexivity. Qed.

Lemma getRightElement_In (elements : list Element) (element r : Element) :
  getRightElement elements element = Some r -> In r elements.
Proof.
  intro H.
  destruct (getRightElement_fold elements element None) as (_ & _ & I3).
  fold (getRightElement elements element) in I3. rewrite H in I3.
  destruct I3 as [I3|(r' & Hr & Hin & _)]; [discriminate|].
  inversion Hr; subst. exact Hin.
Qed.

(** ** Anchors: the best match *)

(** The match chosen among the recorded ones is one of them, and none of
    them has a lower rank. *)
Theorem best_match_has_least_rank (targetLength : Z) (matches : list Match)
  (best : Match) :
  bestMatchOf targetLength matches = Some best ->
  In best matches
  /\ forall m, In m matches -> (threshold best <= threshold m)%nat.
Proof.
  intro H. destruct (bestMatchOf_least _ _ _ H) as [Hin Hall].
  split; [exact Hin|]. now apply Forall_forall.
Qed.

Lemma best_match_has_least_rank_witness :
  exists best,
    map threshold (startMatches [anchorStem; anchorColon] anchorStem)
    = [1%nat; 0%nat]
    /\ bestMatchOf (strlen FindText)
                   (startMatches [anchorStem; anchorColon] anchorStem)
       = Some best
    /\ threshold best = 0%nat
    /\ forall m, In m (startMatches [anchorStem; anchorColon] anchorStem) ->
                 (threshold best <= threshold m)%nat.
Proof.
  exists (mkMatch anchorColon [anchorStem; anchorColon] 0 "applicationno:").
  assert (H : bestMatchOf (strlen FindText)
                (startMatches [anchorStem; anchorColon] anchorStem)
              = Some (mkMatch anchorColon [anchorStem; anchorColon] 0
                              "applicationno:"))
    by (vm_compute; reflexivity).
  split; [vm_compute; reflexivity|]. split; [exact H|].
  split; [reflexivity|].
  apply (best_match_has_least_rank _ _ _ H).
Defined.

(** ** Anchors *)

Lemma considerChain_matchElement (rightElement : Element)
  (chain : list Element) (exact candidate : string) (found : list Match) :
  considerChain rightElement chain exact candidate = Some found ->
  Forall (fun m => matchElement m = rightElement) found.
Proof.
  unfold considerChain.
  destruct (_ >? _)%Z; [discriminate|].
  destruct (_ >=? _)%Z.
  - destruct (rankText _ _ _); intro H; inversion H; subst; repeat constructor.
  - intro H; inversion H; constructor.
Qed.

Lemma collectMatches_In (fuel : nat) (elements : list Element)
  (exact candidate : string) :
  forall rightElement rightElements matches,
    In rightElement elements ->
    Forall (fun m => In (matchElement m) elements) matches ->
    Forall (fun m => In (matchElement m) elements)
           (collectMatches fuel elements exact candidate rightElement
                           rightElements matches).
Proof.
  induction fuel as [|fuel IH]; intros rightElement rightElements matches Hin Hm;
    cbn [collectMatches]; [exact Hm|].
  destruct (considerChain _ _ _ _) as [found|] eqn:E; [|exact Hm].
  assert (Hm' : Forall (fun m => In (matchElement m) elements) (matches ++ found)).
  { apply Forall_app. split; [exact Hm|].
    apply considerChain_matchElement in E.
    eapply Forall_impl; [|exact E]. intros m ->. exact Hin. }
  destruct (getRightElement elements rightElement) as [next|] eqn:G; [|exact Hm'].
  destruct (_ <? 5)%nat; [|exact Hm'].
  apply IH; [|exact Hm']. apply (getRightElement_In _ _ _ G).
Qed.

Section SortedByKeyLe.

Context {A : Type} (key : A -> Q).

Lemma insertBy_HdRel_le (b a : A) (l : list A) :
  HdRel (fun u v => key u <= key v) b l -> key b <= key a ->
  HdRel (fun u v => key u <= key v) b (insertBy (keyComparer key) a l).
Proof.
  intros Hl Ha. destruct l as [|c l]; cbn; [now constructor|].
  destruct (keyComparer key a c <=? 0)%Z; constructor; [exact Ha|].
  apply (HdRel_inv Hl).
Qed.

Lemma insertBy_Sorted_le (a : A) (l : list A) :
  Sorted (fun u v => key u <= key v) l ->
  Sorted (fun u v => key u <= key v) (insertBy (keyComparer key) a l).
Proof.
  induction l as [|b l IH]; intro Hs; cbn.
  - repeat constructor.
  - apply Sorted_inv in Hs. destruct Hs as [Hs Hh].
    destruct (keyComparer key a b <=? 0)%Z eqn:E.
    + apply keyComparer_le in E.
      constructor; [constructor; assumption|constructor; exact E].
    + assert (Hba : key b <= key a).
      { apply Qlt_le_weak, Qnot_le_lt. intro H.
        apply (keyComparer_le key) in H. congruence. }
      constructor; [apply IH, Hs|apply insertBy_HdRel_le; assumption].
Qed.

(** Sorting by a key comparer puts the keys in non-decreasing order. *)
Lemma sortBy_Sorted_le (l : list A) :
  Sorted (fun u v => key u <= key v) (sortBy (keyComparer key) l).
Proof.
  induction l as [|a l IH]; cbn; [constructor|].
  apply insertBy_Sorted_le, IH.
Qed.

End SortedByKeyLe.

(** The anchors that [findStartElements] returns are elements of the page
    and come in non-decreasing order of their tops. *)
Theorem findStartElements_sorted (elements : list Element) :
  Sorted (fun a b : Element => y a <= y b) (findStartElements elements)
  /\ forall start, In start (findStartElements elements) -> In start elements.
Proof.
  unfold findStartElements. split.
  - change yComparer with (keyComparer (fun e : Element => y e)).
    apply (sortBy_Sorted_le (fun e : Element => y e)).
  - intros start Hs.
    apply (Permutation_in _ (sortBy_Permutation _ _)) in Hs.
    apply in_flat_map in Hs. destruct Hs as (e & He & Hs).
    apply filter_In in He. destruct He as [He _].
    destruct (bestMatchOf _ _) as [best|] eqn:B; [|destruct Hs].
    destruct Hs as [<-|[]].
    apply bestMatchOf_least in B. destruct B as [B _].
    pose proof (collectMatches_In 5 elements (toLowerCase FindText) FindText
                  e [] [] He (Forall_nil _)) as K.
    rewrite Forall_forall in K. apply K. exact B.
Qed.

(** ** Ranks of rendered labels *)

Lemma considerChain_rankedByEditDistance (rightElement : Element)
  (chain : list Element) (label exact candidate : string) :
  plain (concatenation chain) ->
  normalizeString candidate = exact ->
  String.length candidate = String.length exact ->
  exact = normalized label ->
  rankedByEditDistance rightElement chain label
    (considerChain rightElement chain exact candidate).
Proof.
  intros Hp Hn Hl He. rewrite He in Hn, Hl |- *.
  pose proof (considerChain_ranked rightElement chain (normalized label)
                                   candidate Hn Hl) as H.
  unfold rankedByDistance in H. unfold rankedByEditDistance.
  rewrite (condensedTextOf_normalized chain Hp) in H. exact H.
Qed.

Lemma considerChain_found (rightElement : Element) (chain : list Element)
  (label exact candidate : string) (found : list Match) :
  rankedByEditDistance rightElement chain label
    (considerChain rightElement chain exact candidate) ->
  considerChain rightElement chain exact candidate = Some found ->
  forall m, In m found ->
    matchElements m = chain
    /\ threshold m = editDistance (normalized (concatenation chain))
                                  (normalized label)
    /\ (threshold m <= 2)%nat.
Proof.
  unfold rankedByEditDistance. cbv zeta.
  set (d := editDistance (normalized (concatenation chain)) (normalized label)).
  intros (R0 & R1 & R2 & R3) E m Hm.
  assert (C : d = 0%nat \/ d = 1%nat \/ d = 2%nat \/ (3 <= d)%nat) by lia.
  destruct C as [C|[C|[C|C]]].
  - rewrite R0 in E by (apply editDistance_zero, C).
    injection E as <-. destruct Hm as [<-|[]]. cbn. rewrite C. repeat split; lia.
  - rewrite (R1 C) in E. injection E as <-. destruct Hm as [<-|[]].
    cbn. rewrite C. repeat split; lia.
  - rewrite (R2 C) in E. injection E as <-. destruct Hm as [<-|[]].
    cbn. rewrite C. repeat split; lia.
  - destruct (R3 C) as [K|K]; rewrite K in E; [discriminate|].
    injection E as <-. destruct Hm.
Qed.

Lemma collectMatches_ranked (label exact candidate : string)
  (elements : list Element) :
  (forall e, In e elements -> plain (text e)) ->
  (forall r chain, plain (concatenation chain) ->
     rankedByEditDistance r chain label (considerChain r chain exact candidate)) ->
  forall fuel rightElement rightElements matches,
    plain (text rightElement) ->
    (forall e, In e rightElements -> plain (text e)) ->
    (forall m, In m matches ->
       threshold m = editDistance (normalized (concatenation (matchElements m)))
                                  (normalized label)
       /\ (threshold m <= 2)%nat) ->
    forall m,
      In m (collectMatches fuel elements exact candidate rightElement
                           rightElements matches) ->
      threshold m = editDistance (normalized (concatenation (matchElements m)))
                                 (normalized label)
      /\ (threshold m <= 2)%nat.
Proof.
  intros He Hbody. induction fuel as [|fuel IH];
    intros rightElement rightElements matches Hr Hrs Hm m Hin.
  - apply Hm, Hin.
  - cbn [collectMatches] in Hin.
    assert (Hchain : forall e, In e (rightElements ++ [rightElement]) ->
                               plain (text e)).
    { intros e H. apply in_app_or in H. destruct H as [H|[<-|[]]];
        [apply Hrs, H|exact Hr]. }
    pose proof (Hbody rightElement (rightElements ++ [rightElement])
                      (plain_concatenation _ Hchain)) as B.
    destruct (considerChain rightElement (rightElements ++ [rightElement])
                            exact candidate) as [found|] eqn:E;
      [|apply Hm, Hin].
    assert (Hm' : forall m', In m' (matches ++ found) ->
              threshold m'
              = editDistance (normalized (concatenation (matchElements m')))
                             (normalized label)
              /\ (threshold m' <= 2)%nat).
    { intros m' H. apply in_app_or in H. destruct H as [H|H]; [apply Hm, H|].
      rewrite <- E in B.
      destruct (considerChain_found _ _ _ _ _ _ B E m' H) as (M1 & M2 & M3).
      rewrite M1. split; assumption. }
    destruct (getRightElement elements rightElement) as [next|] eqn:G;
      [|apply Hm', Hin].
    destruct (List.length (rightElements ++ [rightElement]) <? 5)%nat;
      [|apply Hm', Hin].
    apply (IH next (rightElements ++ [rightElement]) (matches ++ found));
      try assumption.
    apply He. apply (getRightElement_In _ _ _ G).
Qed.



(** ** Records *)

Lemma removeChars_isSpace_noSpace (s : string) :
  everyChar notSpace (removeChars isSpace s) = true.
Proof.
  induction s as [|c s IH]; [reflexivity|].
  cbn. destruct (isSpace c) eqn:E; [exact IH|].
  cbn. unfold notSpace at 1. now rewrite E, IH.
Qed.

Lemma dropLeadingColon_noSpace (s : string) :
  everyChar notSpace s = true -> everyChar notSpace (dropLeadingColon s) = true.
Proof.
  destruct s as [|c s]; [reflexivity|]. cbn.
  intro H. apply andb_true_iff in H. destruct H as [Hc Hs].
  destruct (Ascii.eqb c ":"); [exact Hs|]. cbn. now rewrite Hc, Hs.
Qed.

(** A record that [parseApplicationElements] returns has an application
    number that is not empty and holds no white space character (in the
    words of the language standard, [spaceFree]), carries the URL it was
    given, the fixed comment address and the current date, and its received
    date is empty or a date that the date parser produced. *)
Theorem parseApplicationElements_fields
  (momentStrict : string -> option string) (today : string)
  (pageElements : list Element) (cells : list Cell) (url : string)
  (app : DevelopmentApplication) :
  parseApplicationElements momentStrict today pageElements cells url
  = Returned (Some app) ->
  applicationNumber app <> EmptyString
  /\ spaceFree (applicationNumber app)
  /\ informationUrl app = url
  /\ commentUrl app = CommentUrl
  /\ scrapeDate app = today
  /\ (receivedDate app = EmptyString
      \/ exists lodged, momentStrict lodged = Some (receivedDate app)).
Proof.
  unfold parseApplicationElements.
  destruct (findTextBounds _ _) as [hb|]; [|discriminate].
  destruct (String.eqb (applicationNumberOf pageElements hb) EmptyString) eqn:N;
    [discriminate|].
  destruct (descriptionOf cells) as [d|]; [|discriminate]. cbn [bind].
  destruct (receivedDateOf momentStrict cells) as [received|] eqn:R;
    [|discriminate].
  cbn [bind].
  destruct (findHeadingCell cells "DEVELOPMENTADDRESS:") as [h|]; [|discriminate].
  destruct (addressOf cells h) as [a|]; [|discriminate]. cbn [bind].
  destruct (String.eqb a EmptyString); [discriminate|].
  intro H. inversion H; subst; clear H.
  cbn [applicationNumber informationUrl commentUrl scrapeDate receivedDate].
  split; [now apply String.eqb_neq|].
  split; [apply everyChar_spaceFree, dropLeadingColon_noSpace,
                removeChars_isSpace_noSpace|].
  repeat split.
  destruct received as [formatted|]; [|now left].
  right. unfold receivedDateOf in R.
  destruct (findHeadingCell cells "DATELODGED:") as [hd|]; [|discriminate].
  destruct (elementsOf _) as [found|]; [|discriminate].
  cbn [bind] in R. injection R as R'. eexists. exact R'.
Qed.

Lemma parseApplicationElements_fields_witness :
  exists group,
    pageGroups registerPage = [group]
    /\ parseApplicationElements noDate "2019-03-21" (groupElements group)
         (groupCells group) "register.pdf"
       = Returned (Some registerApplication)
    /\ spaceFree (applicationNumber registerApplication).
Proof.
  eexists. split; [vm_compute; reflexivity|].
  assert (H : parseApplicationElements noDate "2019-03-21"
                (groupElements (hd firstSection (pageGroups registerPage)))
                (groupCells (hd firstSection (pageGroups registerPage)))
                "register.pdf"
              = Returned (Some registerApplication))
    by (vm_compute; reflexivity).
  split; [exact H|].
  apply (parseApplicationElements_fields _ _ _ _ _ _ H).
Defined.

(** ** The page loop *)

Section PageLoop.

Variable momentStrict : string -> option string.
Variable today : string.

Lemma parseGroups_prefix (url : string) (groups : list ElementGroup) :
  forall acc result,
    parseGroups momentStrict today url groups acc = Returned result ->
    isPrefixOf acc result.
Proof.
  induction groups as [|g later IH]; intros acc result H.
  - cbn in H. inversion H; subst. exists []. now rewrite app_nil_r.
  - cbn [parseGroups] in H.
    destruct (parseApplicationElements _ _ _ _ _) as [[app|]|];
      cbn [bind] in H; [|apply IH, H|discriminate].
    destruct (existsb _ acc); [apply IH, H|].
    destruct (IH _ _ H) as [rest ->].
    exists (app :: rest). now rewrite <- app_assoc.
Qed.

Lemma parsePages_prefix (url : string) (pages : list Page) :
  forall acc result,
    parsePages momentStrict today url pages acc = Returned result ->
    isPrefixOf acc result.
Proof.
  induction pages as [|page later IH]; intros acc result H.
  - cbn in H. inversion H; subst. exists []. now rewrite app_nil_r.
  - cbn [parsePages] in H.
    destruct (parseGroups _ _ _ _ acc) as [acc'|] eqn:E; [|discriminate].
    cbn [bind] in H.
    destruct (parseGroups_prefix _ _ _ _ E) as [r1 ->].
    destruct (IH _ _ H) as [r2 ->].
    exists (r1 ++ r2). now rewrite app_assoc.
Qed.

Lemma parsePages_app (url : string) (pages more : list Page) :
  forall acc,
    parsePages momentStrict today url (pages ++ more) acc
    = bind (parsePages momentStrict today url pages acc)
           (parsePages momentStrict today url more).
Proof.
  induction pages as [|page later IH]; intro acc; [reflexivity|].
  cbn [app parsePages].
  destruct (parseGroups _ _ _ _ acc) as [acc'|]; [|reflexivity].
  cbn [bind]. apply IH.
Qed.

End PageLoop.

(** Reading further pages of a document only appends records: what the
    first pages yield is an initial part of what the longer document
    yields. *)
Theorem parsePdf_later_pages_append
  (momentStrict : string -> option string) (today url : string)
  (pages more : list Page) (first all : list DevelopmentApplication) :
  parsePdf momentStrict today url pages = Returned first ->
  parsePdf momentStrict today url (pages ++ more) = Returned all ->
  isPrefixOf first all.
Proof.
  unfold parsePdf. intros H1 H2.
  rewrite firstn_app, parsePages_app, H1 in H2. cbn [bind] in H2.
  apply (parsePages_prefix _ _ _ _ _ _ H2).
Qed.

Lemma parsePdf_later_pages_append_witness :
  parsePdf noDate "2019-03-21" "register.pdf" [registerPage]
  = Returned [registerApplication]
  /\ parsePdf noDate "2019-03-21" "register.pdf"
       ([registerPage] ++ [twoAnchorPage; registerPage])
     = Returned [registerApplication]
  /\ isPrefixOf [registerApplication] [registerApplication].
Proof.
  assert (H1 : parsePdf noDate "2019-03-21" "register.pdf" [registerPage]
               = Returned [registerApplication]) by (vm_compute; reflexivity).
  assert (H2 : parsePdf noDate "2019-03-21" "register.pdf"
                 ([registerPage] ++ [twoAnchorPage; registerPage])
               = Returned [registerApplication]) by (vm_compute; reflexivity).
  split; [exact H1|]. split; [exact H2|].
  apply (parsePdf_later_pages_append noDate "2019-03-21" "register.pdf"
           [registerPage] [twoAnchorPage; registerPage] _ _ H1 H2).
Defined.

(** A document is read up to its 500th page: what follows changes
    nothing, not even a page on which extraction would raise. *)
Theorem parsePdf_page_limit
  (momentStrict : string -> option string) (today url : string)
  (pages more : list Page) :
  (500 <= List.length pages)%nat ->
  parsePdf momentStrict today url (pages ++ more)
  = parsePdf momentStrict today url pages.
Proof.
  intro H. unfold parsePdf. rewrite firstn_app.
  replace (500 - List.length pages)%nat with O by lia.
  cbn [firstn]. now rewrite app_nil_r.
Qed.

Lemma parsePdf_page_limit_witness :
  parsePdf noDate "2019-03-21" "register.pdf"
           (repeat registerPage 500 ++ [brokenPage])
  = parsePdf noDate "2019-03-21" "register.pdf" (repeat registerPage 500).
Proof.
  apply (parsePdf_page_limit noDate "2019-03-21" "register.pdf"
           (repeat registerPage 500) [brokenPage]).
  rewrite repeat_length. apply Nat.le_refl.
Defined.

(** ** Grid reconstruction: points and cells *)

Lemma within_sym (ax ay bx by_ : Q) : within ax ay bx by_ = within bx by_ ax ay.
Proof.
  destruct (within bx by_ ax ay) eqn:E.
  - apply within_spec. apply within_spec in E. nra.
  - destruct (within ax ay bx by_) eqn:F; [|reflexivity].
    apply within_spec in F.
    assert (K : within bx by_ ax ay = true) by (apply within_spec; nra).
    congruence.
Qed.

Lemma ForallOrdPairs_snoc {A : Type} (R : A -> A -> Prop) (l : list A) (c : A) :
  ForallOrdPairs R l -> (forall a, In a l -> R a c) ->
  ForallOrdPairs R (l ++ [c]).
Proof.
  induction 1 as [|a l Ha Hl IH]; intro Hc; cbn.
  - constructor; constructor.
  - constructor.
    + apply Forall_app. split; [exact Ha|].
      constructor; [apply Hc; now left|constructor].
    + apply IH. intros b Hb. apply Hc. now right.
Qed.

Lemma addPoint_apart (points : list Point) (c : Point) :
  ForallOrdPairs apart points -> ForallOrdPairs apart (addPoint points c).
Proof.
  intro H. unfold addPoint.
  destruct (existsb _ points) eqn:E; [exact H|].
  apply ForallOrdPairs_snoc; [exact H|].
  intros a Ha. unfold apart, nearPoints. rewrite within_sym.
  destruct (within (px c) (py c) (px a) (py a)) eqn:W; [|reflexivity].
  assert (K : existsb (fun point => within (px c) (py c) (px point) (py point))
                      points = true).
  { apply existsb_exists. exists a. now split. }
  congruence.
Qed.

Lemma joinLines_apart (points : list Point) (h v : Line) :
  ForallOrdPairs apart points -> ForallOrdPairs apart (joinLines points h v).
Proof.
  intro H. unfold joinLines.
  assert (H0 : ForallOrdPairs apart
                 match intersectLines h v true with
                 | Some p => addPoint points p
                 | None => points
                 end).
  { destruct (intersectLines h v true); [apply addPoint_apart|]; exact H. }
  destruct (_ || _); [|exact H0].
  repeat apply addPoint_apart. exact H0.
Qed.

(** Whatever the lines, no two of the points that [findPoints] collects are
    nearer to each other than the tolerance. *)
Theorem findPoints_apart (horizontalLines verticalLines : list Line) :
  ForallOrdPairs
    (fun p q =>
       9 <= (px p - px q) * (px p - px q) + (py p - py q) * (py p - py q))
    (findPoints horizontalLines verticalLines).
Proof.
  assert (H : ForallOrdPairs apart (findPoints horizontalLines verticalLines)).
  { unfold findPoints.
    assert (G : forall hs points,
               ForallOrdPairs apart points ->
               ForallOrdPairs apart
                 (fold_left
                    (fun points horizontal =>
                       fold_left
                         (fun points vertical => joinLines points horizontal vertical)
                         verticalLines points)
                    hs points)).
    { induction hs as [|h hs IH]; intros points Hp; cbn [fold_left]; [exact Hp|].
      apply IH. clear IH. revert points Hp.
      induction verticalLines as [|v vs IHv]; intros points Hp; cbn [fold_left];
        [exact Hp|].
      apply IHv, joinLines_apart, Hp. }
    apply G. constructor. }
  revert H. generalize (findPoints horizontalLines verticalLines).
  induction 1 as [|p l Hp Hl IH]; constructor; [|exact IH].
  eapply Forall_impl; [|exact Hp].
  intros q Hq. unfold apart, nearPoints in Hq.
  apply Qnot_lt_le. intro K.
  assert (W : within (px p) (py p) (px q) (py q) = true) by (apply within_spec; exact K).
  congruence.
Qed.

Lemma closestRightPoint_fold (points : list Point) (point : Point) :
  forall previous,
    let result :=
      fold_left
        (fun previous current =>
           if Qltb (Math_abs (py current - py point)) Tolerance
              && Qgtb (px current) (px point)
              && match previous with
                 | None => true
                 | Some p => Qltb (px current - px point) (px p - px point)
                 end
           then Some current
           else previous)
        points previous in
    match result with
    | Some r =>
        (Some r = previous \/ (In r points /\ isRightOf point r = true))
        /\ (forall q, In q points -> isRightOf point q = true -> px r <= px q)
        /\ (forall p, previous = Some p -> px r <= px p)
    | None =>
        previous = None
        /\ forall q, In q points -> isRightOf point q = false
    end.
Proof.
  induction points as [|c points IH]; intro previous; cbn [fold_left].
  - destruct previous as [p|].
    + split; [now left|]. split; [intros q []|].
      intros p' H. inversion H; subst. apply Qle_refl.
    + split; [reflexivity|intros q []].
  - change (Qltb (Math_abs (py c - py point)) Tolerance && Qgtb (px c) (px point))
      with (isRightOf point c).
    destruct (isRightOf point c) eqn:C; cbn [andb].
    + destruct previous as [p|].
      * destruct (Qltb (px c - px point) (px p - px point)) eqn:L.
        -- apply Qltb_lt in L. specialize (IH (Some c)). cbv zeta in IH.
           destruct (fold_left _ points (Some c)) as [r|];
             [|destruct IH as [IH _]; discriminate].
           destruct IH as (I1 & I2 & I3).
           pose proof (I3 c eq_refl) as Hc.
           split; [|split].
           ++ right. destruct I1 as [I1|[I1 I1']].
              ** inversion I1; subst. split; [now left|exact C].
              ** split; [now right|exact I1'].
           ++ intros q [<-|Hq] Hr; [exact Hc|apply I2; assumption].
           ++ intros p' Hp'. inversion Hp'; subst. lra.
        -- apply Qltb_ge in L. specialize (IH (Some p)). cbv zeta in IH.
           destruct (fold_left _ points (Some p)) as [r|];
             [|destruct IH as [IH _]; discriminate].
           destruct IH as (I1 & I2 & I3).
           pose proof (I3 p eq_refl) as Hp.
           split; [|split].
           ++ destruct I1 as [I1|[I1 I1']]; [now left|].
              right. split; [now right|exact I1'].
           ++ intros q [<-|Hq] Hr; [lra|apply I2; assumption].
           ++ exact I3.
      * specialize (IH (Some c)). cbv zeta in IH.
        destruct (fold_left _ points (Some c)) as [r|];
          [|destruct IH as [IH _]; discriminate].
        destruct IH as (I1 & I2 & I3).
        pose proof (I3 c eq_refl) as Hc.
        split; [|split].
        -- right. destruct I1 as [I1|[I1 I1']].
           ++ inversion I1; subst. split; [now left|exact C].
           ++ split; [now right|exact I1'].
        -- intros q [<-|Hq] Hr; [exact Hc|apply I2; assumption].
        -- intros p' Hp'. discriminate.
    + specialize (IH previous). cbv zeta in IH.
      destruct (fold_left _ points previous) as [r|].
      * destruct IH as (I1 & I2 & I3). split; [|split].
        -- destruct I1 as [I1|[I1 I1']]; [now left|].
           right. split; [now right|exact I1'].
        -- intros q [<-|Hq] Hr; [congruence|apply I2; assumption].
        -- exact I3.
      * destruct IH as [I1 I2]. split; [exact I1|].
        intros q [<-|Hq]; [exact C|apply I2, Hq].
Qed.

Lemma closestRightPoint_right (points : list Point) (point r : Point) :
  closestRightPoint points point = Some r -> isRightOf point r = true.
Proof.
  intro E. pose proof (closestRightPoint_fold points point None) as H.
  cbv zeta in H. fold (closestRightPoint points point) in H. rewrite E in H.
  destruct H as ([H|[H1 H2]] & _); [discriminate|exact H2].
Qed.


Lemma closestDownPoint_below (points : list Point) (point : Point) :
  forall previous r,
    fold_left
      (fun previous current =>
         if Qltb (Math_abs (px current - px point)) Tolerance
            && Qgtb (py current) (py point)
            && match previous with
               | None => true
               | Some p => Qltb (py current - py point) (py p - py point)
               end
         then Some current
         else previous)
      points previous = Some r ->
    Some r = previous \/ (In r points /\ isBelow point r = true).
Proof.
  induction points as [|c points IH]; intros previous r; cbn [fold_left].
  - intro H. now left.
  - change (Qltb (Math_abs (px c - px point)) Tolerance && Qgtb (py c) (py point))
      with (isBelow point c).
    intro H. apply IH in H.
    destruct (isBelow point c && _) eqn:C.
    + apply andb_true_iff in C. destruct C as [C _].
      destruct H as [H|[H1 H2]].
      * inversion H; subst. right. split; [now left|exact C].
      * right. split; [now right|exact H2].
    + destruct H as [H|[H1 H2]]; [now left|].
      right. split; [now right|exact H2].
Qed.

(** Every cell that [parseCells] builds has positive width and height and
    owns no element yet. *)
Theorem parseCells_positive (lines : list Rectangle) (cell : Cell) :
  In cell (parseCells lines) ->
  0 < width cell /\ 0 < height cell /\ elements cell = [].
Proof.
  unfold parseCells. intro H.
  apply (Permutation_in _ (sortBy_Permutation _ _)) in H.
  unfold constructCells in H.
  apply in_flat_map in H. destruct H as (p & _ & H).
  set (points := findPoints _ _) in H.
  destruct (closestRightPoint points p) as [r|] eqn:R; [|destruct H].
  destruct (closestDownPoint points p) as [d|] eqn:D; [|destruct H].
  destruct H as [<-|[]]. cbn.
  apply closestRightPoint_right in R. apply isRightOf_spec in R.
  unfold closestDownPoint in D. apply closestDownPoint_below in D.
  destruct D as [D|[_ D]]; [discriminate|]. apply isBelow_spec in D.
  repeat split; lra.
Qed.

Lemma parseCells_positive_witness :
  exists cell, In cell (parseCells (pageLines registerPage)) /\ 0 < width cell.
Proof.
  exists (hd (mkCell zeroRectangle []) (parseCells (pageLines registerPage))).
  assert (H : In (hd (mkCell zeroRectangle []) (parseCells (pageLines registerPage)))
                 (parseCells (pageLines registerPage)))
    by (vm_compute; left; reflexivity).
  split; [exact H|].
  apply (parseCells_positive (pageLines registerPage) _ H).
Defined.

Lemma findPoints_no_vertical (horizontalLines : list Line) :
  findPoints horizontalLines [] = [].
Proof.
  unfold findPoints. induction horizontalLines as [|h hs IH]; [reflexivity|].
  cbn [fold_left]. exact IH.
Qed.

Lemma findPoints_no_horizontal (verticalLines : list Line) :
  findPoints [] verticalLines = [].
Proof. reflexivity. Qed.

(** Rules of one direction alone form no grid: without a vertical line
    candidate, or without a horizontal one, there are no cells. *)
Theorem parseCells_one_direction (lines : list Rectangle) :
  verticalLinesOf lines = [] \/ horizontalLinesOf lines = [] ->
  parseCells lines = [].
Proof.
  intros [H|H]; unfold parseCells; rewrite H; cbn [sortBy].
  - now rewrite findPoints_no_vertical.
  - now rewrite findPoints_no_horizontal.
Qed.

Lemma parseCells_one_direction_witness :
  parseCells [mkRectangle 10 660 290 1; mkRectangle 10 680 290 1] = [].
Proof.
  apply (parseCells_one_direction
           [mkRectangle 10 660 290 1; mkRectangle 10 680 290 1]).
  left. vm_compute. reflexivity.
Defined.

(** ** Grid reconstruction on a lattice *)

Lemma Qleb_le (a b : Q) : Qleb a b = true <-> a <= b.
Proof. unfold Qleb. apply Qle_bool_iff. Qed.

Lemma separated_spec (coordinates : list Q) :
  separated coordinates = true ->
  forall a b, In a coordinates -> In b coordinates ->
              a == b \/ 3 <= a - b \/ 3 <= b - a.
Proof.
  unfold separated. intros H a b Ha Hb.
  rewrite forallb_forall in H. specialize (H a Ha).
  rewrite forallb_forall in H. specialize (H b Hb).
  apply orb_true_iff in H. destruct H as [H|H].
  - apply orb_true_iff in H. destruct H as [H|H].
    + left. apply Qeq_bool_iff, H.
    + right. left. apply Qleb_le in H. exact H.
  - right. right. apply Qleb_le in H. exact H.
Qed.

Lemma among_close (coordinates : list Q) (a b : Q) :
  separated coordinates = true ->
  among coordinates a -> among coordinates b ->
  - (3) < a - b -> a - b < 3 -> a == b.
Proof.
  intros Hs (a' & Ha & Ea) (b' & Hb & Eb) H1 H2.
  destruct (separated_spec _ Hs a' b' Ha Hb) as [E|[E|E]]; lra.
Qed.

Lemma among_In (coordinates : list Q) (a : Q) :
  In a coordinates -> among coordinates a.
Proof. intro H. exists a. split; [exact H|reflexivity]. Qed.

Lemma among_eq (coordinates : list Q) (a b : Q) :
  a == b -> among coordinates b -> among coordinates a.
Proof. intros E (c & Hc & Ec). exists c. split; [exact Hc|lra]. Qed.

Lemma samePoint_refl (p : Point) : samePoint p p.
Proof. split; reflexivity. Qed.

Lemma samePoint_sym (p q : Point) : samePoint p q -> samePoint q p.
Proof. intros [H1 H2]. split; symmetry; assumption. Qed.

Lemma samePoint_trans (p q r : Point) :
  samePoint p q -> samePoint q r -> samePoint p r.
Proof. intros [H1 H2] [H3 H4]. split; lra. Qed.

Lemma samePoint_near (p q : Point) : samePoint p q -> nearPoints p q = true.
Proof.
  intros [H1 H2]. unfold nearPoints. apply within_spec. nra.
Qed.

Section Lattice.

Variables abscissas ordinates : list Q.
Hypothesis abscissas_separated : separated abscissas = true.
Hypothesis ordinates_separated : separated ordinates = true.

Lemma near_samePoint (p q : Point) :
  onCoordinates abscissas ordinates p -> onCoordinates abscissas ordinates q ->
  nearPoints p q = true -> samePoint p q.
Proof.
  intros [Hpx Hpy] [Hqx Hqy] H. unfold nearPoints in H. apply within_spec in H.
  assert (Bx : - (3) < px p - px q /\ px p - px q < 3).
  { pose proof (square_nonneg (py p - py q)).
    split; apply Qnot_le_lt; intro K;
      assert (9 <= (px p - px q) * (px p - px q)) by nra; lra. }
  assert (By : - (3) < py p - py q /\ py p - py q < 3).
  { pose proof (square_nonneg (px p - px q)).
    split; apply Qnot_le_lt; intro K;
      assert (9 <= (py p - py q) * (py p - py q)) by nra; lra. }
  split.
  - apply (among_close abscissas); tauto.
  - apply (among_close ordinates); tauto.
Qed.

End Lattice.

(** The point collection as one pass over the candidates. *)

Lemma joinLines_candidates (points : list Point) (h v : Line) :
  joinLines points h v = fold_left addPoint (candidatePoints h v) points.
Proof.
  unfold joinLines, candidatePoints.
  destruct (intersectLines h v true) as [p|]; cbn [isDefined app];
    match goal with
    | |- context [if ?c then _ else _] => destruct c
    end; reflexivity.
Qed.

Lemma fold_left_flat_map {A B C : Type} (f : A -> B -> A) (g : C -> list B)
  (l : list C) (a : A) :
  fold_left f (flat_map g l) a
  = fold_left (fun a c => fold_left f (g c) a) l a.
Proof.
  revert a. induction l as [|c l IH]; intro a; [reflexivity|].
  cbn [flat_map fold_left]. rewrite fold_left_app. apply IH.
Qed.

Lemma findPoints_candidates (hs vs : list Line) :
  findPoints hs vs = fold_left addPoint (allCandidates hs vs) [].
Proof.
  unfold findPoints, allCandidates. rewrite fold_left_flat_map.
  generalize (@nil Point) as points.
  induction hs as [|h hs IH]; intro points; [reflexivity|].
  cbn [fold_left]. rewrite IH. f_equal.
  rewrite fold_left_flat_map. clear IH. revert points.
  induction vs as [|v vs IHv]; intro points; [reflexivity|].
  cbn [fold_left]. rewrite joinLines_candidates. apply IHv.
Qed.

Lemma allCandidates_In (hs vs : list Line) (c : Point) :
  In c (allCandidates hs vs)
  <-> exists h v, In h hs /\ In v vs /\ In c (candidatePoints h v).
Proof.
  unfold allCandidates. rewrite in_flat_map. split.
  - intros (h & Hh & H). apply in_flat_map in H. destruct H as (v & Hv & H).
    now exists h, v.
  - intros (h & v & Hh & Hv & H). exists h. split; [exact Hh|].
    apply in_flat_map. now exists v.
Qed.

Lemma addPoint_In (points : list Point) (c p : Point) :
  In p (addPoint points c) -> In p points \/ p = c.
Proof.
  unfold addPoint. destruct (existsb _ points); [now left|].
  intro H. apply in_app_or in H. destruct H as [H|[H|[]]]; [now left|now right].
Qed.

Lemma addPoint_keeps (points : list Point) (c p : Point) :
  In p points -> In p (addPoint points c).
Proof.
  unfold addPoint. destruct (existsb _ points); [tauto|].
  intro H. apply in_or_app. now left.
Qed.

Lemma addPoint_near (points : list Point) (c : Point) :
  exists p, In p (addPoint points c) /\ nearPoints c p = true.
Proof.
  unfold addPoint.
  destruct (existsb (fun point => within (px c) (py c) (px point) (py point))
                    points) eqn:E.
  - apply existsb_exists in E. destruct E as (p & Hp & H). now exists p.
  - exists c. split; [apply in_or_app; right; now left|].
    apply samePoint_near, samePoint_refl.
Qed.

Lemma addPoints_spec (candidates : list Point) :
  forall points,
    (forall p, In p (fold_left addPoint candidates points) ->
               In p points \/ In p candidates)
    /\ (forall p, In p points -> In p (fold_left addPoint candidates points))
    /\ (forall c, In c candidates ->
                  exists p, In p (fold_left addPoint candidates points)
                            /\ nearPoints c p = true).
Proof.
  induction candidates as [|c cs IH]; intro points; cbn [fold_left].
  - split; [intros p H; now left|]. split; [tauto|intros c []].
  - destruct (IH (addPoint points c)) as (I1 & I2 & I3).
    split; [|split].
    + intros p H. destruct (I1 p H) as [K|K]; [|right; now right].
      destruct (addPoint_In _ _ _ K) as [K'|K']; [now left|].
      right. left. now symmetry.
    + intros p H. apply I2, addPoint_keeps, H.
    + intros c' [<-|H]; [|apply I3, H].
      destruct (addPoint_near points c) as (p & Hp & Hn).
      exists p. split; [apply I2, Hp|exact Hn].
Qed.

Lemma addPoints_apart (candidates : list Point) :
  forall points,
    ForallOrdPairs apart points ->
    ForallOrdPairs apart (fold_left addPoint candidates points).
Proof.
  induction candidates as [|c cs IH]; intros points H; [exact H|].
  cbn [fold_left]. apply IH, addPoint_apart, H.
Qed.

(** A horizontal and a vertical line meet, if at all, at the abscissa of
    the vertical and the ordinate of the horizontal one. *)
Lemma intersectLines_axes (h v : Line) (p : Point) :
  y1 h == y2 h -> x1 v == x2 v ->
  intersectLines h v true = Some p -> px p == x1 v /\ py p == y1 h.
Proof.
  intros Hh Hv. unfold intersectLines.
  destruct (_ || _); [discriminate|].
  set (den := (y2 v - y1 v) * (x2 h - x1 h) - (x2 h - x1 h) * (y2 h - y1 h)).
  destruct (Qeq_bool den 0) eqn:E; [discriminate|].
  apply Qeq_bool_false in E.
  destruct (true && _); [discriminate|].
  intro H. injection H as <-. cbn [px py].
  assert (Hden : den == (y2 v - y1 v) * (x2 h - x1 h)).
  { unfold den. rewrite <- Hh. ring. }
  assert (Hn : ~ (y2 v - y1 v) * (x2 h - x1 h) == 0) by (rewrite <- Hden; exact E).
  assert (Hn1 : ~ y2 v - y1 v == 0) by (intro K; apply Hn; rewrite K; ring).
  assert (Hn2 : ~ x2 h - x1 h == 0) by (intro K; apply Hn; rewrite K; ring).
  split.
  - rewrite Hden. rewrite <- Hv. field. split; assumption.
  - rewrite <- Hh. ring.
Qed.

Lemma closestDownPoint_fold (points : list Point) (point : Point) :
  forall previous,
    let result :=
      fold_left
        (fun previous current =>
           if Qltb (Math_abs (px current - px point)) Tolerance
              && Qgtb (py current) (py point)
              && match previous with
                 | None => true
                 | Some p => Qltb (py current - py point) (py p - py point)
                 end
           then Some current
           else previous)
        points previous in
    match result with
    | Some r =>
        (Some r = previous \/ (In r points /\ isBelow point r = true))
        /\ (forall q, In q points -> isBelow point q = true -> py r <= py q)
        /\ (forall p, previous = Some p -> py r <= py p)
    | None =>
        previous = None
        /\ forall q, In q points -> isBelow point q = false
    end.
Proof.
  induction points as [|c points IH]; intro previous; cbn [fold_left].
  - destruct previous as [p|].
    + split; [now left|]. split; [intros q []|].
      intros p' H. inversion H; subst. apply Qle_refl.
    + split; [reflexivity|intros q []].
  - change (Qltb (Math_abs (px c - px point)) Tolerance && Qgtb (py c) (py point))
      with (isBelow point c).
    destruct (isBelow point c) eqn:C; cbn [andb].
    + destruct previous as [p|].
      * destruct (Qltb (py c - py point) (py p - py point)) eqn:L.
        -- apply Qltb_lt in L. specialize (IH (Some c)). cbv zeta in IH.
           destruct (fold_left _ points (Some c)) as [r|];
             [|destruct IH as [IH _]; discriminate].
           destruct IH as (I1 & I2 & I3).
           pose proof (I3 c eq_refl) as Hc.
           split; [|split].
           ++ right. destruct I1 as [I1|[I1 I1']].
              ** inversion I1; subst. split; [now left|exact C].
              ** split; [now right|exact I1'].
           ++ intros q [<-|Hq] Hr; [exact Hc|apply I2; assumption].
           ++ intros p' Hp'. inversion Hp'; subst. lra.
        -- apply Qltb_ge in L. specialize (IH (Some p)). cbv zeta in IH.
           destruct (fold_left _ points (Some p)) as [r|];
             [|destruct IH as [IH _]; discriminate].
           destruct IH as (I1 & I2 & I3).
           pose proof (I3 p eq_refl) as Hp.
           split; [|split].
           ++ destruct I1 as [I1|[I1 I1']]; [now left|].
              right. split; [now right|exact I1'].
           ++ intros q [<-|Hq] Hr; [lra|apply I2; assumption].
           ++ exact I3.
      * specialize (IH (Some c)). cbv zeta in IH.
        destruct (fold_left _ points (Some c)) as [r|];
          [|destruct IH as [IH _]; discriminate].
        destruct IH as (I1 & I2 & I3).
        pose proof (I3 c eq_refl) as Hc.
        split; [|split].
        -- right. destruct I1 as [I1|[I1 I1']].
           ++ inversion I1; subst. split; [now left|exact C].
           ++ split; [now right|exact I1'].
        -- intros q [<-|Hq] Hr; [exact Hc|apply I2; assumption].
        -- intros p' Hp'. discriminate.
    + specialize (IH previous). cbv zeta in IH.
      destruct (fold_left _ points previous) as [r|].
      * destruct IH as (I1 & I2 & I3). split; [|split].
        -- destruct I1 as [I1|[I1 I1']]; [now left|].
           right. split; [now right|exact I1'].
        -- intros q [<-|Hq] Hr; [congruence|apply I2; assumption].
        -- exact I3.
      * destruct IH as [I1 I2]. split; [exact I1|].
        intros q [<-|Hq]; [exact C|apply I2, Hq].
Qed.

Lemma closestRightPoint_cases (points : list Point) (point : Point) :
  match closestRightPoint points point with
  | Some r =>
      In r points /\ isRightOf point r = true
      /\ forall q, In q points -> isRightOf point q = true -> px r <= px q
  | None => forall q, In q points -> isRightOf point q = false
  end.
Proof.
  pose proof (closestRightPoint_fold points point None) as H. cbv zeta in H.
  fold (closestRightPoint points point) in H.
  destruct (closestRightPoint points point) as [r|].
  - destruct H as ([H|[H1 H2]] & H3 & _); [discriminate|]. now repeat split.
  - apply H.
Qed.

Lemma closestDownPoint_cases (points : list Point) (point : Point) :
  match closestDownPoint points point with
  | Some r =>
      In r points /\ isBelow point r = true
      /\ forall q, In q points -> isBelow point q = true -> py r <= py q
  | None => forall q, In q points -> isBelow point q = false
  end.
Proof.
  pose proof (closestDownPoint_fold points point None) as H. cbv zeta in H.
  fold (closestDownPoint points point) in H.
  destruct (closestDownPoint points point) as [r|].
  - destruct H as ([H|[H1 H2]] & H3 & _); [discriminate|]. now repeat split.
  - apply H.
Qed.

Lemma isRightOf_samePoint (p p' q q' : Point) :
  samePoint p p' -> samePoint q q' -> isRightOf p q = isRightOf p' q'.
Proof.
  intros [H1 H2] [H3 H4].
  destruct (isRightOf p q) eqn:E; symmetry.
  - apply isRightOf_spec in E. apply isRightOf_spec. lra.
  - destruct (isRightOf p' q') eqn:E'; [|reflexivity].
    apply isRightOf_spec in E'.
    assert (K : isRightOf p q = true) by (apply isRightOf_spec; lra).
    congruence.
Qed.

Lemma isBelow_samePoint (p p' q q' : Point) :
  samePoint p p' -> samePoint q q' -> isBelow p q = isBelow p' q'.
Proof.
  intros [H1 H2] [H3 H4].
  destruct (isBelow p q) eqn:E; symmetry.
  - apply isBelow_spec in E. apply isBelow_spec. lra.
  - destruct (isBelow p' q') eqn:E'; [|reflexivity].
    apply isBelow_spec in E'.
    assert (K : isBelow p q = true) by (apply isBelow_spec; lra).
    congruence.
Qed.

Section SamePoints.

Variables abscissas ordinates : list Q.
Hypothesis abscissas_separated : separated abscissas = true.
Hypothesis ordinates_separated : separated ordinates = true.

Variables points points' : list Point.
Hypothesis points_on : Forall (onCoordinates abscissas ordinates) points.
Hypothesis points_on' : Forall (onCoordinates abscissas ordinates) points'.
Hypothesis points_to : forall p, In p points -> exists p', In p' points' /\ samePoint p p'.
Hypothesis points_from : forall p', In p' points' -> exists p, In p points /\ samePoint p p'.

Lemma closestRightPoint_same (p p' : Point) :
  In p points -> samePoint p p' ->
  sameFound (closestRightPoint points p) (closestRightPoint points' p').
Proof.
  intros Hp Hs.
  assert (On : onCoordinates abscissas ordinates p)
    by (rewrite Forall_forall in points_on; now apply points_on).
  pose proof (closestRightPoint_cases points p) as R.
  pose proof (closestRightPoint_cases points' p') as R'.
  destruct (closestRightPoint points p) as [r|],
           (closestRightPoint points' p') as [r'|]; cbn.
  - destruct R as (Hr & Rr & Rmin). destruct R' as (Hr' & Rr' & Rmin').
    destruct (points_to r Hr) as (s' & Hs' & Es).
    destruct (points_from r' Hr') as (s & Hs0 & Es').
    assert (K1 : px r' <= px s').
    { apply Rmin'; [exact Hs'|].
      rewrite <- (isRightOf_samePoint p p' r s' Hs Es). exact Rr. }
    assert (K2 : px r <= px s).
    { apply Rmin; [exact Hs0|].
      rewrite (isRightOf_samePoint p p' s r' Hs Es'). exact Rr'. }
    destruct Es as [Es1 Es2]. destruct Es' as [Es1' Es2'].
    split; [lra|].
    apply isRightOf_spec in Rr. apply isRightOf_spec in Rr'.
    destruct Hs as [Hs1 Hs2].
    assert (Or : onCoordinates abscissas ordinates r)
      by (rewrite Forall_forall in points_on; now apply points_on).
    assert (Or' : onCoordinates abscissas ordinates r')
      by (rewrite Forall_forall in points_on'; now apply points_on').
    assert (E1 : py r == py p)
      by (apply (among_close ordinates); [assumption|apply Or|apply On|lra|lra]).
    assert (E2 : py r' == py p).
    { apply (among_close ordinates); [assumption|apply Or'|apply On|lra|lra]. }
    lra.
  - destruct R as (Hr & Rr & _).
    destruct (points_to r Hr) as (s' & Hs' & Es).
    rewrite (isRightOf_samePoint p p' r s' Hs Es) in Rr.
    rewrite (R' s' Hs') in Rr. discriminate.
  - destruct R' as (Hr' & Rr' & _).
    destruct (points_from r' Hr') as (s & Hs0 & Es).
    rewrite <- (isRightOf_samePoint p p' s r' Hs Es) in Rr'.
    rewrite (R s Hs0) in Rr'. discriminate.
  - exact I.
Qed.

Lemma closestDownPoint_same (p p' : Point) :
  In p points -> samePoint p p' ->
  sameFound (closestDownPoint points p) (closestDownPoint points' p').
Proof.
  intros Hp Hs.
  assert (On : onCoordinates abscissas ordinates p)
    by (rewrite Forall_forall in points_on; now apply points_on).
  pose proof (closestDownPoint_cases points p) as R.
  pose proof (closestDownPoint_cases points' p') as R'.
  destruct (closestDownPoint points p) as [r|],
           (closestDownPoint points' p') as [r'|]; cbn.
  - destruct R as (Hr & Rr & Rmin). destruct R' as (Hr' & Rr' & Rmin').
    destruct (points_to r Hr) as (s' & Hs' & Es).
    destruct (points_from r' Hr') as (s & Hs0 & Es').
    assert (K1 : py r' <= py s').
    { apply Rmin'; [exact Hs'|].
      rewrite <- (isBelow_samePoint p p' r s' Hs Es). exact Rr. }
    assert (K2 : py r <= py s).
    { apply Rmin; [exact Hs0|].
      rewrite (isBelow_samePoint p p' s r' Hs Es'). exact Rr'. }
    destruct Es as [Es1 Es2]. destruct Es' as [Es1' Es2'].
    apply isBelow_spec in Rr. apply isBelow_spec in Rr'.
    destruct Hs as [Hs1 Hs2].
    assert (Or : onCoordinates abscissas ordinates r)
      by (rewrite Forall_forall in points_on; now apply points_on).
    assert (Or' : onCoordinates abscissas ordinates r')
      by (rewrite Forall_forall in points_on'; now apply points_on').
    assert (E1 : px r == px p)
      by (apply (among_close abscissas); [assumption|apply Or|apply On|lra|lra]).
    assert (E2 : px r' == px p).
    { apply (among_close abscissas); [assumption|apply Or'|apply On|lra|lra]. }
    split; lra.
  - destruct R as (Hr & Rr & _).
    destruct (points_to r Hr) as (s' & Hs' & Es).
    rewrite (isBelow_samePoint p p' r s' Hs Es) in Rr.
    rewrite (R' s' Hs') in Rr. discriminate.
  - destruct R' as (Hr' & Rr' & _).
    destruct (points_from r' Hr') as (s & Hs0 & Es).
    rewrite <- (isBelow_samePoint p p' s r' Hs Es) in Rr'.
    rewrite (R s Hs0) in Rr'. discriminate.
  - exact I.
Qed.

(** Every cell built from [points] is built from [points'] too. *)
Lemma constructCells_same (cell : Cell) :
  In cell (constructCells points) ->
  exists cell', In cell' (constructCells points') /\ sameCell cell cell'.
Proof.
  unfold constructCells. intro H. apply in_flat_map in H.
  destruct H as (p & Hp & H).
  destruct (points_to p Hp) as (p' & Hp' & Hs).
  pose proof (closestRightPoint_same p p' Hp Hs) as R.
  pose proof (closestDownPoint_same p p' Hp Hs) as D.
  destruct (closestRightPoint points p) as [r|] eqn:ER; [|destruct H].
  destruct (closestDownPoint points p) as [d|] eqn:ED; [|destruct H].
  destruct H as [<-|[]].
  destruct (closestRightPoint points' p') as [r'|] eqn:ER'; [|destruct R].
  destruct (closestDownPoint points' p') as [d'|] eqn:ED'; [|destruct D].
  cbn in R, D.
  exists (mkCell (mkRectangle (px p') (py p') (px r' - px p') (py d' - py p')) []).
  split.
  - apply in_flat_map. exists p'. split; [exact Hp'|].
    rewrite ER', ED'. now left.
  - destruct Hs as [H1 H2], R as [R1 R2], D as [D1 D2].
    unfold sameCell, sameRectangle. cbn. repeat split; lra.
Qed.

End SamePoints.

(** The cells of a point list: corners and order. *)

Lemma constructCells_corner (points : list Point) (cell : Cell) :
  In cell (constructCells points) ->
  exists p, In p points /\ x cell = px p /\ y cell = py p.
Proof.
  unfold constructCells. intro H. apply in_flat_map in H.
  destruct H as (p & Hp & H).
  destruct (closestRightPoint points p) as [r|]; [|destruct H].
  destruct (closestDownPoint points p) as [d|]; [|destruct H].
  destruct H as [<-|[]]. exists p. now repeat split.
Qed.

Lemma ForallOrdPairs_app {A : Type} (R : A -> A -> Prop) (l1 l2 : list A) :
  ForallOrdPairs R l1 -> ForallOrdPairs R l2 ->
  (forall a b, In a l1 -> In b l2 -> R a b) ->
  ForallOrdPairs R (l1 ++ l2).
Proof.
  intros H1 H2 H. induction H1 as [|a l1 Ha H1 IH]; [exact H2|].
  cbn. constructor.
  - apply Forall_app. split; [exact Ha|].
    apply Forall_forall. intros b Hb. apply H; [now left|exact Hb].
  - apply IH. intros a' b Ha' Hb. apply H; [now right|exact Hb].
Qed.

Lemma cellsOf_distinct (found : Point -> list Cell) (points : list Point) :
  (forall p, (List.length (found p) <= 1)%nat) ->
  (forall p cell, In cell (found p) -> x cell = px p /\ y cell = py p) ->
  ForallOrdPairs apart points ->
  ForallOrdPairs (fun a b : Cell => ~ sameCorner a b) (flat_map found points).
Proof.
  intros Hone Hcorner H. induction H as [|p points Hp H IH]; [constructor|].
  cbn [flat_map]. apply ForallOrdPairs_app.
  - specialize (Hone p). destruct (found p) as [|c [|c' l]]; cbn in Hone.
    + constructor.
    + constructor; [constructor|constructor].
    + lia.
  - exact IH.
  - intros a b Ha Hb [E1 E2]. apply in_flat_map in Hb.
    destruct Hb as (q & Hq & Hb).
    destruct (Hcorner p a Ha) as [A1 A2]. destruct (Hcorner q b Hb) as [B1 B2].
    rewrite Forall_forall in Hp. specialize (Hp q Hq). unfold apart in Hp.
    rewrite samePoint_near in Hp; [discriminate|].
    split; [rewrite <- A1, <- B1; exact E1|rewrite <- A2, <- B2; exact E2].
Qed.

Lemma constructCells_distinct (points : list Point) :
  ForallOrdPairs apart points ->
  ForallOrdPairs (fun a b : Cell => ~ sameCorner a b) (constructCells points).
Proof.
  unfold constructCells. apply cellsOf_distinct.
  - intro p. destruct (closestRightPoint points p); [|cbn; lia].
    destruct (closestDownPoint points p); cbn; lia.
  - intros p cell H.
    destruct (closestRightPoint points p); [|destruct H].
    destruct (closestDownPoint points p); [|destruct H].
    destruct H as [<-|[]]. now split.
Qed.

#[local] Instance sameCell_Equivalence : Equivalence sameCell.
Proof.
  split.
  - intro a. unfold sameCell, sameRectangle. repeat split; reflexivity.
  - intros a b (H1 & H2 & H3 & H4). unfold sameCell, sameRectangle.
    repeat split; symmetry; assumption.
  - intros a b c (H1 & H2 & H3 & H4) (K1 & K2 & K3 & K4).
    unfold sameCell, sameRectangle. repeat split; lra.
Qed.

#[local] Instance cellBefore_StrictOrder : StrictOrder cellBefore.
Proof.
  split.
  - intros a [H|[_ H]]; lra.
  - intros a b c [H|[H1 H2]] [K|[K1 K2]]; unfold cellBefore;
      [left; lra|left; lra|left; lra|right; split; lra].
Qed.

#[local] Instance cellBefore_Proper :
  Proper (sameCell ==> sameCell ==> iff) cellBefore.
Proof.
  intros a a' (A1 & A2 & _) b b' (B1 & B2 & _). unfold cellBefore.
  split; intros [H|[H1 H2]]; [left; lra|right; split; lra
                             |left; lra|right; split; lra].
Qed.

Section CellSort.

Variable ordinates : list Q.
Hypothesis ordinates_separated : separated ordinates = true.

Lemma cellComparer_before (a b : Cell) :
  among ordinates (y a) -> among ordinates (y b) -> ~ sameCorner a b ->
  if (cellComparer a b <=? 0)%Z then cellBefore a b else cellBefore b a.
Proof.
  intros Ha Hb Hd. unfold cellComparer, rowComparer, cellBefore.
  destruct (Qltb (Math_abs (y a - y b)) Tolerance) eqn:T.
  - apply Math_abs_lt in T. unfold Tolerance in T.
    assert (E : y a == y b)
      by (apply (among_close ordinates); [assumption|assumption|assumption|lra|lra]).
    destruct (Qgtb (x a) (x b)) eqn:G.
    + apply Qgtb_gt in G. cbn. right. split; [lra|exact G].
    + destruct (Qltb (x a) (x b)) eqn:L.
      * apply Qltb_lt in L. cbn. right. split; assumption.
      * apply Qgtb_le in G. apply Qltb_ge in L.
        exfalso. apply Hd. split; [lra|exact E].
  - assert (N : ~ (- (3) < y a - y b /\ y a - y b < 3)).
    { intro K. apply (proj2 (Math_abs_lt (y a - y b) 3)) in K.
      unfold Tolerance in T. congruence. }
    destruct (Qgtb (y a) (y b)) eqn:G.
    + apply Qgtb_gt in G. cbn. left. exact G.
    + apply Qgtb_le in G. cbn. left. lra.
Qed.

End CellSort.

Section CellOrder.

Variable ordinates : list Q.
Hypothesis ordinates_separated : separated ordinates = true.

Lemma insertBy_HdRel_before (a b : Cell) (l : list Cell) :
  cellBefore b a -> HdRel cellBefore b l ->
  HdRel cellBefore b (insertBy cellComparer a l).
Proof.
  intros Hba H. destruct l as [|c l]; cbn.
  - constructor. exact Hba.
  - destruct (cellComparer a c <=? 0)%Z; constructor; [exact Hba|].
    inversion H; assumption.
Qed.

Lemma insertBy_Sorted_before (a : Cell) (l : list Cell) :
  among ordinates (y a) ->
  Forall (fun b : Cell => among ordinates (y b)) l ->
  Forall (fun b : Cell => ~ sameCorner a b) l ->
  Sorted cellBefore l -> Sorted cellBefore (insertBy cellComparer a l).
Proof.
  intros Ha Hl Hd Hs. induction l as [|b l IH]; cbn.
  - constructor; constructor.
  - inversion Hl as [|? ? Hb Hl']; subst.
    inversion Hd as [|? ? Hdb Hd']; subst.
    inversion Hs as [|? ? Hs' Hhd]; subst.
    pose proof (cellComparer_before ordinates ordinates_separated a b Ha Hb Hdb) as C.
    destruct (cellComparer a b <=? 0)%Z.
    + constructor; [exact Hs|]. constructor. exact C.
    + constructor; [apply IH; assumption|].
      apply insertBy_HdRel_before; assumption.
Qed.

Lemma sortBy_Sorted_before (l : list Cell) :
  Forall (fun b : Cell => among ordinates (y b)) l ->
  ForallOrdPairs (fun a b : Cell => ~ sameCorner a b) l ->
  Sorted cellBefore (sortBy cellComparer l).
Proof.
  intros Hl Hd. induction l as [|a l IH]; cbn; [constructor|].
  inversion Hl as [|? ? Ha Hl']; subst.
  inversion Hd as [|? ? Hda Hd']; subst.
  apply insertBy_Sorted_before.
  - exact Ha.
  - apply Forall_forall. intros b Hb.
    apply (Permutation_in _ (sortBy_Permutation cellComparer l)) in Hb.
    rewrite Forall_forall in Hl'. now apply Hl'.
  - apply Forall_forall. intros b Hb.
    apply (Permutation_in _ (sortBy_Permutation cellComparer l)) in Hb.
    rewrite Forall_forall in Hda. now apply Hda.
  - apply IH; assumption.
Qed.

End CellOrder.

Lemma eqlistA_sameCells (cells cells' : list Cell) :
  eqlistA sameCell cells cells' -> sameCells cells cells'.
Proof.
  intro H. induction H as [|a a' l l' Ha H IH]; constructor; assumption.
Qed.

Lemma endAbscissas_In (lines : list Line) (line : Line) :
  In line lines ->
  In (x1 line) (endAbscissas lines) /\ In (x2 line) (endAbscissas lines).
Proof.
  intro H. unfold endAbscissas. split; apply in_flat_map; exists line;
    (split; [exact H|cbn; tauto]).
Qed.

Lemma endOrdinates_In (lines : list Line) (line : Line) :
  In line lines ->
  In (y1 line) (endOrdinates lines) /\ In (y2 line) (endOrdinates lines).
Proof.
  intro H. unfold endOrdinates. split; apply in_flat_map; exists line;
    (split; [exact H|cbn; tauto]).
Qed.

Section Reconstruction.

Variables hs vs : list Line.
Hypothesis hs_horizontal : forall h, In h hs -> y1 h = y2 h.
Hypothesis vs_vertical : forall v, In v vs -> x1 v = x2 v.

Variables abscissas ordinates : list Q.
Hypothesis abscissas_hold :
  forall line, In line (hs ++ vs) ->
               In (x1 line) abscissas /\ In (x2 line) abscissas.
Hypothesis ordinates_hold :
  forall line, In line (hs ++ vs) ->
               In (y1 line) ordinates /\ In (y2 line) ordinates.
Hypothesis abscissas_separated : separated abscissas = true.
Hypothesis ordinates_separated : separated ordinates = true.

Lemma candidatePoints_on (h v : Line) (c : Point) :
  In h hs -> In v vs -> In c (candidatePoints h v) ->
  onCoordinates abscissas ordinates c.
Proof.
  intros Hh Hv H.
  destruct (abscissas_hold h) as [Xh1 Xh2]; [apply in_or_app; now left|].
  destruct (abscissas_hold v) as [Xv1 Xv2]; [apply in_or_app; now right|].
  destruct (ordinates_hold h) as [Yh1 Yh2]; [apply in_or_app; now left|].
  destruct (ordinates_hold v) as [Yv1 Yv2]; [apply in_or_app; now right|].
  unfold candidatePoints in H. apply in_app_or in H. destruct H as [H|H].
  - destruct (intersectLines h v true) as [p|] eqn:E; [|destruct H].
    destruct H as [<-|[]].
    destruct (intersectLines_axes h v p) as [E1 E2];
      [rewrite (hs_horizontal h Hh); reflexivity
      |rewrite (vs_vertical v Hv); reflexivity|exact E|].
    split; [apply (among_eq _ _ _ E1), among_In, Xv1
           |apply (among_eq _ _ _ E2), among_In, Yh1].
  - destruct (_ || _); [|destruct H].
    destruct H as [<-|[<-|[<-|[<-|[]]]]]; split; cbn; apply among_In; assumption.
Qed.

Section Orders.

(** Two orders of the same lines. *)
Variables hs1 vs1 hs2 vs2 : list Line.
Hypothesis hs1_hs : forall h, In h hs1 <-> In h hs.
Hypothesis vs1_vs : forall v, In v vs1 <-> In v vs.
Hypothesis hs2_hs : forall h, In h hs2 <-> In h hs.
Hypothesis vs2_vs : forall v, In v vs2 <-> In v vs.

Lemma findPoints_on :
  Forall (onCoordinates abscissas ordinates) (findPoints hs1 vs1).
Proof.
  apply Forall_forall. intros p Hp. rewrite findPoints_candidates in Hp.
  destruct (addPoints_spec (allCandidates hs1 vs1) []) as (I1 & _).
  destruct (I1 p Hp) as [[]|Hc].
  apply allCandidates_In in Hc. destruct Hc as (h & v & Hh & Hv & Hc).
  apply (candidatePoints_on h v); [apply hs1_hs, Hh|apply vs1_vs, Hv|exact Hc].
Qed.

Lemma findPoints_same (p : Point) :
  In p (findPoints hs1 vs1) ->
  exists p', In p' (findPoints hs2 vs2) /\ samePoint p p'.
Proof.
  intro Hp. rewrite findPoints_candidates in Hp.
  destruct (addPoints_spec (allCandidates hs1 vs1) []) as (I1 & _).
  destruct (I1 p Hp) as [[]|Hc].
  apply allCandidates_In in Hc. destruct Hc as (h & v & Hh & Hv & Hc).
  assert (Hc2 : In p (allCandidates hs2 vs2)).
  { apply allCandidates_In. exists h, v.
    split; [apply hs2_hs, hs1_hs, Hh|]. split; [apply vs2_vs, vs1_vs, Hv|exact Hc]. }
  destruct (addPoints_spec (allCandidates hs2 vs2) []) as (J1 & _ & J3).
  destruct (J3 p Hc2) as (p' & Hp' & Hn).
  rewrite <- findPoints_candidates in Hp'.
  exists p'. split; [exact Hp'|].
  apply (near_samePoint abscissas ordinates); try assumption.
  - apply (candidatePoints_on h v); [apply hs1_hs, Hh|apply vs1_vs, Hv|exact Hc].
  - rewrite findPoints_candidates in Hp'.
    destruct (J1 p' Hp') as [[]|Hc'].
    apply allCandidates_In in Hc'. destruct Hc' as (h' & v' & Hh' & Hv' & Hc').
    apply (candidatePoints_on h' v'); [apply hs2_hs, Hh'|apply vs2_vs, Hv'|exact Hc'].
Qed.

End Orders.

End Reconstruction.

Lemma sortBy_In {A : Type} (comparer : A -> A -> Z) (l : list A) (a : A) :
  In a (sortBy comparer l) <-> In a l.
Proof.
  split; apply Permutation_in;
    [apply sortBy_Permutation|apply Permutation_sym, sortBy_Permutation].
Qed.

Lemma horizontalLinesOf_level (lines : list Rectangle) (h : Line) :
  In h (horizontalLinesOf lines) -> y1 h = y2 h.
Proof.
  unfold horizontalLinesOf. intro H. apply in_map_iff in H.
  destruct H as (r & <- & _). reflexivity.
Qed.

Lemma verticalLinesOf_upright (lines : list Rectangle) (v : Line) :
  In v (verticalLinesOf lines) -> x1 v = x2 v.
Proof.
  unfold verticalLinesOf. intro H. apply in_map_iff in H.
  destruct H as (r & <- & _). reflexivity.
Qed.

Lemma findPoints_pairwise_apart (hs vs : list Line) :
  ForallOrdPairs apart (findPoints hs vs).
Proof. rewrite findPoints_candidates. apply addPoints_apart. constructor. Qed.



(** ** Primitive extractor *)

Lemma walkPath_pending (operations : list PathOperation) (arguments : list Q) :
  forall argumentIndex transform pending result,
    walkPath operations arguments argumentIndex transform pending
    = Returned result ->
    (pendingCount result
     <= pendingCount pending
        + if existsb (fun operation =>
                        match operation with
                        | OPS_rectangle => true
                        | _ => false
                        end) operations
          then 1 else 0)%nat.
Proof.
  induction operations as [|operation later IH];
    intros argumentIndex transform pending result H.
  - cbn in H. inversion H; subst. cbn. lia.
  - destruct operation; cbn [walkPath existsb orb] in *.
    + apply IH in H. exact H.
    + apply IH in H. exact H.
    + destruct transform as [m|]; [|discriminate].
      assert (pendingCount result <= 1)%nat by (destruct result; cbn; lia).
      destruct pending; cbn; lia.
    + apply IH in H. exact H.
Qed.

Lemma walkOperators_counts (operators : list Operator) :
  forall w w',
    walkOperators w operators = Returned w' ->
    (List.length (walkLines w')
     <= List.length (walkLines w) + List.length (filter isFill operators))%nat
    /\ (List.length (walkLines w') + pendingCount (pendingRectangle w')
        <= List.length (walkLines w) + pendingCount (pendingRectangle w)
           + List.length (filter hasRectangle operators))%nat.
Proof.
  induction operators as [|operator later IH]; intros w w' H.
  - cbn in H. inversion H; subst. cbn. lia.
  - cbn [walkOperators] in H.
    destruct (walkOperator w operator) as [w1|] eqn:E; [|discriminate].
    cbn [bind] in H. destruct (IH _ _ H) as [I1 I2]. clear IH H.
    destruct operator; cbn [walkOperator] in E; cbn [filter isFill hasRectangle].
    + destruct (transformStack w); inversion E; subst; cbn in *; lia.
    + inversion E; subst; cbn in *; lia.
    + destruct (currentTransform w); [|discriminate].
      inversion E; subst; cbn in *; lia.
    + destruct (walkPath operations arguments 0 (currentTransform w)
                         (pendingRectangle w)) as [pending|] eqn:P;
        [|discriminate].
      cbn [bind] in E. inversion E; subst. cbn [walkLines pendingRectangle] in *.
      apply walkPath_pending in P.
      destruct (existsb _ operations); cbn [List.length]; lia.
    + destruct (pendingRectangle w) eqn:P; inversion E; subst;
        cbn [walkLines pendingRectangle List.length pendingCount] in *;
        rewrite ?length_app in *; cbn [List.length] in *; rewrite ?P in *;
        cbn [pendingCount] in *; lia.
    + destruct (pendingRectangle w) eqn:P; inversion E; subst;
        cbn [walkLines pendingRectangle List.length pendingCount] in *;
        rewrite ?length_app in *; cbn [List.length] in *; rewrite ?P in *;
        cbn [pendingCount] in *; lia.
    + inversion E; subst. lia.
Qed.

(** The walk emits at most one line candidate for every fill operator and
    at most one for every path that holds a rectangle. *)
Theorem findLines_bounded (operators : list Operator) (candidates : list Candidate) :
  findLines operators = Returned candidates ->
  (List.length candidates <= List.length (filter isFill operators))%nat
  /\ (List.length candidates <= List.length (filter hasRectangle operators))%nat.
Proof.
  unfold findLines.
  destruct (walkOperators initialWalk operators) as [w|] eqn:E; [|discriminate].
  cbn [bind]. intro H. inversion H; subst.
  destruct (walkOperators_counts _ _ _ E) as [I1 I2]. cbn in I1, I2.
  split; lia.
Qed.

Lemma findLines_bounded_witness :
  exists candidates,
    findLines boxOperators = Returned candidates
    /\ (List.length candidates <= List.length (filter isFill boxOperators))%nat.
Proof.
  eexists.
  assert (H : findLines boxOperators
              = Returned [ Measured (transformedRectangle 0 0 100 1
                                       (Util_transform identityMatrix
                                          (mkMatrix 1 0 0 1 10 660)));
                           Measured (transformedRectangle 0 20 100 1
                                       (Util_transform identityMatrix
                                          (mkMatrix 1 0 0 1 10 660)));
                           Measured (transformedRectangle 0 0 1 20
                                       (Util_transform identityMatrix
                                          (mkMatrix 1 0 0 1 10 660)));
                           Measured (transformedRectangle 100 0 1 20
                                       (Util_transform identityMatrix
                                          (mkMatrix 1 0 0 1 10 660))) ])
    by reflexivity.
  split; [exact H|].
  apply (findLines_bounded boxOperators _ H).
Defined.

Lemma walkOperators_app (operators more : list Operator) :
  forall w,
    walkOperators w (operators ++ more)
    = bind (walkOperators w operators) (fun w' => walkOperators w' more).
Proof.
  induction operators as [|operator later IH]; intro w; [reflexivity|].
  cbn [app walkOperators].
  destruct (walkOperator w operator); [|reflexivity].
  cbn [bind]. apply IH.
Qed.

Lemma walkOperators_stack (operators : list Operator) :
  forallb (fun operator => negb (touchesStack operator)) operators = true ->
  forall w w',
    walkOperators w operators = Returned w' ->
    transformStack w' = transformStack w.
Proof.
  induction operators as [|operator later IH]; intros Hs w w' H.
  - cbn in H. now inversion H.
  - cbn [forallb] in Hs. apply andb_true_iff in Hs. destruct Hs as [Ho Hs].
    cbn [walkOperators] in H.
    destruct (walkOperator w operator) as [w1|] eqn:E; [|discriminate].
    cbn [bind] in H. rewrite (IH Hs _ _ H).
    destruct operator; cbn [walkOperator touchesStack negb] in E, Ho;
      try discriminate.
    + destruct (currentTransform w); [|discriminate]. now inversion E.
    + destruct (walkPath _ _ _ _ _); [|discriminate]. now inversion E.
    + destruct (pendingRectangle w); now inversion E.
    + destruct (pendingRectangle w); now inversion E.
    + now inversion E.
Qed.

(** What happens to the transform between a save and its restore stays
    there: after the restore the transform and the stack are what they
    were before the save. *)
Theorem save_restore_scope (operators : list Operator) (w w' : Walk) :
  forallb (fun operator => negb (touchesStack operator)) operators = true ->
  walkOperators w (OPS_save :: operators ++ [OPS_restore]) = Returned w' ->
  currentTransform w' = currentTransform w
  /\ transformStack w' = transformStack w.
Proof.
  intros Hs H. cbn [walkOperators walkOperator bind] in H.
  rewrite walkOperators_app in H.
  destruct (walkOperators _ operators) as [w1|] eqn:E; [|discriminate].
  cbn [bind walkOperators walkOperator] in H.
  pose proof (walkOperators_stack _ Hs _ _ E) as K.
  cbn [transformStack] in K. rewrite K in H. cbn [bind] in H.
  inversion H; subst. cbn. now split.
Qed.

Lemma save_restore_scope_witness :
  exists w',
    walkOperators initialWalk
      (OPS_save :: [OPS_transform (mkMatrix 1 0 0 1 10 660); OPS_fill]
       ++ [OPS_restore]) = Returned w'
    /\ currentTransform w' = Some identityMatrix.
Proof.
  eexists.
  assert (H : walkOperators initialWalk
                (OPS_save :: [OPS_transform (mkMatrix 1 0 0 1 10 660); OPS_fill]
                 ++ [OPS_restore])
              = Returned (mkWalk [] None [Some identityMatrix]
                                 (Some identityMatrix)))
    by reflexivity.
  split; [exact H|].
  apply (save_restore_scope
           [OPS_transform (mkMatrix 1 0 0 1 10 660); OPS_fill] initialWalk _
           eq_refl H).
Defined.

Lemma walkPath_undefined_transform (operations : list PathOperation)
  (arguments : list Q) :
  existsb (fun operation =>
             match operation with
             | OPS_rectangle => true
             | _ => false
             end) operations = true ->
  forall argumentIndex pending,
    walkPath operations arguments argumentIndex None pending = Threw.
Proof.
  induction operations as [|operation later IH]; [discriminate|].
  intros H argumentIndex pending.
  destruct operation; cbn [walkPath existsb orb] in *;
    try (apply IH; exact H). reflexivity.
Qed.

Lemma restores_exhaust (k : nat) :
  forall w,
    (List.length (transformStack w) <= k)%nat ->
    Forall (fun t => t <> None) (transformStack w) ->
    exists w',
      walkOperators w (repeat OPS_restore (S k)) = Returned w'
      /\ currentTransform w' = None /\ transformStack w' = [].
Proof.
  induction k as [|k IH]; intros w Hl Hf.
  - destruct (transformStack w) eqn:S; [|cbn in Hl; lia].
    cbn. rewrite S. cbn. eexists. split; [reflexivity|]. now split.
  - cbn [repeat walkOperators walkOperator].
    destruct (transformStack w) as [|top rest] eqn:S; cbn [bind].
    + apply (IH (mkWalk (walkLines w) (pendingRectangle w) [] None));
        cbn; [lia|constructor].
    + apply (IH (mkWalk (walkLines w) (pendingRectangle w) rest top)).
      * cbn in *. lia.
      * cbn. now inversion Hf.
Qed.

(** Two or more restores at the start of a page use up the transform
    stack, and the first path with a rectangle that follows makes the walk
    raise. *)
Theorem unmatched_restores_raise (k : nat) (operations : list PathOperation)
  (arguments : list Q) (later : list Operator) :
  hasRectangle (OPS_constructPath operations arguments) = true ->
  findLines (repeat OPS_restore (2 + k)
             ++ OPS_constructPath operations arguments :: later) = Threw.
Proof.
  intro H. unfold findLines. rewrite walkOperators_app.
  destruct (restores_exhaust (S k) initialWalk) as (w' & E & T & _).
  - cbn. lia.
  - cbn. constructor; [discriminate|constructor].
  - change (2 + k)%nat with (S (S k)). rewrite E.
    cbn [bind walkOperators walkOperator]. rewrite T.
    now rewrite (walkPath_undefined_transform operations arguments H).
Qed.

Lemma unmatched_restores_raise_witness :
  findLines [OPS_restore; OPS_restore;
             OPS_constructPath [OPS_rectangle] [0; 0; 100; 1]; OPS_fill]
  = Threw.
Proof.
  apply (unmatched_restores_raise 0 [OPS_rectangle] [0; 0; 100; 1] [OPS_fill]).
  reflexivity.
Defined.

(** The box drawn by [boxOperators] is reconstructed as one cell. *)
Example box_operators_one_cell :
  exists cell,
    parseCellsOfOperators boxOperators = Returned [cell]
    /\ sameRectangle cell (mkRectangle 10 660 100 20).
Proof.
  eexists. split; [vm_compute; reflexivity|].
  repeat split; vm_compute; reflexivity.
Qed.

(** ** The first generation *)

Module FirstGenerationFacts.

Import FirstGeneration.

Open Scope Q_scope.



(** *** Rows *)

Lemma isRowOf_self (cell : Cell) : isRowOf cell [cell] = true.
Proof.
  cbn. apply Math_abs_lt. unfold Tolerance. split; lra.
Qed.

Lemma isRowOf_snoc (cell c : Cell) (row : list Cell) :
  row <> [] -> isRowOf c (row ++ [cell]) = isRowOf c row.
Proof. destruct row; [congruence|reflexivity]. Qed.

Lemma addToRows_spec (cell : Cell) (rows : list (list Cell)) :
  Forall wellGrouped rows ->
  Permutation (concat (addToRows cell rows)) (cell :: concat rows)
  /\ Forall wellGrouped (addToRows cell rows).
Proof.
  induction rows as [|row later IH]; intro H; cbn [addToRows].
  - split; [cbn; apply Permutation_refl|].
    constructor; [|constructor]. split; [discriminate|].
    intros c [<-|[]]. apply isRowOf_self.
  - inversion H as [|? ? [Hne Hrow] Hlater]; subst.
    destruct (isRowOf cell row) eqn:E.
    + split.
      * cbn [concat]. rewrite <- app_assoc. cbn [app].
        apply Permutation_sym, Permutation_middle.
      * constructor; [|exact Hlater]. split.
        -- destruct row; discriminate.
        -- intros c Hc. rewrite (isRowOf_snoc _ _ _ Hne).
           apply in_app_or in Hc. destruct Hc as [Hc|[<-|[]]];
             [apply Hrow, Hc|exact E].
    + destruct (IH Hlater) as [P F]. split.
      * cbn [concat].
        apply perm_trans with (row ++ cell :: concat later);
          [now apply Permutation_app_head|].
        apply Permutation_sym, Permutation_middle.
      * constructor; [now split|exact F].
Qed.

(** The rows partition the cells: every cell is in exactly one row, no row
    is empty, and every cell of a row lies within the tolerance of the top
    of the row's first cell. *)
Theorem groupRows_partition (cells : list Cell) :
  Permutation (concat (groupRows cells)) cells
  /\ Forall (fun row => row <> []
                        /\ forall cell, In cell row -> isRowOf cell row = true)
            (groupRows cells).
Proof.
  unfold groupRows.
  assert (G : forall cells rows,
             Forall wellGrouped rows ->
             Permutation
               (concat (fold_left (fun rows cell => addToRows cell rows) cells rows))
               (concat rows ++ cells)
             /\ Forall wellGrouped
                  (fold_left (fun rows cell => addToRows cell rows) cells rows)).
  { clear cells. induction cells as [|cell cells IH]; intros rows H; cbn [fold_left].
    - rewrite app_nil_r. split; [apply Permutation_refl|exact H].
    - destruct (addToRows_spec cell rows H) as [P F].
      destruct (IH _ F) as [P' F']. split; [|exact F'].
      apply perm_trans with (concat (addToRows cell rows) ++ cells); [exact P'|].
      apply perm_trans with ((cell :: concat rows) ++ cells);
        [now apply Permutation_app_tail|].
      cbn [app]. apply Permutation_middle. }
  destruct (G cells [] (Forall_nil _)) as [P F]. split; [exact P|exact F].
Qed.

(** *** The pattern of an application number *)

Open Scope string_scope.

Lemma dropWhile_split (p : ascii -> bool) (s : string) :
  exists run, s = run ++ dropWhile p s /\ everyChar p run = true.
Proof.
  induction s as [|c s IH]; cbn.
  - exists EmptyString. now split.
  - destruct (p c) eqn:E.
    + destruct IH as (run & Hs & Hr). exists (String c run). cbn.
      rewrite E, Hr. split; [now rewrite <- Hs|reflexivity].
    + exists EmptyString. now split.
Qed.

Lemma dropWhile_run (p : ascii -> bool) (run : string) (c : ascii) (rest : string) :
  everyChar p run = true -> p c = false ->
  dropWhile p (run ++ String c rest) = String c rest.
Proof.
  induction run as [|d run IH]; cbn; intros Hr Hc.
  - now rewrite Hc.
  - apply andb_true_iff in Hr. destruct Hr as [Hd Hr]. rewrite Hd. now apply IH.
Qed.

Lemma append_assoc (a b c : string) : (a ++ b) ++ c = a ++ (b ++ c).
Proof. induction a as [|d a IH]; cbn; [reflexivity|now rewrite IH]. Qed.

Lemma middleAndLast_spec (s : string) :
  middleAndLast s = true ->
  exists n2 d after,
    s = n2 ++ String "/" (String d after)
    /\ n2 <> EmptyString /\ everyChar isDigitOrUpper n2 = true
    /\ isDigit d = true.
Proof.
  destruct s as [|c r]; [discriminate|]. cbn [middleAndLast].
  intro H. apply andb_true_iff in H. destruct H as [Hc H].
  destruct (dropWhile_split isDigitOrUpper r) as (run & Hr & Hrun).
  destruct (dropWhile isDigitOrUpper r) as [|slash [|d after]]; try discriminate.
  apply andb_true_iff in H. destruct H as [Hs Hd].
  apply Ascii.eqb_eq in Hs. subst slash.
  exists (String c run), d, after. cbn. rewrite Hc, Hrun.
  repeat split; [now rewrite <- Hr|discriminate|exact Hd].
Qed.

Lemma looksLikeApplicationNumber_prefix (before s : string) :
  looksLikeApplicationNumber s = true ->
  looksLikeApplicationNumber (before ++ s) = true.
Proof.
  induction before as [|c before IH]; intro H; [exact H|].
  cbn. rewrite (IH H). apply orb_true_r.
Qed.

Lemma looksLikeApplicationNumber_cons (c : ascii) (r : string) :
  looksLikeApplicationNumber r = true ->
  looksLikeApplicationNumber (String c r) = true.
Proof. intro H. cbn [looksLikeApplicationNumber]. rewrite H. apply orb_true_r. Qed.

Lemma looksLikeApplicationNumber_digits (n1 rest : string) :
  n1 <> EmptyString -> everyChar isDigit n1 = true ->
  middleAndLast rest = true ->
  looksLikeApplicationNumber (n1 ++ String "/" rest) = true.
Proof.
  induction n1 as [|d n1 IH]; [congruence|].
  intros _ Hd Hm. cbn [everyChar] in Hd.
  apply andb_true_iff in Hd. destruct Hd as [Hd Hn].
  destruct n1 as [|d' n1].
  - cbn. rewrite Hd, Hm. reflexivity.
  - change (String d (String d' n1) ++ String "/" rest)
      with (String d (String d' n1 ++ String "/" rest)).
    apply looksLikeApplicationNumber_cons.
    apply IH; [discriminate|exact Hn|exact Hm].
Qed.

(** The test of the application number accepts exactly the strings that
    hold, somewhere, digits, a slash, digits and capitals, a slash and
    digits. *)
Theorem looksLikeApplicationNumber_pattern (s : string) :
  looksLikeApplicationNumber s = true <-> hasNumberPattern s.
Proof.
  split.
  - induction s as [|c r IH]; [discriminate|].
    cbn [looksLikeApplicationNumber]. intro H.
    apply orb_true_iff in H. destruct H as [H|H].
    + apply andb_true_iff in H. destruct H as [Hc H].
      destruct r as [|slash r']; [discriminate|].
      apply andb_true_iff in H. destruct H as [Hs H].
      apply Ascii.eqb_eq in Hs. subst slash.
      destruct (middleAndLast_spec _ H) as (n2 & d & after & -> & N2 & E2 & Hd).
      exists EmptyString, (String c EmptyString), n2, (String d EmptyString), after.
      cbn. rewrite Hc, Hd.
      repeat split; try discriminate; assumption.
    + destruct (IH H) as (before & n1 & n2 & n3 & after & -> & K).
      exists (String c before), n1, n2, n3, after. split; [reflexivity|exact K].
  - intros (before & n1 & n2 & n3 & after & -> & N1 & E1 & N2 & E2 & N3 & E3).
    apply looksLikeApplicationNumber_prefix.
    change ("/" ++ n2 ++ "/" ++ n3 ++ after)
      with (String "/" (n2 ++ String "/" (n3 ++ after))).
    apply looksLikeApplicationNumber_digits; [exact N1|exact E1|].
    destruct n2 as [|c2 n2]; [congruence|].
    destruct n3 as [|d3 n3]; [congruence|].
    cbn [everyChar] in E2, E3.
    apply andb_true_iff in E2. destruct E2 as [Hc2 E2].
    apply andb_true_iff in E3. destruct E3 as [Hd3 E3].
    cbn [append middleAndLast]. rewrite Hc2. cbn [andb].
    rewrite (dropWhile_run isDigitOrUpper n2 "/" _ E2 eq_refl).
    cbn. now rewrite Hd3.
Qed.

(** *** Records *)

Lemma trim_not_blank (s : string) :
  trim s <> EmptyString -> isBlank (trim s) = false.
Proof.
  intro H. destruct (trim_head s) as [E|(c & r & E & Hc)]; [contradiction|].
  rewrite E. unfold isBlank, trim. cbn [trimStart]. rewrite Hc.
  destruct (trimEnd_head c r Hc) as [r' ->]. reflexivity.
Qed.

Section Records.

Variable momentStrict : string -> option string.
Variable today : string.

Lemma parseRow_record (url : string) (h1 h2 h3 h4 : option Cell)
  (row : list Cell) (app : DevelopmentApplication) :
  parseRow momentStrict today url h1 h2 h3 h4 row = Some app ->
  looksLikeApplicationNumber (applicationNumber app) = true
  /\ ~ blank (address app)
  /\ ~ blank (description app)
  /\ informationUrl app = url.
Proof.
  unfold parseRow.
  destruct (findColumnCell row h1) as [numberCell|]; [|discriminate].
  destruct (looksLikeApplicationNumber _) eqn:N; [|discriminate]. cbn [negb].
  destruct (findColumnCell row h3) as [addressCell|]; [|discriminate].
  destruct (String.eqb _ EmptyString) eqn:A; [discriminate|].
  intro H. inversion H; subst; clear H.
  cbn [applicationNumber address description informationUrl].
  split; [exact N|]. split; [|split; [|reflexivity]].
  - apply isBlank_not_blank, trim_not_blank. now apply String.eqb_neq.
  - apply isBlank_not_blank.
    match goal with
    | |- isBlank (if String.eqb ?d EmptyString then _ else _) = false =>
        destruct (String.eqb d EmptyString) eqn:D
    end.
    + reflexivity.
    + destruct (findColumnCell row h4) as [descriptionCell|].
      * apply trim_not_blank. now apply String.eqb_neq.
      * discriminate D.
Qed.

End Records.

(** Every record of the table-based [parsePdf] has an application number
    of the expected pattern, an address and a description that are not
    blank (each holds a character that is not white space, in the words of
    the language standard) and the URL of the document. *)
Theorem parsePdf_records
  (momentStrict : string -> option string) (today url : string)
  (pages : list Page) (app : DevelopmentApplication) :
  In app (parsePdf momentStrict today url pages) ->
  looksLikeApplicationNumber (applicationNumber app) = true
  /\ ~ blank (address app)
  /\ ~ blank (description app)
  /\ informationUrl app = url.
Proof.
  unfold parsePdf. intro H.
  apply in_flat_map in H. destruct H as (page & _ & H).
  unfold parsePage in H.
  destruct (groupRows _); [destruct H|].
  destruct (_ && _); [destruct H|].
  destruct (findHeadingCell _ "applicationno.") as [h1|]; [|destruct H].
  destruct (findHeadingCell _ "addressofdevelopment") as [h3|]; [|destruct H].
  apply in_flat_map in H. destruct H as (row & _ & H).
  destruct (parseRow _ _ _ _ _ _ _ _) as [app'|] eqn:E; [|destruct H].
  destruct H as [<-|[]].
  apply (parseRow_record _ _ _ _ _ _ _ _ _ E).
Qed.

Lemma parsePdf_records_witness :
  parsePdf noDate "2019-03-21" "register.pdf" [tablePage] = [tableApplication]
  /\ ~ blank (address tableApplication).
Proof.
  assert (H : parsePdf noDate "2019-03-21" "register.pdf" [tablePage]
              = [tableApplication]) by (vm_compute; reflexivity).
  split; [exact H|].
  apply (parsePdf_records noDate "2019-03-21" "register.pdf" [tablePage]
           tableApplication).
  rewrite H. left. reflexivity.
Defined.

End FirstGenerationFacts.

(** ** The choice of the documents *)

Lemma getRandom_range (random : Q) (n : Z) :
  0 <= random -> random < 1 -> (0 < n)%Z ->
  (0 <= getRandom random 0 (inject_Z n) < n)%Z.
Proof.
  intros H0 H1 Hn. unfold getRandom, Math_floor, Math_ceil.
  rewrite Qfloor_Z.
  change (Qceiling 0) with 0%Z. rewrite Z.sub_0_r, Z.add_0_r.
  assert (Hq : 0 < inject_Z n) by (change 0 with (inject_Z 0); now rewrite <- Zlt_Qlt).
  split.
  - change 0%Z with (Qfloor 0). apply Qfloor_resp_le. nra.
  - rewrite Zlt_Qlt.
    apply Qle_lt_trans with (random * inject_Z n); [apply Qfloor_le|]. nra.
Qed.

Lemma atIndex_In {A : Type} (array : list A) (index : Z) :
  (0 <= index < Z.of_nat (List.length array))%Z ->
  exists a, atIndex array index = Some a /\ In a array.
Proof.
  intros [H0 H1]. unfold atIndex.
  destruct (index <? 0)%Z eqn:E; [apply Z.ltb_lt in E; lia|].
  destruct (nth_error array (Z.to_nat index)) as [a|] eqn:N.
  - exists a. split; [reflexivity|]. eapply nth_error_In; eauto.
  - apply nth_error_None in N. lia.
Qed.

Lemma collectPdfUrls_fold (hrefs pdfUrls : list string) :
  NoDup pdfUrls ->
  NoDup (fold_left addPdfUrl hrefs pdfUrls)
  /\ forall pdfUrl, In pdfUrl (fold_left addPdfUrl hrefs pdfUrls) ->
       In pdfUrl pdfUrls \/ (In pdfUrl hrefs /\ isRegisterLink pdfUrl = true).
Proof.
  revert pdfUrls. induction hrefs as [|href hrefs IH]; intros pdfUrls Hnd; cbn.
  - split; [exact Hnd|]. intros; now left.
  - assert (Hnd' : NoDup (addPdfUrl pdfUrls href)).
    { unfold addPdfUrl. destruct (isRegisterLink href); [|exact Hnd].
      destruct (existsb (String.eqb href) pdfUrls) eqn:E; [exact Hnd|].
      apply NoDup_app; [exact Hnd|repeat constructor; intros []|].
      intros u Hu [Hv|[]]. subst u.
      assert (existsb (String.eqb href) pdfUrls = true); [|congruence].
      apply existsb_exists. exists href. split; [exact Hu|apply String.eqb_refl]. }
    destruct (IH _ Hnd') as [N I]. split; [exact N|].
    intros u Hu. destruct (I u Hu) as [Hin|[Hin Hr]].
    + unfold addPdfUrl in Hin. destruct (isRegisterLink href) eqn:R; [|now left].
      destruct (existsb (String.eqb href) pdfUrls); [now left|].
      apply in_app_or in Hin. destruct Hin as [Hin|[Hin|[]]]; [now left|].
      subst u. right. split; [now left|exact R].
    + right. split; [now right|exact Hr].
Qed.


